(** * Tokk configuration API: the router of [src/routes/config.js]

    A shallow embedding of the Express router that serves the
    configuration documents: the startup cache of documents, the
    fixed-window rate limiter, the API-key check, the six routes in
    their registration order and the admin feature-flag merge.

    JavaScript objects live in a heap of property lists, so that two
    cache entries can be the very same object and a merge into one is
    seen through the other.  An object has its own properties in the
    order of its keys (array indices first, in ascending order, then the
    other names as they were created) and a prototype, which a write to
    [__proto__] reaches.  The platform functions the router calls
    ([JSON.stringify], base64, [String.prototype.replace], ...) are
    written out for the values the service handles; [JSON.parse] is a
    parameter of the development, with an executable parser given for
    the examples.  Console output is not modelled.

    The router runs in the Express 4 application of the repository (its
    catch-all handler is mounted at the path [*]), with the default
    settings:
    [res.json] answers a conditional GET or HEAD with a 304 when the
    ETag allows it, a HEAD request runs the handlers of GET, and an
    OPTIONS request that reaches the router is answered with the methods
    of its path.  The iOS client of the same repository is embedded next
    to the router, with the requests it makes and the answers it
    decodes.

    Outside the development: arrays as targets of the admin merge (what
    a write does to their length), numbers that are no integers of at
    most 53 bits, and the header fields that the framework adds to the
    ones the router sets. *)

From stdpp Require Import gmap strings list fin_maps pretty.
From Stdlib Require Import ZArith Lia Ascii.

Local Open Scope Z_scope.

(** ** Platform: strings *)

Module Platform.

(** [String.prototype.toUpperCase] on the ASCII letters. *)
Definition upper_ascii (c : ascii) : ascii :=
  let n := nat_of_ascii c in
  if ((97 <=? n) && (n <=? 122))%nat then ascii_of_nat (n - 32) else c.

Definition lower_ascii (c : ascii) : ascii :=
  let n := nat_of_ascii c in
  if ((65 <=? n) && (n <=? 90))%nat then ascii_of_nat (n + 32) else c.

Fixpoint toUpperCase (s : string) : string :=
  match s with
  | EmptyString => EmptyString
  | String c s' => String (upper_ascii c) (toUpperCase s')
  end.

Fixpoint toLowerCase (s : string) : string :=
  match s with
  | EmptyString => EmptyString
  | String c s' => String (lower_ascii c) (toLowerCase s')
  end.

Fixpoint drop_string (n : nat) (s : string) : string :=
  match n, s with
  | O, _ => s
  | S n', String _ s' => drop_string n' s'
  | S _, EmptyString => EmptyString
  end.

(** [s.replace(pat, rep)] with a string pattern: the first occurrence only. *)
Fixpoint replace (pat rep s : string) : string :=
  if String.prefix pat s then rep +:+ drop_string (String.length pat) s
  else match s with
       | EmptyString => EmptyString
       | String c s' => String c (replace pat rep s')
       end.

(** [s.substring(0, n)]. *)
Definition substring0 (n : nat) (s : string) : string := String.substring 0 n s.

Fixpoint join (sep : string) (xs : list string) : string :=
  match xs with
  | [] => ""
  | [x] => x
  | x :: xs' => x +:+ sep +:+ join sep xs'
  end.

(** ** Platform: base64 of a byte string ([Buffer.from(s).toString('base64')]) *)

Definition b64_alphabet : list ascii :=
  String.list_ascii_of_string
    "ABCDEFGHIJKLMNOPQRSTUVWXYZabcdefghijklmnopqrstuvwxyz0123456789+/".

Definition b64_digit (n : N) : ascii :=
  nth (N.to_nat n) b64_alphabet "="%char.

Definition pad : ascii := "="%char.

Fixpoint b64_groups (bs : list N) : list ascii :=
  match bs with
  | [] => []
  | [a] =>
      [b64_digit (N.shiftr a 2); b64_digit (N.shiftl (N.land a 3) 4); pad; pad]
  | [a; b] =>
      [b64_digit (N.shiftr a 2);
       b64_digit (N.lor (N.shiftl (N.land a 3) 4) (N.shiftr b 4));
       b64_digit (N.shiftl (N.land b 15) 2); pad]
  | a :: b :: c :: rest =>
      b64_digit (N.shiftr a 2)
      :: b64_digit (N.lor (N.shiftl (N.land a 3) 4) (N.shiftr b 4))
      :: b64_digit (N.lor (N.shiftl (N.land b 15) 2) (N.shiftr c 6))
      :: b64_digit (N.land c 63)
      :: b64_groups rest
  end.

Definition base64 (s : string) : string :=
  String.string_of_list_ascii (b64_groups (map N_of_ascii (String.list_ascii_of_string s))).

(** ** Platform: array indices

    A property key is an array index when it is the canonical decimal
    numeral of an integer from 0 to 2^32 - 2.  An object lists such keys
    first, in ascending order, and its other keys after them in the order
    of their creation. *)

Definition decimal_digit (c : ascii) : bool :=
  let n := nat_of_ascii c in ((48 <=? n) && (n <=? 57))%nat.

Definition decimal_value (cs : list ascii) : N :=
  fold_left (fun acc c => 10 * acc + (N_of_ascii c - 48))%N cs 0%N.

Definition array_index (k : string) : option N :=
  match String.list_ascii_of_string k with
  | [] => None
  | c :: r =>
      if forallb decimal_digit (c :: r)
         && (negb (nat_of_ascii c =? 48)%nat || bool_decide (r = []))
         && (length r <? 10)%nat
         && (decimal_value (c :: r) <=? 4294967294)%N
      then Some (decimal_value (c :: r))
      else None
  end.

(** ** Platform: SHA-1 ([crypto.createHash('sha1')]) *)

Definition word (n : N) : N := N.land n 4294967295.

Definition rotl (k : N) (x : N) : N :=
  word (N.lor (N.shiftl x k) (N.shiftr x (32 - k))).

Definition be_bytes (n : nat) (x : N) : list N :=
  map (fun i => N.land (N.shiftr x (8 * N.of_nat i)) 255) (reverse (seq 0 n)).

(** The message, a single one bit, zeros up to 56 modulo 64 bytes, and
    the length in bits as eight bytes. *)
Definition sha1_pad (bs : list N) : list N :=
  let len := length bs in
  let zeros := ((119 - len mod 64) mod 64)%nat in
  bs ++ [128%N] ++ replicate zeros 0%N ++ be_bytes 8 (8 * N.of_nat len).

Fixpoint be_words (fuel : nat) (bs : list N) : list N :=
  match fuel, bs with
  | S f, a :: b :: c :: d :: rest =>
      N.lor (N.lor (N.shiftl a 24) (N.shiftl b 16)) (N.lor (N.shiftl c 8) d)
      :: be_words f rest
  | _, _ => []
  end.

(** The message schedule; [recent] holds the last sixteen words, the
    newest first. *)
Fixpoint sha1_schedule (n : nat) (recent : list N) : list N :=
  match n with
  | O => []
  | S n' =>
      let w := rotl 1 (N.lxor (N.lxor (nth 2 recent 0%N) (nth 7 recent 0%N))
                               (N.lxor (nth 13 recent 0%N) (nth 15 recent 0%N))) in
      w :: sha1_schedule n' (w :: take 15 recent)
  end.

Definition sha1_state : Type := N * N * N * N * N.

Definition sha1_round (s : sha1_state) (tw : nat * N) : sha1_state :=
  let '(a, b, c, d, e) := s in
  let '(t, w) := tw in
  let '(f, k) :=
    if (t <? 20)%nat then
      (N.lor (N.land b c) (N.land (N.lxor b 4294967295) d), 1518500249%N)
    else if (t <? 40)%nat then (N.lxor (N.lxor b c) d, 1859775393%N)
    else if (t <? 60)%nat then
      (N.lor (N.lor (N.land b c) (N.land b d)) (N.land c d), 2400959708%N)
    else (N.lxor (N.lxor b c) d, 3395469782%N) in
  (word (rotl 5 a + f + e + k + w), a, rotl 30 b, c, d)%N.

Definition sha1_block (s : sha1_state) (ws : list N) : sha1_state :=
  let '(a0, b0, c0, d0, e0) := s in
  let all := ws ++ sha1_schedule 64 (reverse ws) in
  let '(a, b, c, d, e) := fold_left sha1_round (imap (fun t w => (t, w)) all) s in
  (word (a0 + a), word (b0 + b), word (c0 + c), word (d0 + d), word (e0 + e))%N.

Fixpoint sha1_blocks (fuel : nat) (s : sha1_state) (ws : list N) : sha1_state :=
  match fuel, ws with
  | S f, _ :: _ => sha1_blocks f (sha1_block s (take 16 ws)) (drop 16 ws)
  | _, _ => s
  end.

(** The digest, as a string of twenty bytes. *)
Definition sha1 (s : string) : string :=
  let bs := sha1_pad (map N_of_ascii (String.list_ascii_of_string s)) in
  let ws := be_words (length bs) bs in
  let '(a, b, c, d, e) :=
    sha1_blocks (length ws)
      (1732584193, 4023233417, 2562383102, 271733878, 3285377520)%N ws in
  String.string_of_list_ascii
    (map ascii_of_N
       (be_bytes 4 a ++ be_bytes 4 b ++ be_bytes 4 c ++ be_bytes 4 d ++ be_bytes 4 e)).

Definition hex_digit (n : N) : ascii :=
  nth (N.to_nat n) (String.list_ascii_of_string "0123456789abcdef") "0"%char.

(** [n.toString(16)] *)
Fixpoint hex_go (fuel : nat) (n : N) (acc : string) : string :=
  match fuel with
  | O => acc
  | S f =>
      let acc' := String (hex_digit (N.land n 15)) acc in
      if (N.shiftr n 4 =? 0)%N then acc' else hex_go f (N.shiftr n 4) acc'
  end.

Definition hex (n : N) : string := hex_go (S (N.to_nat (N.log2 n))) n "".

End Platform.

(** ** JSON documents *)

(** The trees that [JSON.parse] yields and that [JSON.stringify] writes.
    Numbers are kept in their integer range: the documents of this
    service carry strings, booleans and nested objects. *)
#[warnings="-register-all"]
Inductive json : Type :=
  | JNull
  | JBool (b : bool)
  | JNum (n : Z)
  | JStr (s : string)
  | JArr (xs : list json)
  | JObj (kvs : list (string * json)).

(** First binding of a key in a property list. *)
Fixpoint assoc {A} (k : string) (ps : list (string * A)) : option A :=
  match ps with
  | [] => None
  | (k', v) :: ps' => if decide (k' = k) then Some v else assoc k ps'
  end.

(** The new value of a key that the list has: the key keeps its place. *)
Fixpoint prop_update {A} (k : string) (v : A) (ps : list (string * A))
  : list (string * A) :=
  match ps with
  | [] => []
  | (k', v') :: ps' =>
      if decide (k' = k) then (k, v) :: ps' else (k', v') :: prop_update k v ps'
  end.

(** A new key with array index [i]: it goes before the first key that is
    not an array index below [i]. *)
Fixpoint prop_insert {A} (k : string) (v : A) (i : N) (ps : list (string * A))
  : list (string * A) :=
  match ps with
  | [] => [(k, v)]
  | (k', v') :: ps' =>
      match Platform.array_index k' with
      | Some j => if (j <? i)%N then (k', v') :: prop_insert k v i ps' else (k, v) :: ps
      | None => (k, v) :: ps
      end
  end.

(** [o[k] = v] as an own property of an ordinary object: an existing key
    keeps its place; a new key goes among the array indices when it is
    one, and last otherwise. *)
Definition prop_set {A} (k : string) (v : A) (ps : list (string * A))
  : list (string * A) :=
  match assoc k ps with
  | Some _ => prop_update k v ps
  | None =>
      match Platform.array_index k with
      | Some i => prop_insert k v i ps
      | None => ps ++ [(k, v)]
      end
  end.

Definition jfield (k : string) (j : json) : option json :=
  match j with
  | JObj kvs => assoc k kvs
  | _ => None
  end.

Definition jkeys (j : json) : list string :=
  match j with
  | JObj kvs => map fst kvs
  | _ => []
  end.

Module Json.
Import Platform.

Definition dquote : ascii := ascii_of_nat 34.
Definition backslash : ascii := ascii_of_nat 92.

Definition hex_digit (n : nat) : ascii :=
  nth n (String.list_ascii_of_string "0123456789abcdef") "0"%char.

Definition esc (c : ascii) : string := String backslash (String c EmptyString).

Definition escape_char (c : ascii) : string :=
  let n := nat_of_ascii c in
  if (n =? 34)%nat then esc dquote
  else if (n =? 92)%nat then esc backslash
  else if (n =? 8)%nat then esc "b"
  else if (n =? 12)%nat then esc "f"
  else if (n =? 10)%nat then esc "n"
  else if (n =? 13)%nat then esc "r"
  else if (n =? 9)%nat then esc "t"
  else if (n <? 32)%nat then
    String backslash
      ("u00" +:+ String (hex_digit (n / 16)) (String (hex_digit (n mod 16)) ""))
  else String c "".

Fixpoint escape (s : string) : string :=
  match s with
  | EmptyString => EmptyString
  | String c s' => escape_char c +:+ escape s'
  end.

Definition quote (s : string) : string :=
  String dquote (escape s +:+ String dquote "").

(** The text [JSON.stringify] writes for a tree (no indentation). *)
Fixpoint print (j : json) : string :=
  match j with
  | JNull => "null"
  | JBool true => "true"
  | JBool false => "false"
  | JNum n => pretty n
  | JStr s => quote s
  | JArr xs => "[" +:+ join "," (map print xs) +:+ "]"
  | JObj kvs =>
      "{" +:+ join "," (map (fun kv => quote (fst kv) +:+ ":" +:+ print (snd kv)) kvs)
          +:+ "}"
  end.

(** *** An executable parser

    Recursive descent over the JSON grammar.  Number literals with a
    fraction or an exponent and [\u] escapes above U+007F are not in the
    fragment it accepts. *)

Definition code (c : ascii) : nat := nat_of_ascii c.

Definition is_ws (c : ascii) : bool :=
  ((code c =? 32) || (code c =? 9) || (code c =? 10) || (code c =? 13))%nat.

Definition is_digit (c : ascii) : bool :=
  ((48 <=? code c) && (code c <=? 57))%nat.

Fixpoint skip_ws (cs : list ascii) : list ascii :=
  match cs with
  | c :: r => if is_ws c then skip_ws r else cs
  | [] => []
  end.

Fixpoint take_digits (cs : list ascii) : list ascii * list ascii :=
  match cs with
  | c :: r =>
      if is_digit c then let '(ds, r') := take_digits r in (c :: ds, r')
      else ([], cs)
  | [] => ([], [])
  end.

Definition digits_value (ds : list ascii) : Z :=
  fold_left (fun acc d => 10 * acc + (Z.of_nat (code d) - 48)) ds 0.

Definition starts_fraction (cs : list ascii) : bool :=
  match cs with
  | c :: _ => ((code c =? 46) || (code c =? 101) || (code c =? 69))%nat
  | [] => false
  end.

(** An optional minus sign, then a single zero or a digit string without
    leading zero. *)
Definition parse_int (cs : list ascii) : option (Z * list ascii) :=
  let '(neg, cs1) :=
    match cs with
    | c :: r => if (code c =? 45)%nat then (true, r) else (false, cs)
    | [] => (false, cs)
    end in
  match cs1 with
  | c :: r =>
      if (code c =? 48)%nat then
        if starts_fraction r then None else Some (0, r)
      else if is_digit c then
        let '(ds, r') := take_digits cs1 in
        if starts_fraction r' then None
        else Some (if neg then - digits_value ds else digits_value ds, r')
      else None
  | [] => None
  end.

Definition hex_value (c : ascii) : option nat :=
  let n := code c in
  if ((48 <=? n) && (n <=? 57))%nat then Some (n - 48)%nat
  else if ((97 <=? n) && (n <=? 102))%nat then Some (n - 87)%nat
  else if ((65 <=? n) && (n <=? 70))%nat then Some (n - 55)%nat
  else None.

Definition unescape (c : ascii) : option ascii :=
  let n := code c in
  if (n =? 34)%nat then Some dquote
  else if (n =? 92)%nat then Some backslash
  else if (n =? 47)%nat then Some "/"%char
  else if (n =? 98)%nat then Some (ascii_of_nat 8)
  else if (n =? 102)%nat then Some (ascii_of_nat 12)
  else if (n =? 110)%nat then Some (ascii_of_nat 10)
  else if (n =? 114)%nat then Some (ascii_of_nat 13)
  else if (n =? 116)%nat then Some (ascii_of_nat 9)
  else None.

(** The characters of a string literal, after its opening quote. *)
Fixpoint parse_chars (cs : list ascii) : option (string * list ascii) :=
  match cs with
  | [] => None
  | c :: r =>
      if (code c =? 34)%nat then Some (EmptyString, r)
      else if (code c =? 92)%nat then
        match r with
        | e :: r1 =>
            match unescape e with
            | Some d =>
                match parse_chars r1 with
                | Some (s, t) => Some (String d s, t)
                | None => None
                end
            | None =>
                if (code e =? 117)%nat then
                  match r1 with
                  | h1 :: h2 :: h3 :: h4 :: r2 =>
                      match hex_value h1, hex_value h2, hex_value h3, hex_value h4 with
                      | Some a, Some b, Some c', Some d =>
                          let u := (((a * 16 + b) * 16 + c') * 16 + d)%nat in
                          if (u <? 128)%nat then
                            match parse_chars r2 with
                            | Some (s, t) => Some (String (ascii_of_nat u) s, t)
                            | None => None
                            end
                          else None
                      | _, _, _, _ => None
                      end
                  | _ => None
                  end
                else None
            end
        | [] => None
        end
      else if (code c <? 32)%nat then None
      else
        match parse_chars r with
        | Some (s, t) => Some (String c s, t)
        | None => None
        end
  end.

Definition literal (w : string) (cs : list ascii) : option (list ascii) :=
  let ws := String.list_ascii_of_string w in
  if decide (take (length ws) cs = ws) then Some (drop (length ws) cs)
  else None.

Fixpoint parse_value (fuel : nat) (cs : list ascii) : option (json * list ascii) :=
  match fuel with
  | O => None
  | S f =>
      match skip_ws cs with
      | [] => None
      | c :: r =>
          if (code c =? 34)%nat then
            match parse_chars r with
            | Some (s, t) => Some (JStr s, t)
            | None => None
            end
          else if (code c =? 91)%nat then
            match skip_ws r with
            | c' :: r' =>
                if (code c' =? 93)%nat then Some (JArr [], r')
                else match parse_elements f r with
                     | Some (xs, t) => Some (JArr xs, t)
                     | None => None
                     end
            | [] => None
            end
          else if (code c =? 123)%nat then
            match skip_ws r with
            | c' :: r' =>
                if (code c' =? 125)%nat then Some (JObj [], r')
                else match parse_members f r with
                     | Some (kvs, t) => Some (JObj kvs, t)
                     | None => None
                     end
            | [] => None
            end
          else if (code c =? 110)%nat then
            t ← literal "null" (c :: r); Some (JNull, t)
          else if (code c =? 116)%nat then
            t ← literal "true" (c :: r); Some (JBool true, t)
          else if (code c =? 102)%nat then
            t ← literal "false" (c :: r); Some (JBool false, t)
          else
            match parse_int (c :: r) with
            | Some (n, t) => Some (JNum n, t)
            | None => None
            end
      end
  end
with parse_elements (fuel : nat) (cs : list ascii) : option (list json * list ascii) :=
  match fuel with
  | O => None
  | S f =>
      match parse_value f cs with
      | Some (x, t) =>
          match skip_ws t with
          | c :: r =>
              if (code c =? 44)%nat then
                match parse_elements f r with
                | Some (xs, t') => Some (x :: xs, t')
                | None => None
                end
              else if (code c =? 93)%nat then Some ([x], r)
              else None
          | [] => None
          end
      | None => None
      end
  end
with parse_members (fuel : nat) (cs : list ascii)
  : option (list (string * json) * list ascii) :=
  match fuel with
  | O => None
  | S f =>
      match skip_ws cs with
      | q :: r =>
          if (code q =? 34)%nat then
            match parse_chars r with
            | Some (k, t) =>
                match skip_ws t with
                | c :: r1 =>
                    if (code c =? 58)%nat then
                      match parse_value f r1 with
                      | Some (x, t1) =>
                          match skip_ws t1 with
                          | c1 :: r2 =>
                              if (code c1 =? 44)%nat then
                                match parse_members f r2 with
                                | Some (kvs, t2) => Some ((k, x) :: kvs, t2)
                                | None => None
                                end
                              else if (code c1 =? 125)%nat then Some ([(k, x)], r2)
                              else None
                          | [] => None
                          end
                      | None => None
                      end
                    else None
                | [] => None
                end
            | None => None
            end
          else None
      | [] => None
      end
  end.

(** JSON texts are written below with ['] in place of the double quote. *)
Fixpoint text (s : string) : string :=
  match s with
  | EmptyString => EmptyString
  | String c s' => String (if (code c =? 39)%nat then dquote else c) (text s')
  end.

(** [None] stands for the [SyntaxError] that [JSON.parse] throws. *)
Definition parse (s : string) : option json :=
  let cs := String.list_ascii_of_string s in
  match parse_value (2 * length cs + 2) cs with
  | Some (j, t) =>
      match skip_ws t with
      | [] => Some j
      | _ :: _ => None
      end
  | None => None
  end.

End Json.

(** ** Values and the object heap *)

Abbreviation loc := nat.

Inductive value : Type :=
  | VUndef
  | VNull
  | VBool (b : bool)
  | VNum (n : Z)
  | VStr (s : string)
  | VRef (l : loc).

Global Instance value_eq_dec : EqDecision value.
Proof. solve_decision. Defined.

(** The prototype of an object: the one it is created with
    ([Object.prototype], or [Array.prototype] and then [Object.prototype]
    for an array), none, or another object of the heap. *)
Inductive prototype :=
  | StandardProto
  | NullProto
  | ObjectProto (l : loc).

Global Instance prototype_eq_dec : EqDecision prototype.
Proof. solve_decision. Defined.

(** An object: its own enumerable properties in the order in which
    JavaScript lists them, and its prototype.  [is_array] tells how
    [JSON.stringify] writes it. *)
Record object := Object {
  is_array : bool;
  props : list (string * value);
  proto : prototype
}.

(** An object as a literal, [JSON.parse] or an array literal creates it. *)
Abbreviation Obj a ps := (Object a ps StandardProto).

Abbreviation heap := (list object).

(** A new object takes the next free location. *)
Definition alloc (o : object) (h : heap) : value * heap :=
  (VRef (length h), h ++ [o]).

(** JavaScript truthiness, as [!x] and [x || y] use it. *)
Definition truthy (v : value) : bool :=
  match v with
  | VUndef | VNull => false
  | VBool b => b
  | VNum n => negb (n =? 0)
  | VStr s => negb (String.eqb s "")
  | VRef _ => true
  end.

(** [o.k] read from an object's properties; a missing key reads [undefined]. *)
Definition prop_get (k : string) (ps : list (string * value)) : value :=
  default VUndef (assoc k ps).

(** [v.k] for the keys the router reads ([features], [version]): a
    [TypeError] ([None]) on [undefined] and [null], [undefined] on the
    other primitives. *)
Definition get_prop (h : heap) (v : value) (k : string) : option value :=
  match v with
  | VUndef | VNull => None
  | VRef l =>
      match h !! l with
      | Some o => Some (prop_get k (props o))
      | None => Some VUndef
      end
  | VBool _ | VNum _ | VStr _ => Some VUndef
  end.

(** The object that [JSON.parse] builds: one heap object per JSON object
    or array, each member written as an own property ([__proto__]
    included); a repeated key keeps its place and takes its last value. *)
Definition build_props (kvs : list (string * value)) (ps : list (string * value))
  : list (string * value) :=
  fold_left (fun acc kv => prop_set (fst kv) (snd kv) acc) kvs ps.

Definition index_props (vs : list value) : list (string * value) :=
  imap (fun i v => (pretty i, v)) vs.

Fixpoint alloc_json (j : json) (h : heap) {struct j} : value * heap :=
  match j with
  | JNull => (VNull, h)
  | JBool b => (VBool b, h)
  | JNum n => (VNum n, h)
  | JStr s => (VStr s, h)
  | JArr xs =>
      let '(vs, h1) :=
        (fix elements (xs : list json) (h : heap) {struct xs} : list value * heap :=
           match xs with
           | [] => ([], h)
           | x :: xs' =>
               let '(v, h1) := alloc_json x h in
               let '(vs, h2) := elements xs' h1 in
               (v :: vs, h2)
           end) xs h in
      alloc (Obj true (index_props vs)) h1
  | JObj kvs =>
      let '(ps, h1) :=
        (fix members (kvs : list (string * json)) (h : heap) {struct kvs}
           : list (string * value) * heap :=
           match kvs with
           | [] => ([], h)
           | kx :: kvs' =>
               let '(v, h1) := alloc_json (snd kx) h in
               let '(ps, h2) := members kvs' h1 in
               ((fst kx, v) :: ps, h2)
           end) kvs h in
      alloc (Obj false (build_props ps [])) h1
  end.

Fixpoint alloc_elements (xs : list json) (h : heap) : list value * heap :=
  match xs with
  | [] => ([], h)
  | x :: xs' =>
      let '(v, h1) := alloc_json x h in
      let '(vs, h2) := alloc_elements xs' h1 in
      (v :: vs, h2)
  end.

Fixpoint alloc_members (kvs : list (string * json)) (h : heap)
  : list (string * value) * heap :=
  match kvs with
  | [] => ([], h)
  | kx :: kvs' =>
      let '(v, h1) := alloc_json (snd kx) h in
      let '(ps, h2) := alloc_members kvs' h1 in
      ((fst kx, v) :: ps, h2)
  end.

(** The tree [JSON.stringify] walks from a value: [None] is [undefined]
    (left out of an object, written [null] in an array).  [fuel] bounds
    the depth of the walk; the router gives it the number of objects in the
    heap, which is enough for every heap without a cycle, and the walk
    writes [null] where it runs out. *)
Definition reify_value (at_loc : loc → json) (v : value) : option json :=
  match v with
  | VUndef => None
  | VNull => Some JNull
  | VBool b => Some (JBool b)
  | VNum n => Some (JNum n)
  | VStr s => Some (JStr s)
  | VRef l => Some (at_loc l)
  end.

Fixpoint reify_object (fuel : nat) (h : heap) (l : loc) : json :=
  match fuel with
  | O => JNull
  | S f =>
      match h !! l with
      | None => JNull
      | Some o =>
          if is_array o then
            JArr (map (fun kv => default JNull (reify_value (reify_object f h) (snd kv)))
                    (props o))
          else
            JObj (omap (fun kv => pair (fst kv) <$> reify_value (reify_object f h) (snd kv))
                    (props o))
      end
  end.

Definition reify (fuel : nat) (h : heap) (v : value) : option json :=
  reify_value (reify_object fuel h) v.

Definition reify_props (fuel : nat) (h : heap) (ps : list (string * value))
  : list (string * json) :=
  omap (fun kv => pair (fst kv) <$> reify fuel h (snd kv)) ps.

(** [JSON.stringify(v)]: [None] when it returns [undefined]. *)
Definition JSON_stringify (h : heap) (v : value) : option string :=
  Json.print <$> reify (length h) h v.

(** [Buffer.from(x).toString('base64')]: [Buffer.from(undefined)] throws a
    [TypeError] ([None]). *)
Definition Buffer_base64 (x : option string) : option string :=
  Platform.base64 <$> x.

(** [{...v}]: the own enumerable properties of [v]. *)
Definition spread (h : heap) (v : value) : list (string * value) :=
  match v with
  | VRef l =>
      match h !! l with
      | Some o => props o
      | None => []
      end
  | VStr s =>
      index_props (map (fun c => VStr (String c EmptyString)) (String.list_ascii_of_string s))
  | VUndef | VNull | VBool _ | VNum _ => []
  end.

(** A string wrapper refuses writes to [length] and to its indices. *)
Definition string_readonly (s : string) (k : string) : bool :=
  bool_decide (k = "length")
  || existsb (fun i => bool_decide (k = pretty i)) (seq 0 (String.length s)).

Definition own (k : string) (o : object) : bool :=
  bool_decide (is_Some (assoc k (props o))).

(** Where a write of [__proto__] ends when the object has no such
    property of its own: [true] when the walk up the prototypes comes to
    [Object.prototype], whose [__proto__] is an accessor; [false] when it
    ends at a missing prototype or meets an object with a property
    [__proto__] of its own.  [fuel] bounds the walk by the size of the
    heap. *)
Fixpoint setter_above (fuel : nat) (h : heap) (l : loc) : bool :=
  match fuel with
  | O => false
  | S f =>
      match h !! l with
      | Some o =>
          if own "__proto__" o then false
          else match proto o with
               | StandardProto => true
               | NullProto => false
               | ObjectProto l' => setter_above f h l'
               end
      | None => false
      end
  end.

Definition reaches_setter (fuel : nat) (h : heap) (p : prototype) : bool :=
  match p with
  | StandardProto => true
  | NullProto => false
  | ObjectProto l => setter_above fuel h l
  end.

(** Whether object [l] is [x] or is on the chain of prototypes above [x]. *)
Fixpoint chain_from (fuel : nat) (h : heap) (x l : loc) : bool :=
  bool_decide (x = l)
  || match fuel with
     | O => false
     | S f =>
         match h !! x with
         | Some o =>
             match proto o with
             | ObjectProto x' => chain_from f h x' l
             | StandardProto | NullProto => false
             end
         | None => false
         end
     end.

Definition on_chain (fuel : nat) (h : heap) (p : prototype) (l : loc) : bool :=
  match p with
  | ObjectProto x => chain_from fuel h x l
  | StandardProto | NullProto => false
  end.

(** [target[k] = v] as [Object.assign] writes it, for the object [o] at
    [l]: the accessor [__proto__] of [Object.prototype], when the write
    reaches it, takes an object or [null] as the new prototype ([None]
    is its [TypeError] for a cycle) and drops any other value; every
    other write makes or updates an own property.  For an array this is
    exact for the keys other than [length] and the indices beyond its
    end. *)
Definition set_property (h : heap) (l : loc) (o : object) (k : string) (v : value)
  : option heap :=
  if bool_decide (k = "__proto__") && negb (own k o)
     && reaches_setter (length h) h (proto o)
  then
    match v with
    | VRef r =>
        if on_chain (length h) h (ObjectProto r) l then None
        else Some (<[l := Object (is_array o) (props o) (ObjectProto r)]> h)
    | VNull => Some (<[l := Object (is_array o) (props o) NullProto]> h)
    | VUndef | VBool _ | VNum _ | VStr _ => Some h
    end
  else Some (<[l := Object (is_array o) (prop_set k v (props o)) (proto o)]> h).

(** How a platform function ends: it returns, or it throws; the heap is
    the one it leaves. *)
Inductive completion :=
  | Normal (h : heap)
  | Abrupt (h : heap).


Fixpoint assign_props (l : loc) (src : list (string * value)) (h : heap) : completion :=
  match src with
  | [] => Normal h
  | kv :: rest =>
      match h !! l with
      | Some o =>
          match set_property h l o (fst kv) (snd kv) with
          | Some h' => assign_props l rest h'
          | None => Abrupt h
          end
      | None => Normal h
      end
  end.

(** [Object.assign(target, source)] for a source object with properties
    [src]: it throws a [TypeError] on a missing target and on a
    read-only property of a string wrapper; a primitive target is
    wrapped and the wrapper dropped. *)
Definition Object_assign (target : value) (src : list (string * value)) (h : heap)
  : completion :=
  match target with
  | VUndef | VNull => Abrupt h
  | VRef l => assign_props l src h
  | VBool _ | VNum _ => Normal h
  | VStr s =>
      if existsb (fun kv => string_readonly s (fst kv)) src then Abrupt h else Normal h
  end.

(** ** Requests and responses *)

Inductive method := GET | POST | HEAD | OPTIONS | OtherMethod.

Global Instance method_eq_dec : EqDecision method.
Proof. solve_decision. Defined.

(** A query parameter as the framework's query parser leaves it: a
    string, or an array or object for a repeated or bracketed name. *)
Inductive qvalue := QStr (s : string) | QNested.

Record request := {
  req_method : method;
  req_path : list string;             (* path segments below the mount point *)
  req_ip : string;
  req_headers : gmap string string;   (* header names in lower case *)
  req_query : gmap string qvalue;
  req_body : option json;             (* [req.body]; [None] is [undefined] *)
  clock : Z;                          (* [Date.now()] in the rate limiter *)
  clock_handler : Z;                  (* [Date.now()] in the request id *)
  iso_time : string;                  (* [new Date().toISOString()] *)
  random_tag : string                 (* [Math.random().toString(36).substr(2, 9)] *)
}.

Record response := {
  status : Z;
  res_headers : list (string * string);
  res_body : json
}.

(** What the router does with a request: send a response with a JSON
    body, send a response whose body is the given text (empty for a 304
    and for every answer to a HEAD request), let an exception escape to
    the framework's error handling, or match no route.  The headers are
    the ones that the router sets; the framework's own ([Content-Type],
    [Content-Length], an ETag it computes, ...) are left out. *)
Inductive outcome :=
  | Sent (r : response)
  | Bare (code : Z) (headers : list (string * string)) (text : string)
  | Thrown
  | Unrouted.

(** The status of an answer. *)
Definition outcome_status (o : outcome) : option Z :=
  match o with
  | Sent r => Some (status r)
  | Bare code _ _ => Some code
  | Thrown | Unrouted => None
  end.

(** A middleware either calls [next()], responds, or throws. *)
Inductive gate :=
  | Next
  | Reply (r : response)
  | Raise.

Definition json_response (code : Z) (body : list (string * json)) : response :=
  {| status := code; res_headers := []; res_body := JObj body |}.

(** ** Rate limiter entries *)

Record clientData := { count : Z; resetTime : Z }.

Definition RATE_LIMIT_WINDOW : Z := 60 * 1000.
Definition RATE_LIMIT_MAX_REQUESTS : Z := 100.

(** [Math.ceil(d / 1000)] on an integer number of milliseconds. *)
Definition ceil_seconds (d : Z) : Z := - ((- d) / 1000).

(** [req.headers[name] || dflt] *)
Definition header_or (req : request) (name dflt : string) : string :=
  match req_headers req !! name with
  | Some s => if decide (s = "") then dflt else s
  | None => dflt
  end.

Definition clientId (req : request) : string :=
  req_ip req +:+ header_or req "x-app-id" "unknown".

Definition too_many_requests (retryAfter : Z) : response :=
  json_response 429
    [("error", JStr "Too Many Requests");
     ("message", JStr "Rate limit exceeded. Please try again later.");
     ("retryAfter", JNum retryAfter)].

Definition rateLimit (req : request) (store : gmap string clientData)
  : gate * gmap string clientData :=
  let id := clientId req in
  let now := clock req in
  match store !! id with
  | None =>
      (Next, <[id := {| count := 1; resetTime := now + RATE_LIMIT_WINDOW |}]> store)
  | Some data =>
      if decide (now > resetTime data) then
        (Next, <[id := {| count := 1; resetTime := now + RATE_LIMIT_WINDOW |}]> store)
      else if decide (count data >= RATE_LIMIT_MAX_REQUESTS) then
        (Reply (too_many_requests (ceil_seconds (resetTime data - now))), store)
      else
        (Next, <[id := {| count := count data + 1; resetTime := resetTime data |}]> store)
  end.

(** ** API-key validation *)

Inductive candidate := CStr (s : string) | CNested.

Definition nonempty (o : option string) : option string :=
  match o with
  | Some s => if decide (s = "") then None else Some s
  | None => None
  end.

(** [req.headers['x-api-key'] ||
     req.headers['authorization']?.replace('Bearer ', '') ||
     req.query.apiKey]; [None] when the result is falsy. *)
Definition api_key_candidate (req : request) : option candidate :=
  match nonempty (req_headers req !! "x-api-key") with
  | Some k => Some (CStr k)
  | None =>
      match nonempty (Platform.replace "Bearer " "" <$> req_headers req !! "authorization") with
      | Some k => Some (CStr k)
      | None =>
          match req_query req !! "apiKey" with
          | Some (QStr s) => CStr <$> nonempty (Some s)
          | Some QNested => Some CNested
          | None => None
          end
      end
  end.

Definition key_required : response :=
  json_response 401
    [("error", JStr "Unauthorized");
     ("message", JStr "API key is required. Provide it in X-API-Key header, Authorization header, or apiKey query parameter.")].

Definition invalid_key : response :=
  json_response 401
    [("error", JStr "Unauthorized");
     ("message", JStr "Invalid API key provided.")].

(** [keys.includes(k)] for a string [k]: unset entries are [undefined]. *)
Definition includes (keys : list (option string)) (k : string) : bool :=
  bool_decide (Some k ∈ keys).

(** A candidate that is not a string is in no key list, and the warning
    that follows calls [substring] on it: a [TypeError].  The key that
    the middleware stores on the request is read by no handler. *)
Definition validateApiKey (keys : list (option string)) (req : request) : gate :=
  match api_key_candidate req with
  | None => Reply key_required
  | Some (CStr k) => if includes keys k then Next else Reply invalid_key
  | Some CNested => Raise
  end.

(** The advisory header check only logs. *)
Definition validateRequest (req : request) : gate := Next.

(** ** The framework: how an answer is sent

    The router runs in an Express 4 application with the default
    settings (weak ETags).  [res.json] writes the body, computes an ETag
    when the handler has set none, and turns the answer to a GET or HEAD
    request into a 304 without body when the request is conditional and
    the answer is fresh. *)

Module Express.

Definition code (c : ascii) : nat := nat_of_ascii c.

(** [parseTokenList]: the tokens between commas, without the blanks
    around them. *)
Definition token_step (str : string) (acc : nat * nat * list string) (ic : nat * ascii)
  : nat * nat * list string :=
  let '(start, stop, tokens) := acc in
  let '(i, c) := ic in
  if (code c =? 32)%nat then
    if (start =? stop)%nat then (S i, S i, tokens) else (start, stop, tokens)
  else if (code c =? 44)%nat then
    (S i, S i, tokens ++ [String.substring start (stop - start) str])
  else (start, S i, tokens).

Definition parseTokenList (str : string) : list string :=
  let '(start, stop, tokens) :=
    fold_left (token_step str) (imap pair (String.list_ascii_of_string str)) (O, O, []) in
  tokens ++ [String.substring start (stop - start) str].

(** The white space of a regular expression, among the characters of a
    header value. *)
Definition is_space (c : ascii) : bool :=
  ((9 <=? code c) && (code c <=? 13) || (code c =? 32) || (code c =? 160))%nat.

Fixpoint skip_spaces (cs : list ascii) : list ascii :=
  match cs with
  | c :: r => if is_space c then skip_spaces r else cs
  | [] => []
  end.

Definition strip_prefix (pre : string) (cs : list ascii) : option (list ascii) :=
  let ps := String.list_ascii_of_string pre in
  if decide (take (length ps) cs = ps) then Some (drop (length ps) cs) else None.

(** Blanks, [no-cache], blanks, and then a comma or the end. *)
Definition no_cache_here (cs : list ascii) : bool :=
  match strip_prefix "no-cache" (skip_spaces cs) with
  | Some rest =>
      match skip_spaces rest with
      | [] => true
      | c :: _ => (code c =? 44)%nat
      end
  | None => false
  end.

Fixpoint no_cache_from (boundary : bool) (cs : list ascii) : bool :=
  (boundary && no_cache_here cs)
  || match cs with
     | [] => false
     | c :: r => no_cache_from (code c =? 44)%nat r
     end.

(** [/(?:^|,)\s*?no-cache\s*?(?:,|$)/.test(s)] *)
Definition no_cache (s : string) : bool :=
  no_cache_from true (String.list_ascii_of_string s).

(** [req.headers[name]] when it is truthy. *)
Definition header (reqHeaders : gmap string string) (name : string) : option string :=
  match reqHeaders !! name with
  | Some s => if decide (s = "") then None else Some s
  | None => None
  end.

Definition etag_matches (etag : string) (token : string) : bool :=
  bool_decide (token = etag) || bool_decide (token = "W/" +:+ etag)
  || bool_decide ("W/" +:+ token = etag).

(** [fresh(reqHeaders, resHeaders)] for an answer with the ETag [etag]
    and without [Last-Modified], which this router never sets. *)
Definition fresh (reqHeaders : gmap string string) (etag : string) : bool :=
  let modifiedSince := header reqHeaders "if-modified-since" in
  let noneMatch := header reqHeaders "if-none-match" in
  match modifiedSince, noneMatch with
  | None, None => false                          (* unconditional request *)
  | _, _ =>
      if match header reqHeaders "cache-control" with
         | Some cacheControl => no_cache cacheControl
         | None => false
         end
      then false
      else if match noneMatch with
              | Some tokens =>
                  negb (String.eqb tokens "*")
                  && (String.eqb etag "" || negb (existsb (etag_matches etag) (parseTokenList tokens)))
              | None => false
              end
      then false                                 (* the ETag is stale *)
      else match modifiedSince with
           | Some _ => false                     (* no [Last-Modified] to compare with *)
           | None => true
           end
  end.

(** The ETag that the framework computes for a body. *)
Definition weak_etag (body : string) : string :=
  "W/" +:+ String Json.dquote
    (Platform.hex (N.of_nat (String.length body)) +:+ "-"
     +:+ Platform.substring0 27 (Platform.base64 (Platform.sha1 body))
     +:+ String Json.dquote "").

(** [res.get(name)]: header names compare without case. *)
Fixpoint res_get (name : string) (headers : list (string * string)) : option string :=
  match headers with
  | [] => None
  | (k, v) :: rest =>
      if decide (Platform.toLowerCase k = Platform.toLowerCase name) then Some v
      else res_get name rest
  end.

(** The ETag of an answer: the one the handler has set, or else the one
    computed from the body. *)
Definition etag_of (r : response) : string :=
  match res_get "ETag" (res_headers r) with
  | Some e => if decide (e = "") then weak_etag (Json.print (res_body r)) else e
  | None => weak_etag (Json.print (res_body r))
  end.

(** [req.fresh] at the time [res.json] sends [r]. *)
Definition req_fresh (req : request) (r : response) : bool :=
  match req_method req with
  | GET | HEAD =>
      if decide (200 ≤ status r < 300 ∨ status r = 304)
      then fresh (req_headers req) (etag_of r)
      else false
  | POST | OPTIONS | OtherMethod => false
  end.

(** [res.json(body)] after the handler has set the status and the
    headers of [r]. *)
Definition json (req : request) (r : response) : outcome :=
  if req_fresh req r then Bare 304 (res_headers r) "" else Sent r.

(** The answer to a HEAD request: the one to a GET, without the body. *)
Definition without_body (o : outcome) : outcome :=
  match o with
  | Sent r => Bare (status r) (res_headers r) ""
  | Bare code headers _ => Bare code headers ""
  | Thrown => Thrown
  | Unrouted => Unrouted
  end.

(** [appendMethods] *)
Definition appendMethods (known addition : list string) : list string :=
  fold_left (fun acc m => if decide (m ∈ acc) then acc else acc ++ [m]) addition known.

(** [sendOptionsResponse] *)
Definition sendOptionsResponse (options : list string) : outcome :=
  let body := Platform.join "," options in
  Bare 200 [("Allow", body)] body.

End Express.

(** ** Routes *)

Inductive route :=
  | VersionedEnvConfig   (* GET  /v:version/config/:environment *)
  | VersionedConfig      (* GET  /v:version/config *)
  | EnvConfig            (* GET  /config/:environment *)
  | Config               (* GET  /config *)
  | ConfigVersion        (* GET  /config/version *)
  | ConfigFeatures.      (* POST /config/features *)

Global Instance route_eq_dec : EqDecision route.
Proof. solve_decision. Defined.

Inductive segment :=
  | Lit (s : string)
  | Param (name : string)
  | PrefixParam (prefix name : string).

Definition route_method (r : route) : method :=
  match r with
  | ConfigFeatures => POST
  | _ => GET
  end.

Definition route_path (r : route) : list segment :=
  match r with
  | VersionedEnvConfig => [PrefixParam "v" "version"; Lit "config"; Param "environment"]
  | VersionedConfig => [PrefixParam "v" "version"; Lit "config"]
  | EnvConfig => [Lit "config"; Param "environment"]
  | Config => [Lit "config"]
  | ConfigVersion => [Lit "config"; Lit "version"]
  | ConfigFeatures => [Lit "config"; Lit "features"]
  end.

(** The routes in the order the router registers them. *)
Definition routes : list route :=
  [VersionedEnvConfig; VersionedConfig; EnvConfig; Config; ConfigVersion; ConfigFeatures].

(** One path segment against one pattern segment.  Literals compare
    without case (the router's default); a parameter takes a non-empty
    segment. *)
Definition match_segment (p : segment) (s : string) : option (list (string * string)) :=
  match p with
  | Lit l =>
      if decide (Platform.toLowerCase s = Platform.toLowerCase l) then Some [] else None
  | Param name => if decide (s = "") then None else Some [(name, s)]
  | PrefixParam pre name =>
      let n := String.length pre in
      let rest := Platform.drop_string n s in
      if decide (Platform.toLowerCase (String.substring 0 n s) = Platform.toLowerCase pre
                 ∧ rest ≠ "")
      then Some [(name, rest)] else None
  end.

Fixpoint match_path (ps : list segment) (ss : list string)
  : option (list (string * string)) :=
  match ps, ss with
  | [], [] => Some []
  | p :: ps', s :: ss' =>
      match match_segment p s, match_path ps' ss' with
      | Some a, Some b => Some (a ++ b)
      | _, _ => None
      end
  | _, _ => None
  end.

(** A route takes the requests of its own method whose path matches.
    (HEAD and OPTIONS requests are looked at in [handle].) *)
Definition route_matches (req : request) (r : route) : option (list (string * string)) :=
  if decide (req_method req = route_method r) then match_path (route_path r) (req_path req)
  else None.

(** [Route.prototype._options]: the methods of a route, with HEAD for a
    route that has GET. *)
Definition route_options (r : route) : list string :=
  match route_method r with
  | GET => ["GET"; "HEAD"]
  | POST => ["POST"]
  | HEAD => ["HEAD"]
  | OPTIONS => ["OPTIONS"]
  | OtherMethod => []
  end.

(** The methods of the routes whose path matches, each once, in the
    order of the routes. *)
Definition allowed_methods (req : request) (rs : list route) : list string :=
  fold_left (fun acc r =>
               match match_path (route_path r) (req_path req) with
               | Some _ => Express.appendMethods acc (route_options r)
               | None => acc
               end) rs [].

(** A HEAD request runs the handlers of GET. *)
Definition as_get (req : request) : request :=
  {| req_method := GET; req_path := req_path req; req_ip := req_ip req;
     req_headers := req_headers req; req_query := req_query req;
     req_body := req_body req; clock := clock req;
     clock_handler := clock_handler req; iso_time := iso_time req;
     random_tag := random_tag req |}.

(** The request that the routes see: a HEAD request runs as a GET. *)
Definition routed (req : request) : request :=
  match req_method req with
  | HEAD => as_get req
  | _ => req
  end.

(** The first registered route that matches takes the request. *)
Fixpoint first_match (req : request) (rs : list route)
  : option (route * list (string * string)) :=
  match rs with
  | [] => None
  | r :: rs' =>
      match route_matches req r with
      | Some params => Some (r, params)
      | None => first_match req rs'
      end
  end.

Definition param (k : string) (params : list (string * string)) : string :=
  default "" (assoc k params).

(** ** The server *)

Record server := {
  server_heap : heap;
  configCache : gmap string value;
  APP_CONFIG : value;
  APP_CONFIG_TEST : value;
  VALID_API_KEYS : list (option string);
  rateLimitStore : gmap string clientData
}.

(** [configCache.get(k)] *)
Definition cache_get (cache : gmap string value) (k : string) : value :=
  default VUndef (cache !! k).

(** The cache key of a version's test document. *)
Definition test_key (version : string) : string := version +:+ "_test".

Definition with_heap (st : server) (h : heap) : server :=
  {| server_heap := h; configCache := configCache st;
     APP_CONFIG := APP_CONFIG st; APP_CONFIG_TEST := APP_CONFIG_TEST st;
     VALID_API_KEYS := VALID_API_KEYS st; rateLimitStore := rateLimitStore st |}.

Definition with_store (st : server) (store : gmap string clientData) : server :=
  {| server_heap := server_heap st; configCache := configCache st;
     APP_CONFIG := APP_CONFIG st; APP_CONFIG_TEST := APP_CONFIG_TEST st;
     VALID_API_KEYS := VALID_API_KEYS st; rateLimitStore := store |}.

Section Router.

(** [JSON.parse], [None] for the [SyntaxError] it throws, and
    [process.env]. *)
Context (JSON_parse : string → option json).
Context (env : gmap string string).

(** [process.env.NAME] as a value. *)
Definition getenv (name : string) : value :=
  match env !! name with
  | Some s => VStr s
  | None => VUndef
  end.

(** [process.env.NAME || dflt] *)
Definition env_or (name dflt : string) : string :=
  match env !! name with
  | Some s => if decide (s = "") then dflt else s
  | None => dflt
  end.

(** [process.env.NAME === 'true' || dflt] *)
Definition env_flag (name : string) (dflt : bool) : bool :=
  bool_decide (env !! name = Some "true") || dflt.

(** Legacy fallback config for v1 (individual environment variables). *)
Definition getLegacyConfig (h : heap) : value * heap :=
  let '(cognito, h) :=
    alloc (Obj false [("userPoolId", getenv "USER_POOL_ID");
                      ("appClientId", getenv "APP_CLIENT_ID")]) h in
  let '(aws, h) := alloc (Obj false [("cognito", cognito)]) h in
  let '(api, h) :=
    alloc (Obj false [("websocketEndpoint", getenv "WEBSOCKET_ENDPOINT")]) h in
  let '(bot, h) :=
    alloc (Obj false [("botId", getenv "BOT_ID");
                      ("foundationModel",
                       VStr (env_or "FOUNDATION_MODEL" "claude-v3.7-sonnet"))]) h in
  let '(features, h) :=
    alloc (Obj false [("darkMode", VBool (env_flag "FEATURE_DARK_MODE" false));
                      ("analytics", VBool (env_flag "FEATURE_ANALYTICS" true));
                      ("newCheckout", VBool (env_flag "FEATURE_NEW_CHECKOUT" false))]) h in
  alloc (Obj false [("aws", aws); ("api", api); ("bot", bot);
                    ("features", features);
                    ("version", VStr (env_or "CONFIG_VERSION" "1.0.0"))]) h.

Definition envVarName (version environment : string) : string :=
  let versionSuffix := if decide (version = "") then "" else "_" +:+ version in
  let envSuffix :=
    if decide (environment = "") then "" else "_" +:+ Platform.toUpperCase environment in
  "APP_CONFIG" +:+ versionSuffix +:+ envSuffix.

(** The document read from a structured input: [None] when the input is
    unset, empty, or does not parse. *)
Definition structured_input (name : string) : option json :=
  match env !! name with
  | Some s => if decide (s = "") then None else JSON_parse s
  | None => None
  end.

(** [a || b()] where [b] may allocate. *)
Definition or_else (a : value) (b : heap → value * heap) (h : heap) : value * heap :=
  if truthy a then (a, h) else b h.

(** Generic config loader that supports any version. *)
Definition getAppConfig (version environment : string)
    (cache : gmap string value) (h : heap) : value * heap :=
  match structured_input (envVarName version environment) with
  | Some parsedConfig => alloc_json parsedConfig h
  | None =>
      (* Fallback logic *)
      if decide (environment ≠ "" ∧ version = "") then
        or_else (cache_get cache "") getLegacyConfig h
      else if decide (environment ≠ "" ∧ version ≠ "") then
        or_else (cache_get cache version)
          (or_else (cache_get cache "") getLegacyConfig) h
      else if decide (version ≠ "" ∧ environment = "") then
        or_else (cache_get cache "") getLegacyConfig h
      else getLegacyConfig h
  end.

Definition DECLARED_VERSIONS : list string := [""; "2"; "3"; "4"; "5"].

(** One round of the startup loop: the plain entry, then the test entry. *)
Definition cache_version (acc : gmap string value * heap) (version : string)
  : gmap string value * heap :=
  let '(cache, h) := acc in
  let '(config, h) := getAppConfig version "" cache h in
  let cache := <[version := config]> cache in
  let '(testConfig, h) := getAppConfig version "test" cache h in
  (<[test_key version := testConfig]> cache, h).

Definition load_versions (acc : gmap string value * heap) (versions : list string)
  : gmap string value * heap :=
  foldl cache_version acc versions.

(** The state of the module once it is loaded. *)
Definition startup : server :=
  let '(cache, h) := load_versions (∅, []) DECLARED_VERSIONS in
  {| server_heap := h;
     configCache := cache;
     APP_CONFIG := cache_get cache "";
     APP_CONFIG_TEST := cache_get cache "_test";
     VALID_API_KEYS := [env !! "API_KEY_IOS"; env !! "API_KEY_ANDROID"; env !! "API_KEY_WEB"];
     rateLimitStore := ∅ |}.

(** *** Handlers *)

Definition requestId (req : request) : string :=
  "req_" +:+ pretty (clock_handler req) +:+ "_" +:+ random_tag req.

Definition internal_error (req : request) : response :=
  json_response 500
    [("error", JStr "Internal Server Error");
     ("message", JStr "Unable to retrieve configuration");
     ("timestamp", JStr (iso_time req))].

Definition etag (b64 : string) : string :=
  String Json.dquote (b64 +:+ String Json.dquote "").

(** The body of the four document routes: the response literal
    [{...config, metadata}], the cache headers whose ETag serialises
    [config], and the [catch] branch when that throws. *)
Definition serve (req : request) (h : heap) (config : value)
    (metadata : list (string * json)) : response :=
  let body := prop_set "metadata" (JObj metadata) (reify_props (length h) h (spread h config)) in
  match Buffer_base64 (JSON_stringify h config) with
  | Some b64 =>
      {| status := 200;
         res_headers := [("Cache-Control", "public, max-age=300"); ("ETag", etag b64)];
         res_body := JObj body |}
  | None => internal_error req
  end.

Definition base_metadata (req : request) (environment : string) : list (string * json) :=
  [("timestamp", JStr (iso_time req));
   ("requestId", JStr (requestId req));
   ("serverVersion", JStr (env_or "npm_package_version" "1.0.0"));
   ("environment", JStr environment)].

Definition versioned_env_config (st : server) (req : request)
    (params : list (string * string)) : response :=
  let version := param "version" params in
  let environment := param "environment" params in
  let cacheKey := if decide (environment = "test") then test_key version else version in
  let config := cache_get (configCache st) cacheKey in
  serve req (server_heap st) config
    (base_metadata req environment ++ [("apiVersion", JStr version)]).

Definition versioned_config (st : server) (req : request)
    (params : list (string * string)) : response :=
  let version := param "version" params in
  let config := cache_get (configCache st) version in
  serve req (server_heap st) config
    (base_metadata req (env_or "NODE_ENV" "development") ++ [("apiVersion", JStr version)]).

Definition env_config (st : server) (req : request)
    (params : list (string * string)) : response :=
  let environment := param "environment" params in
  let config := if decide (environment = "test") then APP_CONFIG_TEST st else APP_CONFIG st in
  serve req (server_heap st) config (base_metadata req environment).

Definition config (st : server) (req : request) : response :=
  serve req (server_heap st) (APP_CONFIG st)
    (base_metadata req (env_or "NODE_ENV" "development")).

(** Config version endpoint (lightweight); it has no [try]. *)
Definition config_version (st : server) (req : request) : outcome :=
  let h := server_heap st in
  match get_prop h (APP_CONFIG st) "version" with
  | None => Thrown
  | Some version =>
      match Buffer_base64 (JSON_stringify h (APP_CONFIG st)) with
      | None => Thrown
      | Some b64 =>
          Express.json req
            (json_response 200
               (reify_props (length h) h [("version", version)]
                ++ [("timestamp", JStr (iso_time req));
                    ("checksum", JStr (Platform.substring0 16 b64))]))
      end
  end.

Definition forbidden : response :=
  json_response 403
    [("error", JStr "Forbidden"); ("message", JStr "Admin access required")].

Definition features_required : response :=
  json_response 400
    [("error", JStr "Bad Request"); ("message", JStr "Features object is required")].

(** The answer to a successful update: [APP_CONFIG.features] as it is
    after the merge. *)
Definition updated (req : request) (h : heap) (features : value) : response :=
  json_response 200
    (reify_props (length h) h
       [("message", VStr "Feature flags updated successfully");
        ("features", features);
        ("timestamp", VStr (iso_time req))]).

(** The properties of the object a reference points to. *)
Definition props_at (h : heap) (l : loc) : list (string * value) :=
  match h !! l with
  | Some o => props o
  | None => []
  end.

(** Admin endpoint to update feature flags.  (The answers to a POST and
    the answers with an error status are never turned into a 304.) *)
Definition config_features (st : server) (req : request) : outcome * server :=
  let adminKey := req_headers req !! "x-admin-key" in
  if decide (adminKey ≠ env !! "ADMIN_API_KEY") then (Sent forbidden, st)
  else
    match req_body req with
    | None => (Thrown, st)
    | Some payload =>
        let '(body, h1) := alloc_json payload (server_heap st) in
        let st1 := with_heap st h1 in
        match get_prop h1 body "features" with
        | None => (Thrown, st1)
        | Some (VRef src) =>
            match get_prop h1 (APP_CONFIG st) "features" with
            | None => (Thrown, st1)
            | Some target =>
                match Object_assign target (props_at h1 src) h1 with
                | Abrupt h2 => (Thrown, with_heap st h2)
                | Normal h2 => (Sent (updated req h2 target), with_heap st h2)
                end
            end
        | Some _ => (Sent features_required, st1)
        end
    end.

(** *** The router *)

Definition gate_outcome (g : gate) (k : outcome) : outcome :=
  match g with
  | Next => k
  | Reply r => Sent r
  | Raise => Thrown
  end.

(** [rateLimit, validateApiKey, validateRequest, handler] *)
Definition limited_chain (st : server) (req : request) (validate : bool)
    (handler : server → outcome) : outcome * server :=
  let '(g, store) := rateLimit req (rateLimitStore st) in
  let st' := with_store st store in
  match g with
  | Next =>
      (gate_outcome (validateApiKey (VALID_API_KEYS st) req)
         (gate_outcome (if validate then validateRequest req else Next) (handler st')),
       st')
  | Reply r => (Sent r, st')
  | Raise => (Thrown, st')
  end.

Definition run_route (st : server) (req : request) (r : route)
    (params : list (string * string)) : outcome * server :=
  match r with
  | VersionedEnvConfig =>
      limited_chain st req true
        (fun st => Express.json req (versioned_env_config st req params))
  | VersionedConfig =>
      limited_chain st req true
        (fun st => Express.json req (versioned_config st req params))
  | EnvConfig =>
      limited_chain st req true (fun st => Express.json req (env_config st req params))
  | Config =>
      limited_chain st req true (fun st => Express.json req (config st req))
  | ConfigVersion =>
      limited_chain st req false (fun st => config_version st req)
  | ConfigFeatures =>
      match validateApiKey (VALID_API_KEYS st) req with
      | Next => config_features st req
      | Reply r => (Sent r, st)
      | Raise => (Thrown, st)
      end
  end.

(** A request whose method a route has: the first route that matches
    runs its chain. *)
Definition dispatch (rs : list route) (st : server) (req : request) : outcome * server :=
  match first_match req rs with
  | Some (r, params) => run_route st req r params
  | None => (Unrouted, st)
  end.

(** The router with the routes [rs].  A HEAD request goes through the
    routes of GET and its answer is sent without the body.  An OPTIONS
    request runs no handler: the router answers it with the methods of
    the routes that match its path, and passes it on when none does.
    (In the application the [cors] middleware comes before the router and
    answers an OPTIONS request itself, with a 200 and no body.) *)
Definition route_request (rs : list route) (st : server) (req : request)
  : outcome * server :=
  match req_method req with
  | OPTIONS =>
      match allowed_methods req rs with
      | [] => (Unrouted, st)
      | m :: ms => (Express.sendOptionsResponse (m :: ms), st)
      end
  | HEAD =>
      let '(o, st') := dispatch rs st (as_get req) in (Express.without_body o, st')
  | GET | POST | OtherMethod => dispatch rs st req
  end.

Definition handle (st : server) (req : request) : outcome * server :=
  route_request routes st req.

End Router.

(** ** Traces *)

(** The rate limiter over a sequence of requests: the verdicts in order. *)
Fixpoint run_limiter (store : gmap string clientData) (reqs : list request) : list gate :=
  match reqs with
  | [] => []
  | r :: rs =>
      let '(g, store') := rateLimit r store in
      g :: run_limiter store' rs
  end.

(** How many of [reqs] are counted under the key [c] of the store. *)
Definition requests_of (c : string) (reqs : list request) : nat :=
  length (filter (fun r => clientId r = c) reqs).

(** The identity of a client: its address and the app id that it
    declares, ["unknown"] when it declares none. *)
Definition identity : Type := string * string.

Definition identity_of (req : request) : identity :=
  (req_ip req, header_or req "x-app-id" "unknown").

(** The key of an identity in the limiter's store: the two parts joined
    with nothing in between, so that two identities can have one key. *)
Definition identity_key (c : identity) : string := c.1 +:+ c.2.

(** A request is sent by the identity [c]; a request is counted with [c],
    in the entry that the store keeps under the key of [c]. *)
Definition sent_by (c : identity) (r : request) : Prop := identity_of r = c.

Definition counted_with (c : identity) (r : request) : Prop :=
  clientId r = identity_key c.

Global Instance sent_by_dec (c : identity) (r : request) : Decision (sent_by c r) :=
  decide (identity_of r = c).

Global Instance counted_with_dec (c : identity) (r : request)
  : Decision (counted_with c r) :=
  decide (clientId r = identity_key c).

(** No other identity among [reqs] has the key of [c]. *)
Definition unshared (c : identity) (reqs : list request) : Prop :=
  ∀ r, r ∈ reqs → counted_with c r → sent_by c r.

(** The router over a sequence of requests. *)
Fixpoint run (env : gmap string string) (st : server) (reqs : list request)
  : list outcome * server :=
  match reqs with
  | [] => ([], st)
  | r :: rs =>
      let '(o, st1) := handle env st r in
      let '(os, st2) := run env st1 rs in
      (o :: os, st2)
  end.

(** ** Vocabulary of the statements *)

(** The last binding of a key: what a sequence of writes leaves. *)
Definition last_assoc {A} (k : string) (ps : list (string * A)) : option A :=
  assoc k (reverse ps).

(** A request body [{features: {flag: boolean, ...}}]. *)
Definition flag_members (flags : list (string * bool)) : list (string * json) :=
  map (fun kb => (fst kb, JBool (snd kb))) flags.

Definition flag_props (flags : list (string * bool)) : list (string * value) :=
  map (fun kb => (fst kb, VBool (snd kb))) flags.

Definition flags_payload (flags : list (string * bool)) : json :=
  JObj [("features", JObj (flag_members flags))].

(** The default document has a features object, [fo] at [lf]. *)
Definition default_features (st : server) (lf : loc) (fo : object) : Prop :=
  get_prop (server_heap st) (APP_CONFIG st) "features" = Some (VRef lf)
  ∧ server_heap st !! lf = Some fo
  ∧ APP_CONFIG st ≠ VRef lf.

(** An admin update: the features route, a valid platform key, the
    admin key equal to the secret, and a body of flags. *)
Definition admin_update (env : gmap string string) (st : server) (req : request)
    (flags : list (string * bool)) : Prop :=
  req_method req = POST
  ∧ req_path req = ["config"; "features"]
  ∧ validateApiKey (VALID_API_KEYS st) req = Next
  ∧ req_headers req !! "x-admin-key" = env !! "ADMIN_API_KEY"
  ∧ req_body req = Some (flags_payload flags).

(** The cache key that a document route reads for a request. *)
Definition resolved_key (req : request) : option string :=
  match first_match req routes with
  | Some (VersionedEnvConfig, params) =>
      Some (if decide (param "environment" params = "test")
            then test_key (param "version" params) else param "version" params)
  | Some (VersionedConfig, params) => Some (param "version" params)
  | Some (EnvConfig, params) =>
      Some (if decide (param "environment" params = "test") then "_test" else "")
  | Some (Config, _) => Some ""
  | _ => None
  end.

(** A request without the headers of a conditional request. *)
Definition unconditional (req : request) : Prop :=
  Express.header (req_headers req) "if-none-match" = None
  ∧ Express.header (req_headers req) "if-modified-since" = None.

(** The legacy constants are the two default entries of the cache. *)
Definition legacy_constants (st : server) : Prop :=
  APP_CONFIG st = cache_get (configCache st) ""
  ∧ APP_CONFIG_TEST st = cache_get (configCache st) "_test".

(** A value is bounded by a heap when it does not point outside it, and
    fresh for a heap when it points to none of its objects. *)
Definition bounded (h : heap) (v : value) : Prop :=
  ∀ l : loc, v = VRef l → (l < length h)%nat.

Definition fresh (h : heap) (v : value) : Prop :=
  ∀ l : loc, v = VRef l → (length h ≤ l)%nat.

Definition cache_bounded (h : heap) (cache : gmap string value) : Prop :=
  ∀ k v, cache !! k = Some v → bounded h v.

(** ** Environments and requests of the examples *)

Definition envK : gmap string string :=
  {[ "API_KEY_IOS" := "ios-key-1"; "ADMIN_API_KEY" := "admin-secret" ]}.

Definition envNoAdmin : gmap string string :=
  {[ "API_KEY_IOS" := "ios-key-1" ]}.


(** The default has a document of its own; its test key has none. *)
Definition envOwn : gmap string string :=
  {[ "API_KEY_IOS" := "ios-key-1";
     "APP_CONFIG" := Json.text "{'version':'1.1.0','features':{'darkMode':true}}" ]}.

(** The default and its test key have the same text. *)
Definition envTwin : gmap string string :=
  {[ "APP_CONFIG" := Json.text "{'version':'1.1.0'}";
     "APP_CONFIG_TEST" := Json.text "{'version':'1.1.0'}" ]}.

Definition mk_request (m : method) (path : list string)
    (headers : list (string * string)) (body : option json) : request :=
  {| req_method := m; req_path := path; req_ip := "10.0.0.7";
     req_headers := list_to_map headers; req_query := ∅; req_body := body;
     clock := 1000; clock_handler := 1001;
     iso_time := "2025-07-15T10:30:00.000Z"; random_tag := "k3j9x0q2a" |}.

Definition get (path : list string) (headers : list (string * string)) : request :=
  mk_request GET path headers None.

Definition post_flags (admin : string) (flags : list (string * bool)) : request :=
  mk_request POST ["config"; "features"]
    [("x-api-key", "ios-key-1"); ("x-admin-key", admin)]
    (Some (flags_payload flags)).

Definition post_without_admin_key (flags : list (string * bool)) : request :=
  mk_request POST ["config"; "features"] [("x-api-key", "ios-key-1")]
    (Some (flags_payload flags)).

Definition reqA : request :=
  mk_request GET ["config"] [("x-app-id", "com.tokk.app")] None.

(** A request for the default document from address [ip] at time [now]. *)
Definition arriving (ip : string) (headers : list (string * string)) (now : Z)
  : request :=
  {| req_method := GET; req_path := ["config"]; req_ip := ip;
     req_headers := list_to_map headers; req_query := ∅; req_body := None;
     clock := now; clock_handler := now + 1;
     iso_time := "2025-07-15T10:30:00.000Z"; random_tag := "k3j9x0q2a" |}.

(** Two identities with one key: ["10.0.0.1"] with the app id
    ["2unknown"], and ["10.0.0.12"] without an app id. *)
Definition from_one (now : Z) : request :=
  arriving "10.0.0.1" [("x-app-id", "2unknown"); ("x-api-key", "ios-key-1")] now.

Definition from_twelve (now : Z) : request :=
  arriving "10.0.0.12" [("x-api-key", "ios-key-1")] now.

Definition exhausted : gmap string clientData :=
  {[ clientId reqA := {| count := 100; resetTime := 999 |} ]}.

Definition legacy_flags : object :=
  Obj false [("darkMode", VBool false); ("analytics", VBool true);
             ("newCheckout", VBool false)].

(** ** Vocabulary of the limiter's traces *)

(** The store that a sequence of requests leaves behind. *)
Fixpoint limiter_store (store : gmap string clientData) (reqs : list request)
  : gmap string clientData :=
  match reqs with
  | [] => store
  | r :: rs => limiter_store (rateLimit r store).2 rs
  end.

(** The verdicts that the requests with property [P] get, in order. *)
Fixpoint verdicts_where (P : request → Prop) `{!∀ r, Decision (P r)}
    (store : gmap string clientData) (reqs : list request) : list gate :=
  match reqs with
  | [] => []
  | r :: rs =>
      let '(g, store') := rateLimit r store in
      if decide (P r) then g :: verdicts_where P store' rs
      else verdicts_where P store' rs
  end.

(** The verdicts that the requests of the identity [c] get. *)
Definition verdicts_of (c : identity) (store : gmap string clientData)
    (reqs : list request) : list gate :=
  verdicts_where (sent_by c) store reqs.

(** ** Vocabulary of the served documents *)

(** The properties that a sequence of member writes leaves. *)
Definition jbuild (kvs : list (string * json)) : list (string * json) :=
  fold_left (fun acc kv => prop_set (fst kv) (snd kv) acc) kvs [].

(** The tree that [JSON.parse] followed by [JSON.stringify] gives back:
    the members in the order of an object's keys, a repeated key with its
    last value. *)
Fixpoint canon (j : json) : json :=
  match j with
  | JArr xs => JArr (map canon xs)
  | JObj kvs => JObj (jbuild (map (fun kv => (fst kv, canon (snd kv))) kvs))
  | _ => j
  end.

(** Nesting depth of a tree. *)
Fixpoint depth (j : json) : nat :=
  match j with
  | JArr xs => S (foldr Nat.max O (map depth xs))
  | JObj kvs => S (foldr Nat.max O (map (fun kv => depth (snd kv)) kvs))
  | _ => O
  end.

(** A history without writes: no request of it is a POST. *)
Definition read_only (history : list request) : Prop :=
  Forall (fun r => req_method r ≠ POST) history.

(** The cache key and the structured input of a version's plain or test
    document. *)
Definition entry_key (version : string) (test : bool) : string :=
  if test then test_key version else version.


(** The members of an object tree. *)
Definition jmembers (j : json) : list (string * json) :=
  match j with
  | JObj kvs => kvs
  | _ => []
  end.

(** A field that is written only when its variable is set. *)
Definition opt_field (k : string) (o : option string) : list (string * json) :=
  match o with
  | Some s => [(k, JStr s)]
  | None => []
  end.

(** The legacy document as it goes over the wire, for a model name. *)
Definition legacy_fields (env : gmap string string) (model : string)
  : list (string * json) :=
  [("aws", JObj [("cognito",
                  JObj (opt_field "userPoolId" (env !! "USER_POOL_ID")
                        ++ opt_field "appClientId" (env !! "APP_CLIENT_ID")))]);
   ("api", JObj (opt_field "websocketEndpoint" (env !! "WEBSOCKET_ENDPOINT")));
   ("bot", JObj (opt_field "botId" (env !! "BOT_ID")
                 ++ [("foundationModel", JStr model)]));
   ("features", JObj [("darkMode", JBool (bool_decide (env !! "FEATURE_DARK_MODE" = Some "true")));
                      ("analytics", JBool true);
                      ("newCheckout",
                       JBool (bool_decide (env !! "FEATURE_NEW_CHECKOUT" = Some "true")))]);
   ("version", JStr (env_or env "CONFIG_VERSION" "1.0.0"))].

Definition legacy_document (env : gmap string string) : list (string * json) :=
  legacy_fields env (env_or env "FOUNDATION_MODEL" "claude-v3.7-sonnet").

(** The [metadata] object that a document route adds for a request. *)
Definition metadata_of (env : gmap string string) (req : request) : list (string * json) :=
  match first_match req routes with
  | Some (VersionedEnvConfig, params) =>
      base_metadata env req (param "environment" params)
      ++ [("apiVersion", JStr (param "version" params))]
  | Some (VersionedConfig, params) =>
      base_metadata env req (env_or env "NODE_ENV" "development")
      ++ [("apiVersion", JStr (param "version" params))]
  | Some (EnvConfig, params) => base_metadata env req (param "environment" params)
  | Some (Config, _) => base_metadata env req (env_or env "NODE_ENV" "development")
  | _ => []
  end.

(** The answer of a document route that serves the object tree [j]. *)
Definition document_response (env : gmap string string) (req : request) (j : json)
  : response :=
  {| status := 200;
     res_headers := [("Cache-Control", "public, max-age=300");
                     ("ETag", etag (Platform.base64 (Json.print j)))];
     res_body := JObj (prop_set "metadata" (JObj (metadata_of env req)) (jmembers j)) |}.

(** ** Vocabulary of the admin route *)

(** [typeof x === 'object'] for a truthy [x]: an object or an array. *)
Definition is_object (o : option json) : bool :=
  match o with
  | Some (JObj _) | Some (JArr _) => true
  | _ => false
  end.

(** A request to the features route that passes both key checks. *)
Definition admin_request (env : gmap string string) (st : server) (req : request) : Prop :=
  req_method req = POST
  ∧ req_path req = ["config"; "features"]
  ∧ validateApiKey (VALID_API_KEYS st) req = Next
  ∧ req_headers req !! "x-admin-key" = env !! "ADMIN_API_KEY".

(** The default has a document of its own without a [features] member. *)
Definition envBare : gmap string string :=
  {[ "API_KEY_IOS" := "ios-key-1";
     "ADMIN_API_KEY" := "admin-secret";
     "APP_CONFIG" := Json.text "{'version':'3.0.0'}" ]}.

Definition post_body (body : json) : request :=
  mk_request POST ["config"; "features"]
    [("x-api-key", "ios-key-1"); ("x-admin-key", "admin-secret")] (Some body).

(** ** The earlier router ([src/unnamed/part_001])

    One document, no versions: [APP_CONFIG] is loaded once, and the
    router has the routes [/config], [/config/version] and
    [/config/features] with the middlewares and handlers that the
    current router kept.  The state is the current router's [server]
    with an empty cache and no test document, which no handler of these
    three routes reads. *)

Module V1.

Section Router.

Context (JSON_parse : string → option json).
Context (env : gmap string string).

(** Configuration data - read from environment variable as JSON. *)
Definition getAppConfig (h : heap) : value * heap :=
  match structured_input JSON_parse env "APP_CONFIG" with
  | Some parsedConfig => alloc_json parsedConfig h
  | None =>
      (* Fallback to individual environment variables *)
      let '(cognito, h) :=
        alloc (Obj false [("userPoolId", getenv env "USER_POOL_ID");
                          ("appClientId", getenv env "APP_CLIENT_ID")]) h in
      let '(aws, h) := alloc (Obj false [("cognito", cognito)]) h in
      let '(api, h) :=
        alloc (Obj false [("websocketEndpoint", getenv env "WEBSOCKET_ENDPOINT")]) h in
      let '(bot, h) :=
        alloc (Obj false [("botId", getenv env "BOT_ID");
                          ("foundationModel",
                           VStr (env_or env "FOUNDATION_MODEL" "claude-v3.5-sonnet"))]) h in
      let '(features, h) :=
        alloc (Obj false [("darkMode", VBool (env_flag env "FEATURE_DARK_MODE" false));
                          ("analytics", VBool (env_flag env "FEATURE_ANALYTICS" true));
                          ("newCheckout", VBool (env_flag env "FEATURE_NEW_CHECKOUT" false))]) h in
      alloc (Obj false [("aws", aws); ("api", api); ("bot", bot);
                        ("features", features);
                        ("version", VStr (env_or env "CONFIG_VERSION" "1.0.0"))]) h
  end.

(** Load configuration on startup. *)
Definition startup : server :=
  let '(config, h) := getAppConfig [] in
  {| server_heap := h;
     configCache := ∅;
     APP_CONFIG := config;
     APP_CONFIG_TEST := VUndef;
     VALID_API_KEYS := [env !! "API_KEY_IOS"; env !! "API_KEY_ANDROID"; env !! "API_KEY_WEB"];
     rateLimitStore := ∅ |}.

(** The routes in the order the router registers them. *)
Definition routes : list route := [Config; ConfigVersion; ConfigFeatures].

Definition handle (st : server) (req : request) : outcome * server :=
  route_request env routes st req.

End Router.

End V1.

(** The answer of the version handler for a document written as [j]. *)
Definition version_response (req : request) (j : json) : response :=
  json_response 200
    (match jfield "version" j with
     | Some v => [("version", v)]
     | None => []
     end
     ++ [("timestamp", JStr (iso_time req));
         ("checksum", JStr (Platform.substring0 16 (Platform.base64 (Json.print j))))]).

(** The six objects of a legacy document built in an empty heap, for a
    model name. *)
Definition legacy_objects (env : gmap string string) (model : string) : heap :=
  [Obj false [("userPoolId", getenv env "USER_POOL_ID");
              ("appClientId", getenv env "APP_CLIENT_ID")];
   Obj false [("cognito", VRef 0)];
   Obj false [("websocketEndpoint", getenv env "WEBSOCKET_ENDPOINT")];
   Obj false [("botId", getenv env "BOT_ID"); ("foundationModel", VStr model)];
   Obj false [("darkMode", VBool (env_flag env "FEATURE_DARK_MODE" false));
              ("analytics", VBool (env_flag env "FEATURE_ANALYTICS" true));
              ("newCheckout", VBool (env_flag env "FEATURE_NEW_CHECKOUT" false))];
   Obj false [("aws", VRef 1); ("api", VRef 2); ("bot", VRef 3); ("features", VRef 4);
              ("version", VStr (env_or env "CONFIG_VERSION" "1.0.0"))]].

(** The four identifiers of the legacy document are set, and the
    analytics flag is asked off. *)
Definition envFull : gmap string string :=
  {[ "API_KEY_IOS" := "ios-key-1";
     "USER_POOL_ID" := "us-east-1_Example";
     "APP_CLIENT_ID" := "client-1";
     "WEBSOCKET_ENDPOINT" := "wss://ws.example.com";
     "BOT_ID" := "bot-1";
     "FEATURE_ANALYTICS" := "false" ]}.

Definition req_nested : request :=
  {| req_method := GET; req_path := ["config"]; req_ip := "10.0.0.7";
     req_headers := ∅; req_query := {[ "apiKey" := QNested ]}; req_body := None;
     clock := 1000; clock_handler := 1001;
     iso_time := "2025-07-15T10:30:00.000Z"; random_tag := "k3j9x0q2a" |}.

(** ** Vocabulary of the invariants *)

(** Every entry of a limiter store counts between one request and the
    maximum. *)
Definition counts_bounded (store : gmap string clientData) : Prop :=
  ∀ c d, store !! c = Some d → 1 ≤ count d ≤ RATE_LIMIT_MAX_REQUESTS.

(** A value and the tree it is written as, in a heap and with some fuel. *)
Definition written (f : nat) (h : heap) (pv : string * value) (kj : string * json) : Prop :=
  fst pv = fst kj ∧ reify f h (snd pv) = Some (snd kj).

(** [H] holds the objects that were added to [h] to make [h']. *)
Definition holds (H h h' : heap) : Prop :=
  ∀ l o, (length h ≤ l)%nat → h' !! l = Some o → H !! l = Some o.

(** The value a tree is parsed into. *)
Definition parsed_as (j : json) (v : value) : Prop :=
  match j with
  | JNull => v = VNull
  | JBool b => v = VBool b
  | JNum n => v = VNum n
  | JStr s => v = VStr s
  | JArr _ | JObj _ => ∃ l, v = VRef l
  end.





(** A tree whose numbers JavaScript holds exactly, so that it goes
    through [JSON.parse] and [JSON.stringify] as the model has it. *)
Definition safe_integer (n : Z) : bool :=
  (- (2 ^ 53 - 1) <=? n) && (n <=? 2 ^ 53 - 1).

Fixpoint portable (j : json) : bool :=
  match j with
  | JNum n => safe_integer n
  | JArr xs => forallb portable xs
  | JObj kvs => forallb (fun kv => portable (snd kv)) kvs
  | _ => true
  end.

(** ** The iOS client ([src/unnamed/part_000])

    [ConfigurationService]: the [Codable] models with the decoding that
    the compiler derives for them, the classification of HTTP answers,
    the two requests, and the cache in [UserDefaults].  A [Data] value is
    the JSON tree it holds, [None] when the bytes are not JSON; a [Date]
    is an opaque stamp; the observers of the published properties are not
    modelled. *)

Module Client.

(** *** Configuration models *)

Record CognitoConfig := { userPoolId : string; appClientId : string }.
Record AWSConfig := { cognito : CognitoConfig }.
Record APIConfig := { websocketEndpoint : string }.
Record BotConfig := { botId : string; foundationModel : string }.
Record FeatureFlags := { darkMode : bool; analytics : bool; newCheckout : bool }.
Record ConfigMetadata := {
  timestamp : string;
  requestId : string;
  serverVersion : string;
  environment : string
}.

Record AppConfig := {
  aws : AWSConfig;
  api : APIConfig;
  bot : BotConfig;
  features : FeatureFlags;
  version : string;
  metadata : option ConfigMetadata
}.

(** [ConfigVersion]; its fields are [version], [timestamp] and
    [checksum] in the source. *)
Record ConfigVersion := {
  cv_version : string;
  cv_timestamp : string;
  cv_checksum : string
}.

(** *** Decoding *)

Inductive DecodingError :=
  | keyNotFound (key : string)
  | typeMismatch
  | valueNotFound
  | dataCorrupted.

Inductive result (E A : Type) :=
  | Ok (a : A)
  | Err (e : E).

Arguments Ok {E A} a.
Arguments Err {E A} e.

Definition bind {E A B} (r : result E A) (k : A → result E B) : result E B :=
  match r with
  | Ok a => k a
  | Err e => Err e
  end.

Notation "x ← r ; k" := (bind r (fun x => k))
  (at level 20, r at level 100, k at level 200, only parsing).

Abbreviation decoded := (result DecodingError).

(** [decoder.container(keyedBy:)] *)
Definition container (j : json) : decoded (list (string * json)) :=
  match j with
  | JObj kvs => Ok kvs
  | JNull => Err valueNotFound
  | _ => Err typeMismatch
  end.

Definition decode_String (j : json) : decoded string :=
  match j with
  | JStr s => Ok s
  | JNull => Err valueNotFound
  | _ => Err typeMismatch
  end.

Definition decode_Bool (j : json) : decoded bool :=
  match j with
  | JBool b => Ok b
  | JNull => Err valueNotFound
  | _ => Err typeMismatch
  end.

(** [container.decode(T.self, forKey: k)] *)
Definition decode_key {A} (dec : json → decoded A) (k : string)
    (kvs : list (string * json)) : decoded A :=
  match assoc k kvs with
  | Some j => dec j
  | None => Err (keyNotFound k)
  end.

(** [container.decodeIfPresent(T.self, forKey: k)] *)
Definition decode_if_present {A} (dec : json → decoded A) (k : string)
    (kvs : list (string * json)) : decoded (option A) :=
  match assoc k kvs with
  | None | Some JNull => Ok None
  | Some j => a ← dec j; Ok (Some a)
  end.

Definition decode_CognitoConfig (j : json) : decoded CognitoConfig :=
  c ← container j;
  a ← decode_key decode_String "userPoolId" c;
  b ← decode_key decode_String "appClientId" c;
  Ok {| userPoolId := a; appClientId := b |}.

Definition decode_AWSConfig (j : json) : decoded AWSConfig :=
  c ← container j;
  a ← decode_key decode_CognitoConfig "cognito" c;
  Ok {| cognito := a |}.

Definition decode_APIConfig (j : json) : decoded APIConfig :=
  c ← container j;
  a ← decode_key decode_String "websocketEndpoint" c;
  Ok {| websocketEndpoint := a |}.

Definition decode_BotConfig (j : json) : decoded BotConfig :=
  c ← container j;
  a ← decode_key decode_String "botId" c;
  b ← decode_key decode_String "foundationModel" c;
  Ok {| botId := a; foundationModel := b |}.

Definition decode_FeatureFlags (j : json) : decoded FeatureFlags :=
  c ← container j;
  a ← decode_key decode_Bool "darkMode" c;
  b ← decode_key decode_Bool "analytics" c;
  d ← decode_key decode_Bool "newCheckout" c;
  Ok {| darkMode := a; analytics := b; newCheckout := d |}.

Definition decode_ConfigMetadata (j : json) : decoded ConfigMetadata :=
  c ← container j;
  a ← decode_key decode_String "timestamp" c;
  b ← decode_key decode_String "requestId" c;
  d ← decode_key decode_String "serverVersion" c;
  e ← decode_key decode_String "environment" c;
  Ok {| timestamp := a; requestId := b; serverVersion := d; environment := e |}.

Definition decode_AppConfig (j : json) : decoded AppConfig :=
  c ← container j;
  a ← decode_key decode_AWSConfig "aws" c;
  b ← decode_key decode_APIConfig "api" c;
  d ← decode_key decode_BotConfig "bot" c;
  f ← decode_key decode_FeatureFlags "features" c;
  v ← decode_key decode_String "version" c;
  m ← decode_if_present decode_ConfigMetadata "metadata" c;
  Ok {| aws := a; api := b; bot := d; features := f; version := v; metadata := m |}.

Definition decode_ConfigVersion (j : json) : decoded ConfigVersion :=
  c ← container j;
  a ← decode_key decode_String "version" c;
  b ← decode_key decode_String "timestamp" c;
  d ← decode_key decode_String "checksum" c;
  Ok {| cv_version := a; cv_timestamp := b; cv_checksum := d |}.

(** [JSONDecoder().decode(T.self, from: data)] *)
Definition decode {A} (dec : json → decoded A) (data : option json) : decoded A :=
  match data with
  | Some j => dec j
  | None => Err dataCorrupted
  end.

(** *** Encoding ([JSONEncoder().encode]); an absent optional is left out *)

Definition encode_ConfigMetadata (m : ConfigMetadata) : json :=
  JObj [("timestamp", JStr (timestamp m)); ("requestId", JStr (requestId m));
        ("serverVersion", JStr (serverVersion m)); ("environment", JStr (environment m))].

Definition encode_AppConfig (c : AppConfig) : json :=
  JObj ([("aws", JObj [("cognito",
                        JObj [("userPoolId", JStr (userPoolId (cognito (aws c))));
                              ("appClientId", JStr (appClientId (cognito (aws c))))])]);
         ("api", JObj [("websocketEndpoint", JStr (websocketEndpoint (api c)))]);
         ("bot", JObj [("botId", JStr (botId (bot c)));
                       ("foundationModel", JStr (foundationModel (bot c)))]);
         ("features", JObj [("darkMode", JBool (darkMode (features c)));
                            ("analytics", JBool (analytics (features c)));
                            ("newCheckout", JBool (newCheckout (features c)))]);
         ("version", JStr (version c))]
        ++ match metadata c with
           | Some m => [("metadata", encode_ConfigMetadata m)]
           | None => []
           end).

(** *** Configuration errors *)

(** The errors that [networkError] wraps. *)
Inductive underlying :=
  | transportError                       (* thrown by [urlSession.data] *)
  | badServerResponse                    (* [URLError(.badServerResponse)] *)
  | decodingFailure (e : DecodingError).

Inductive ConfigError :=
  | invalidURL
  | unauthorized
  | serverError (code : Z)
  | networkError (e : underlying)
  | decodingError (e : DecodingError)
  | rateLimited (retryAfter : option Z).

(** *** HTTP answers *)

Inductive URLResponse :=
  | HTTPURLResponse (statusCode : Z) (allHeaderFields : list (string * string))
  | OtherResponse.

(** What [urlSession.data(for:)] gives: it throws, or returns the data and
    the response. *)
Inductive transfer :=
  | Thrown
  | Received (data : option json) (response : URLResponse).

(** [Int(s)]: an optional sign and decimal digits, within 64 bits. *)
Definition Int_init (s : string) : option Z :=
  let cs := String.list_ascii_of_string s in
  let '(neg, ds) :=
    match cs with
    | c :: r =>
        if (Json.code c =? 45)%nat then (true, r)
        else if (Json.code c =? 43)%nat then (false, r)
        else (false, cs)
    | [] => (false, [])
    end in
  match ds with
  | [] => None
  | _ :: _ =>
      if forallb Json.is_digit ds then
        let n := if neg then - Json.digits_value ds else Json.digits_value ds in
        if decide (- 2 ^ 63 ≤ n < 2 ^ 63) then Some n else None
      else None
  end.

(** [httpResponse.value(forHTTPHeaderField: name)]; header names compare
    without case. *)
Fixpoint header_value (name : string) (headers : list (string * string)) : option string :=
  match headers with
  | [] => None
  | (k, v) :: rest =>
      if decide (Platform.toLowerCase k = Platform.toLowerCase name) then Some v
      else header_value name rest
  end.

(** [None] when the function returns, the error it throws otherwise. *)
Definition handleHTTPResponse (response : URLResponse) : option ConfigError :=
  match response with
  | OtherResponse => Some (networkError badServerResponse)
  | HTTPURLResponse statusCode headers =>
      if decide (statusCode = 200) then None
      else if decide (statusCode = 401) then Some unauthorized
      else if decide (statusCode = 429) then
        Some (rateLimited (header_value "Retry-After" headers ≫= Int_init))
      else if decide (400 ≤ statusCode ≤ 499) then Some (serverError statusCode)
      else if decide (500 ≤ statusCode ≤ 599) then Some (serverError statusCode)
      else Some (serverError statusCode)
  end.

(** *** The request *)

(** What the app's bundle and the device tell. *)
Record device := {
  bundleIdentifier : option string;
  shortVersionString : option string;   (* [CFBundleShortVersionString] *)
  bundleVersion : option string;        (* [CFBundleVersion] *)
  systemName : string;
  systemVersion : string;
  model : string
}.

Definition optional_field (name : string) (value : option string)
  : list (string * string) :=
  match value with
  | Some v => [(name, v)]
  | None => []
  end.

(** [createBaseRequest(for:)]: the header fields that it sets.  The
    method is left at GET, and there is no body. *)
Definition createBaseRequest (apiKey : string) (d : device) : list (string * string) :=
  [("X-API-Key", apiKey)]
  ++ optional_field "X-App-Id" (bundleIdentifier d)
  ++ optional_field "X-App-Version" (shortVersionString d)
  ++ optional_field "X-Build-Number" (bundleVersion d)
  ++ [("X-Platform", "ios");
      ("Accept", "application/json");
      ("X-OS-Version", systemName d +:+ " " +:+ systemVersion d);
      ("X-Device-Model", model d)].

(** *** The two requests

    [url] tells whether [URL(string:)] accepts the address built from the
    base URL. *)

Definition performConfigurationRequest (url : bool) (t : transfer)
  : result ConfigError AppConfig :=
  if url then
    match t with
    | Thrown => Err (networkError transportError)
    | Received data response =>
        match handleHTTPResponse response with
        | Some e => Err e
        | None =>
            match decode decode_AppConfig data with
            | Ok c => Ok c
            | Err (keyNotFound k) => Err (decodingError (keyNotFound k))
            | Err typeMismatch => Err (decodingError typeMismatch)
            | Err e => Err (networkError (decodingFailure e))
            end
        end
    end
  else Err invalidURL.

(** Gets current configuration version without full config. *)
Definition fetchConfigurationVersion (url : bool) (t : transfer)
  : result ConfigError ConfigVersion :=
  if url then
    match t with
    | Thrown => Err (networkError transportError)
    | Received data response =>
        match handleHTTPResponse response with
        | Some e => Err e
        | None =>
            match decode decode_ConfigVersion data with
            | Ok v => Ok v
            | Err e => Err (networkError (decodingFailure e))
            end
        end
    end
  else Err invalidURL.

(** *** The service and its cache *)

Record UserDefaults := {
  cached_app_config : option (option json);   (* the [Data] under [configCacheKey] *)
  last_config_fetch : option Z                (* the [Date] under [lastFetchKey] *)
}.

Record service := {
  currentConfig : option AppConfig;
  isLoading : bool;
  lastUpdateTime : option Z;
  error : option ConfigError;
  userDefaults : UserDefaults
}.

Definition cacheConfiguration (config : AppConfig) (now : Z) (s : service) : service :=
  {| currentConfig := currentConfig s; isLoading := isLoading s;
     lastUpdateTime := lastUpdateTime s; error := error s;
     userDefaults := {| cached_app_config := Some (Some (encode_AppConfig config));
                        last_config_fetch := Some now |} |}.

Definition loadCachedConfiguration (s : service) : service :=
  match cached_app_config (userDefaults s) with
  | None => s
  | Some data =>
      match decode decode_AppConfig data with
      | Ok config =>
          {| currentConfig := Some config; isLoading := isLoading s;
             lastUpdateTime := last_config_fetch (userDefaults s); error := error s;
             userDefaults := userDefaults s |}
      | Err _ =>
          (* Clear corrupted cache *)
          {| currentConfig := currentConfig s; isLoading := isLoading s;
             lastUpdateTime := lastUpdateTime s; error := error s;
             userDefaults := {| cached_app_config := None; last_config_fetch := None |} |}
      end
  end.

(** [init(baseURL:apiKey:)] over the stored defaults. *)
Definition init (defaults : UserDefaults) : service :=
  loadCachedConfiguration
    {| currentConfig := None; isLoading := false; lastUpdateTime := None;
       error := None; userDefaults := defaults |}.

(** Fetches the latest configuration from the server; [now1] and [now2]
    are the two readings of the clock. *)
Definition fetchConfiguration (url : bool) (t : transfer) (now1 now2 : Z) (s : service)
  : service :=
  let s1 :=
    {| currentConfig := currentConfig s; isLoading := true;
       lastUpdateTime := lastUpdateTime s; error := None;
       userDefaults := userDefaults s |} in
  let s2 :=
    match performConfigurationRequest url t with
    | Ok config =>
        cacheConfiguration config now2
          {| currentConfig := Some config; isLoading := isLoading s1;
             lastUpdateTime := Some now1; error := error s1;
             userDefaults := userDefaults s1 |}
    | Err configError =>
        let s' :=
          {| currentConfig := currentConfig s1; isLoading := isLoading s1;
             lastUpdateTime := lastUpdateTime s1; error := Some configError;
             userDefaults := userDefaults s1 |} in
        (* Fall back to cached configuration if available *)
        match currentConfig s' with
        | None => loadCachedConfiguration s'
        | Some _ => s'
        end
    end in
  {| currentConfig := currentConfig s2; isLoading := false;
     lastUpdateTime := lastUpdateTime s2; error := error s2;
     userDefaults := userDefaults s2 |}.

(** Clear all cached configuration data. *)
Definition clearCache (s : service) : service :=
  {| currentConfig := None; isLoading := isLoading s; lastUpdateTime := None;
     error := error s;
     userDefaults := {| cached_app_config := None; last_config_fetch := None |} |}.

Inductive ConfigFeature := FDarkMode | FAnalytics | FNewCheckout.

(** Check if a specific feature is enabled. *)
Definition isFeatureEnabled (s : service) (feature : ConfigFeature) : bool :=
  match currentConfig s with
  | None => false
  | Some config =>
      match feature with
      | FDarkMode => darkMode (features config)
      | FAnalytics => analytics (features config)
      | FNewCheckout => newCheckout (features config)
      end
  end.

End Client.

(** A request of the client as the router receives it: a GET for [path]
    with the header fields of [createBaseRequest] under their lower-case
    names and whatever the URL session adds to them, but neither
    [If-None-Match] nor [If-Modified-Since]: the session is configured to
    ignore its cache ([reloadIgnoringLocalCacheData]). *)
Definition client_request (apiKey : string) (d : Client.device) (path : list string)
    (req : request) : Prop :=
  req_method req = GET
  ∧ req_path req = path
  ∧ (∀ field, field ∈ Client.createBaseRequest apiKey d →
              req_headers req !! Platform.toLowerCase (fst field) = Some (snd field))
  ∧ req_headers req !! "if-none-match" = None
  ∧ req_headers req !! "if-modified-since" = None.

Definition iphone : Client.device :=
  {| Client.bundleIdentifier := Some "com.tokk.app";
     Client.shortVersionString := Some "1.4.0";
     Client.bundleVersion := Some "42";
     Client.systemName := "iOS";
     Client.systemVersion := "17.5";
     Client.model := "iPhone" |}.

(** The request of [iphone] with the key [ios-key-1]. *)
Definition iphone_request (path : list string) : request :=
  get path
    [("x-api-key", "ios-key-1"); ("x-app-id", "com.tokk.app");
     ("x-app-version", "1.4.0"); ("x-build-number", "42"); ("x-platform", "ios");
     ("accept", "application/json"); ("x-os-version", "iOS 17.5");
     ("x-device-model", "iPhone"); ("user-agent", "Tokk/42 CFNetwork/1496 Darwin/23.5.0");
     ("accept-encoding", "gzip, deflate, br"); ("accept-language", "en-US,en;q=0.9")].

(** A response of the router as the client receives it: the status, the
    headers that the router set and the body. *)
Definition wire (r : response) : Client.transfer :=
  Client.Received (Some (res_body r)) (Client.HTTPURLResponse (status r) (res_headers r)).

Definition sample_config : Client.AppConfig :=
  {| Client.aws :=
       {| Client.cognito :=
            {| Client.userPoolId := "us-east-1_Example"; Client.appClientId := "client-1" |} |};
     Client.api := {| Client.websocketEndpoint := "wss://ws.example.com" |};
     Client.bot := {| Client.botId := "bot-1"; Client.foundationModel := "claude-v3.7-sonnet" |};
     Client.features :=
       {| Client.darkMode := false; Client.analytics := true; Client.newCheckout := false |};
     Client.version := "1.0.0";
     Client.metadata := None |}.

Definition sample_answer : Client.transfer :=
  Client.Received (Some (Client.encode_AppConfig sample_config))
    (Client.HTTPURLResponse 200 []).

Definition fresh_service : Client.service :=
  Client.init {| Client.cached_app_config := None; Client.last_config_fetch := None |}.

(** * Properties *)

(** ** Platform functions on examples *)

Example base64_Man : Platform.base64 "Man" = "TWFu".
Proof. reflexivity. Qed.

Example base64_Ma : Platform.base64 "Ma" = "TWE=".
Proof. reflexivity. Qed.

Example base64_M : Platform.base64 "M" = "TQ==".
Proof. reflexivity. Qed.

Example replace_bearer : Platform.replace "Bearer " "" "Bearer abc" = "abc".
Proof. reflexivity. Qed.

Example replace_first_only : Platform.replace "ab" "" "xabyab" = "xyab".
Proof. reflexivity. Qed.

Example upper_test : Platform.toUpperCase "test" = "TEST".
Proof. reflexivity. Qed.

Example parse_flags :
  Json.parse (Json.text "{ 'features': {'a': true, 'b':false}, 'n': [1, -20, null] }")
  = Some (JObj [("features", JObj [("a", JBool true); ("b", JBool false)]);
                ("n", JArr [JNum 1; JNum (-20); JNull])]).
Proof. vm_compute. reflexivity. Qed.

Example parse_rejects_truncated : Json.parse "{" = None.
Proof. reflexivity. Qed.

Example print_parse :
  Json.print <$> Json.parse (Json.text "{'a': [true, null], 'b': 'x'}")
  = Some (Json.text "{'a':[true,null],'b':'x'}").
Proof. vm_compute. reflexivity. Qed.

Example env_var_names :
  envVarName "" "" = "APP_CONFIG" ∧ envVarName "2" "" = "APP_CONFIG_2"
  ∧ envVarName "" "test" = "APP_CONFIG_TEST" ∧ envVarName "2" "test" = "APP_CONFIG_2_TEST".
Proof. repeat split. Qed.

(** ** Property lists *)

Lemma assoc_app {A} (k : string) (ps qs : list (string * A)) :
  assoc k (ps ++ qs) = match assoc k ps with Some v => Some v | None => assoc k qs end.
Proof.
  induction ps as [|[k1 v1] ps IH]; simpl; [done|].
  by destruct (decide (k1 = k)).
Qed.

Lemma assoc_prop_update {A} (k k' : string) (v : A) (ps : list (string * A)) :
  assoc k (prop_update k' v ps)
  = if decide (k' = k) then match assoc k ps with Some _ => Some v | None => None end
    else assoc k ps.
Proof.
  induction ps as [|[k1 v1] ps IH]; simpl.
  - by case_decide.
  - destruct (decide (k1 = k')) as [->|Hne]; simpl.
    + by destruct (decide (k' = k)).
    + rewrite IH. destruct (decide (k1 = k)) as [->|]; [|done].
      by rewrite decide_False.
Qed.

Lemma assoc_prop_insert {A} (k k' : string) (v : A) (i : N) (ps : list (string * A)) :
  assoc k' ps = None →
  assoc k (prop_insert k' v i ps) = if decide (k' = k) then Some v else assoc k ps.
Proof.
  induction ps as [|[k1 v1] ps IH]; simpl; [done|].
  destruct (decide (k1 = k')) as [->|Hne]; [done|]. intros Hk'.
  destruct (Platform.array_index k1) as [j|]; [destruct (j <? i)%N|]; simpl; try done.
  rewrite (IH Hk'). destruct (decide (k1 = k)) as [->|]; [|done].
  by rewrite decide_False.
Qed.

(** A write binds its key and leaves the other keys as they are,
    wherever it puts a new key. *)
Lemma assoc_prop_set {A} (k k' : string) (v : A) (ps : list (string * A)) :
  assoc k (prop_set k' v ps) = if decide (k' = k) then Some v else assoc k ps.
Proof.
  unfold prop_set. destruct (assoc k' ps) as [v'|] eqn:Hk'.
  - rewrite assoc_prop_update. destruct (decide (k' = k)) as [->|]; [|done].
    by rewrite Hk'.
  - destruct (Platform.array_index k') as [i|].
    + by apply assoc_prop_insert.
    + rewrite assoc_app. simpl. destruct (decide (k' = k)) as [->|].
      * by rewrite Hk'.
      * by destruct (assoc k ps).
Qed.

Lemma assoc_None {A} (k : string) (ps : list (string * A)) :
  k ∉ map fst ps → assoc k ps = None.
Proof.
  induction ps as [|[k1 v1] ps IH]; simpl; [done|].
  intros Hk. rewrite decide_False.
  - apply IH. intros Hin. apply Hk. by right.
  - intros ->. apply Hk. by left.
Qed.

Lemma assoc_key {A} (k : string) (ps : list (string * A)) (v : A) :
  assoc k ps = Some v → k ∈ map fst ps.
Proof.
  induction ps as [|[k1 v1] ps IH]; simpl; [done|].
  case_decide; [subst; by left|]. intros Hk. right. by apply IH.
Qed.

(** Folding writes into a property list: the last write to a key wins,
    and a key that is not written keeps its value. *)
Lemma assoc_build_props (k : string) (src ps : list (string * value)) :
  assoc k (build_props src ps)
  = match last_assoc k src with Some v => Some v | None => assoc k ps end.
Proof.
  unfold last_assoc, build_props. revert ps.
  induction src as [|[k1 v1] src IH]; intros ps; simpl; [done|].
  rewrite IH, reverse_cons, assoc_app, assoc_prop_set. simpl.
  destruct (assoc k (reverse src)); [done|]. by destruct (decide (k1 = k)).
Qed.

Lemma assoc_None_key {A} (k : string) (ps : list (string * A)) :
  assoc k ps = None → k ∉ map fst ps.
Proof.
  induction ps as [|[k1 v1] ps IH]; simpl; [by intros _ ?%elem_of_nil|].
  case_decide; [done|]. intros Hk [->|Hin]%elem_of_cons; [done|]. by apply IH.
Qed.

Lemma prop_update_keys {A} (k : string) (v : A) (ps : list (string * A)) :
  map fst (prop_update k v ps) = map fst ps.
Proof.
  induction ps as [|[k1 v1] ps IH]; simpl; [done|].
  destruct (decide (k1 = k)) as [->|]; simpl; [done|]. by rewrite IH.
Qed.

Lemma prop_insert_keys {A} (k : string) (v : A) (i : N) (ps : list (string * A)) :
  map fst (prop_insert k v i ps) ≡ₚ k :: map fst ps.
Proof.
  induction ps as [|[k1 v1] ps IH]; simpl; [done|].
  destruct (Platform.array_index k1) as [j|]; [destruct (j <? i)%N|]; simpl; try done.
  rewrite IH. apply Permutation_swap.
Qed.

(** The keys after a write: the same keys, or one more. *)
Lemma prop_set_keys {A} (k : string) (v : A) (ps : list (string * A)) :
  map fst (prop_set k v ps)
  ≡ₚ match assoc k ps with Some _ => map fst ps | None => k :: map fst ps end.
Proof.
  unfold prop_set. destruct (assoc k ps) as [v'|].
  - by rewrite prop_update_keys.
  - destruct (Platform.array_index k) as [i|].
    + apply prop_insert_keys.
    + rewrite map_app. simpl. by rewrite Permutation_app_comm.
Qed.

Lemma prop_set_nodup {A} (k : string) (v : A) (ps : list (string * A)) :
  NoDup (map fst ps) → NoDup (map fst (prop_set k v ps)).
Proof.
  intros Hnd. rewrite prop_set_keys. destruct (assoc k ps) as [v'|] eqn:Hk; [done|].
  apply NoDup_cons. split; [by apply assoc_None_key|done].
Qed.

Lemma build_props_nodup (src ps : list (string * value)) :
  NoDup (map fst ps) → NoDup (map fst (build_props src ps)).
Proof.
  unfold build_props. revert ps.
  induction src as [|[k v] src IH]; intros ps Hnd; simpl; [done|].
  apply IH. by apply prop_set_nodup.
Qed.

Lemma last_assoc_nodup {A} (k : string) (ps : list (string * A)) :
  NoDup (map fst ps) → last_assoc k ps = assoc k ps.
Proof.
  unfold last_assoc. induction ps as [|[k1 v1] ps IH]; simpl; [done|].
  intros [Hk1 Hnd]%NoDup_cons. rewrite reverse_cons, assoc_app, (IH Hnd). simpl.
  destruct (decide (k1 = k)) as [->|]; [|by destruct (assoc k ps)].
  by rewrite assoc_None.
Qed.

(** A property list built by writes from nothing binds each key to its
    last write. *)
Lemma last_assoc_build_props (k : string) (src : list (string * value)) :
  last_assoc k (build_props src []) = last_assoc k src.
Proof.
  rewrite last_assoc_nodup by (apply build_props_nodup; constructor).
  rewrite assoc_build_props. simpl. by destruct (last_assoc k src).
Qed.

Lemma last_assoc_fmap {A B} (f : A → B) (k : string) (ps : list (string * A)) :
  last_assoc k (map (fun kv => (fst kv, f (snd kv))) ps) = f <$> last_assoc k ps.
Proof.
  unfold last_assoc. induction ps as [|[k1 v1] ps IH]; simpl; [done|].
  rewrite !reverse_cons, !assoc_app, IH. simpl.
  destruct (assoc k (reverse ps)); simpl; [done|]. by destruct (decide (k1 = k)).
Qed.

Lemma last_assoc_cons {A} (k : string) (kv : string * A) (ps : list (string * A)) :
  last_assoc k (kv :: ps)
  = match last_assoc k ps with
    | Some v => Some v
    | None => if decide (fst kv = k) then Some (snd kv) else None
    end.
Proof.
  unfold last_assoc. rewrite reverse_cons, assoc_app. destruct kv as [k' v]. simpl.
  by destruct (assoc k (reverse ps)).
Qed.

Lemma elem_of_prop_update {A} (k : string) (v : A) (ps : list (string * A)) kv :
  kv ∈ prop_update k v ps → kv = (k, v) ∨ kv ∈ ps.
Proof.
  induction ps as [|[k' v'] ps IH]; simpl; [by right|].
  destruct (decide (k' = k)).
  - intros [->|H]%elem_of_cons; [by left|]. right. by right.
  - intros [->|H]%elem_of_cons; [right; by left|].
    destruct (IH H) as [->|?]; [by left|]. right. by right.
Qed.

Lemma elem_of_prop_insert {A} (k : string) (v : A) (i : N) (ps : list (string * A)) kv :
  kv ∈ prop_insert k v i ps → kv = (k, v) ∨ kv ∈ ps.
Proof.
  induction ps as [|[k' v'] ps IH]; simpl.
  - intros ->%list_elem_of_singleton. by left.
  - destruct (Platform.array_index k') as [j|]; [destruct (j <? i)%N|].
    + intros [->|H]%elem_of_cons; [right; by left|].
      destruct (IH H) as [->|?]; [by left|]. right. by right.
    + intros [->|H]%elem_of_cons; [by left|by right].
    + intros [->|H]%elem_of_cons; [by left|by right].
Qed.

(** A write adds nothing but its own binding. *)
Lemma elem_of_prop_set {A} (k : string) (v : A) (ps : list (string * A)) kv :
  kv ∈ prop_set k v ps → kv = (k, v) ∨ kv ∈ ps.
Proof.
  unfold prop_set. destruct (assoc k ps); [apply elem_of_prop_update|].
  destruct (Platform.array_index k); [apply elem_of_prop_insert|].
  intros [?| ->%list_elem_of_singleton]%elem_of_app; [by right|by left].
Qed.

Lemma elem_of_build_props (src ps : list (string * value)) kv :
  kv ∈ build_props src ps → kv ∈ src ∨ kv ∈ ps.
Proof.
  unfold build_props. revert ps.
  induction src as [|[k v] src IH]; intros ps; simpl; [by right|].
  intros H. destruct (IH _ H) as [?|H'].
  - left. by right.
  - apply elem_of_prop_set in H' as [->|?]; [left; by left|by right].
Qed.


Lemma string_length_app (s1 s2 : string) :
  String.length (s1 +:+ s2) = (String.length s1 + String.length s2)%nat.
Proof. induction s1 as [|c s1 IH]; simpl; [done|]. by rewrite IH. Qed.

Lemma test_key_ne (v : string) : v ≠ test_key v.
Proof.
  unfold test_key. intros H. apply (f_equal String.length) in H.
  rewrite string_length_app in H. simpl in H. lia.
Qed.

(** ** [Object.assign] *)




(** A merge of booleans: it returns, the target keeps its kind and its
    prototype, every key but [__proto__] has the value of its last
    write, and a target that has the standard prototype and no
    [__proto__] of its own gets none. *)
Lemma assign_booleans (l : loc) (src : list (string * value)) :
  Forall (fun kv => ∃ b, snd kv = VBool b) src →
  ∀ h o, h !! l = Some o →
    ∃ o', assign_props l src h = Normal (<[l := o']> h)
          ∧ is_array o' = is_array o ∧ proto o' = proto o
          ∧ (∀ k, k ≠ "__proto__" →
                  assoc k (props o')
                  = match last_assoc k src with
                    | Some v => Some v
                    | None => assoc k (props o)
                    end)
          ∧ (proto o = StandardProto → assoc "__proto__" (props o) = None →
             assoc "__proto__" (props o') = None).
Proof.
  induction src as [|[k v] src IH]; intros Hb h o Hl.
  - exists o. simpl. by rewrite list_insert_id.
  - apply Forall_cons in Hb as [[b Hv] Hb]. simpl in Hv. subst v.
    cbn [assign_props fst snd]. rewrite Hl.
    assert (Hstep : ∃ o1, set_property h l o k (VBool b) = Some (<[l := o1]> h)
              ∧ is_array o1 = is_array o ∧ proto o1 = proto o
              ∧ (∀ k', k' ≠ "__proto__" →
                       assoc k' (props o1)
                       = if decide (k = k') then Some (VBool b) else assoc k' (props o))
              ∧ (proto o = StandardProto → assoc "__proto__" (props o) = None →
                 assoc "__proto__" (props o1) = None)).
    { unfold set_property.
      destruct (bool_decide (k = "__proto__") && negb (own k o)
                && reaches_setter (length h) h (proto o)) eqn:Hc.
      - exists o. rewrite list_insert_id by done. split_and!; try done.
        intros k' Hk'. rewrite decide_False; [done|].
        apply andb_true_iff in Hc as [Hc _]. apply andb_true_iff in Hc as [Hk _].
        apply bool_decide_eq_true in Hk. by subst k.
      - eexists. split; [done|]. cbn [is_array props proto]. split_and!; try done.
        + intros k' _. apply assoc_prop_set.
        + intros Hp Hown. rewrite assoc_prop_set.
          destruct (decide (k = "__proto__")) as [->|]; [|done]. exfalso.
          rewrite Hp in Hc. unfold own in Hc. rewrite Hown in Hc.
          rewrite bool_decide_eq_true_2 in Hc by done.
          rewrite bool_decide_eq_false_2 in Hc by (by intros [? ?]). done. }
    destruct Hstep as (o1 & -> & Ha1 & Hp1 & Hk1 & Hd1).
    assert (Hl1 : <[l := o1]> h !! l = Some o1).
    { apply list_lookup_insert_eq. by eapply lookup_lt_Some. }
    destruct (IH Hb _ _ Hl1) as (o' & -> & Ha & Hp & Hk & Hd).
    exists o'. rewrite list_insert_insert_eq. split_and!.
    + done.
    + by rewrite Ha.
    + by rewrite Hp.
    + intros k' Hk'. rewrite (Hk k' Hk'), last_assoc_cons. simpl.
      destruct (last_assoc k' src); [done|]. rewrite (Hk1 k' Hk').
      by destruct (decide (k = k')).
    + intros Hs Hown. apply Hd; [by rewrite Hp1|by apply Hd1].
Qed.

(** ** Serialisation *)

Lemma reify_ref (f : nat) (h : heap) (l : loc) : is_Some (reify f h (VRef l)).
Proof. by eexists. Qed.

Lemma reify_str (f : nat) (h : heap) (s : string) : reify f h (VStr s) = Some (JStr s).
Proof. by destruct f. Qed.


Lemma reify_plain_object (f : nat) (h : heap) (l : loc) (o : object) :
  h !! l = Some o → is_array o = false →
  reify (S f) h (VRef l) = Some (JObj (reify_props f h (props o))).
Proof. intros Hl Ho. unfold reify. simpl. by rewrite Hl, Ho. Qed.

Lemma features_json (h : heap) (lf : loc) (fo : object) :
  h !! lf = Some fo → is_array fo = false →
  reify (length h) h (VRef lf)
  = Some (JObj (reify_props (pred (length h)) h (props_at h lf))).
Proof.
  intros Hfo Harr. assert (lf < length h)%nat by (by eapply lookup_lt_Some).
  destruct (length h) as [|n] eqn:Hn; [lia|].
  unfold props_at. rewrite Hfo. by apply reify_plain_object.
Qed.

Lemma updated_features req h2 lf :
  jfield "features" (res_body (updated req h2 (VRef lf)))
  = reify (length h2) h2 (VRef lf).
Proof.
  unfold updated, reify_props. cbn [omap list_omap res_body json_response fst snd].
  destruct (reify_ref (length h2) h2 lf) as [j Hj]. rewrite Hj, !reify_str.
  simpl. reflexivity.
Qed.

(** ** Allocation *)

Lemma alloc_json_obj (kvs : list (string * json)) (h : heap) :
  alloc_json (JObj kvs) h
  = let '(ps, h1) := alloc_members kvs h in alloc (Obj false (build_props ps [])) h1.
Proof. reflexivity. Qed.

Lemma alloc_json_arr (xs : list json) (h : heap) :
  alloc_json (JArr xs) h
  = let '(vs, h1) := alloc_elements xs h in alloc (Obj true (index_props vs)) h1.
Proof. reflexivity. Qed.

Lemma alloc_flag_members (flags : list (string * bool)) (h : heap) :
  alloc_members (flag_members flags) h = (flag_props flags, h).
Proof.
  induction flags as [|[k b] flags IH]; simpl; [done|]. by rewrite IH.
Qed.

Lemma alloc_flags_payload (flags : list (string * bool)) (h : heap) :
  alloc_json (flags_payload flags) h
  = (VRef (S (length h)),
     h ++ [Obj false (build_props (flag_props flags) []);
           Obj false [("features", VRef (length h))]]).
Proof.
  unfold flags_payload. rewrite alloc_json_obj.
  cbn [alloc_members fst snd]. rewrite alloc_json_obj, alloc_flag_members.
  unfold alloc. cbn. rewrite length_app. cbn.
  rewrite <- app_assoc. do 2 f_equal. f_equal. lia.
Qed.

(** Induction on JSON trees, with the hypothesis for every child. *)
Lemma json_ind' (P : json → Prop) :
  P JNull → (∀ b, P (JBool b)) → (∀ n, P (JNum n)) → (∀ s, P (JStr s)) →
  (∀ xs, Forall P xs → P (JArr xs)) →
  (∀ kvs, Forall (fun kv => P (snd kv)) kvs → P (JObj kvs)) →
  ∀ j, P j.
Proof.
  intros Hnull Hbool Hnum Hstr Harr Hobj.
  fix IH 1. intros [| b | n | s | xs | kvs].
  - exact Hnull.
  - apply Hbool.
  - apply Hnum.
  - apply Hstr.
  - apply Harr. induction xs as [|x xs IHxs]; constructor; [apply IH|exact IHxs].
  - apply Hobj. induction kvs as [|kv kvs IHkvs]; constructor; [apply IH|exact IHkvs].
Qed.

Lemma alloc_spec (o : object) (h : heap) (v : value) (h' : heap) :
  alloc o h = (v, h') →
  (length h ≤ length h')%nat ∧ bounded h' v ∧ fresh h v.
Proof.
  unfold alloc, bounded, fresh. intros [= <- <-]. rewrite length_app. simpl.
  split; [lia|]. split; intros l [= <-]; lia.
Qed.

Lemma alloc_json_spec (j : json) :
  ∀ (h : heap) (v : value) (h' : heap),
    alloc_json j h = (v, h') →
    (length h ≤ length h')%nat ∧ bounded h' v ∧ fresh h v.
Proof.
  induction j as [| b | n | s | xs IHxs | kvs IHkvs] using json_ind';
    intros h v h'.
  1-4: intros [= <- <-]; split; [lia|]; split; intros l; discriminate.
  - rewrite alloc_json_arr.
    assert (Hel : ∀ h vs h1, alloc_elements xs h = (vs, h1) → (length h ≤ length h1)%nat).
    { induction IHxs as [|x xs Hx _ IH]; intros h0 vs h1; simpl.
      - intros [= <- <-]. lia.
      - destruct (alloc_json x h0) as [v0 h2] eqn:Hv0.
        destruct (alloc_elements xs h2) as [vs' h3] eqn:Hvs.
        intros [= <- <-]. destruct (Hx _ _ _ Hv0) as [? _].
        specialize (IH _ _ _ Hvs). lia. }
    destruct (alloc_elements xs h) as [vs h1] eqn:Hvs. intros Ha.
    specialize (Hel _ _ _ Hvs). destruct (alloc_spec _ _ _ _ Ha) as (? & ? & Hf).
    split; [lia|]. split; [done|]. intros l Hl. specialize (Hf l Hl). lia.
  - rewrite alloc_json_obj.
    assert (Hel : ∀ h ps h1, alloc_members kvs h = (ps, h1) → (length h ≤ length h1)%nat).
    { induction IHkvs as [|kv kvs Hx _ IH]; intros h0 ps h1; simpl.
      - intros [= <- <-]. lia.
      - destruct (alloc_json (snd kv) h0) as [v0 h2] eqn:Hv0.
        destruct (alloc_members kvs h2) as [ps' h3] eqn:Hps.
        intros [= <- <-]. destruct (Hx _ _ _ Hv0) as [? _].
        specialize (IH _ _ _ Hps). lia. }
    destruct (alloc_members kvs h) as [ps h1] eqn:Hps. intros Ha.
    specialize (Hel _ _ _ Hps). destruct (alloc_spec _ _ _ _ Ha) as (? & ? & Hf).
    split; [lia|]. split; [done|]. intros l Hl. specialize (Hf l Hl). lia.
Qed.

Lemma bounded_mono (h h' : heap) (v : value) :
  (length h ≤ length h')%nat → bounded h v → bounded h' v.
Proof. intros Hle Hb l Hl. specialize (Hb l Hl). lia. Qed.

Lemma cache_bounded_mono (h h' : heap) (cache : gmap string value) :
  (length h ≤ length h')%nat → cache_bounded h cache → cache_bounded h' cache.
Proof. intros Hle Hb k v Hk. eapply bounded_mono; [done|]. by eapply Hb. Qed.

Lemma cache_bounded_insert (h : heap) (cache : gmap string value) k v :
  cache_bounded h cache → bounded h v → cache_bounded h (<[k := v]> cache).
Proof.
  intros Hc Hv k' v'. rewrite lookup_insert. case_decide.
  - by intros [= <-].
  - apply Hc.
Qed.

Lemma cache_get_bounded (h : heap) (cache : gmap string value) (k : string) :
  cache_bounded h cache → bounded h (cache_get cache k).
Proof.
  intros Hc. unfold cache_get. destruct (cache !! k) as [v|] eqn:Hk; simpl.
  - by eapply Hc.
  - intros l. discriminate.
Qed.

Lemma get_prop_ref (h : heap) (v : value) (k : string) (l : loc) :
  get_prop h v k = Some (VRef l) →
  ∃ ld doc, v = VRef ld ∧ h !! ld = Some doc ∧ prop_get k (props doc) = VRef l.
Proof.
  destruct v as [| | | | |ld]; simpl; try done.
  destruct (h !! ld) as [doc|] eqn:Hd; [|done].
  intros [= H]. eauto.
Qed.

(** ** The rate limiter *)

Lemma rateLimit_other (req : request) (store : gmap string clientData) (c : string) :
  clientId req ≠ c → (rateLimit req store).2 !! c = store !! c.
Proof.
  intros Hne. unfold rateLimit.
  destruct (store !! clientId req) as [d|]; simpl.
  - repeat case_decide; simpl; by rewrite ?lookup_insert_ne.
  - by rewrite lookup_insert_ne.
Qed.

Lemma rateLimit_reply (req : request) (store store' : gmap string clientData)
    (r : response) :
  rateLimit req store = (Reply r, store') → status r = 429.
Proof.
  unfold rateLimit. destruct (store !! clientId req); [|done].
  repeat case_decide; try done. by intros [= <- _].
Qed.

Lemma requests_of_cons c r rs :
  requests_of c (r :: rs)
  = ((if decide (clientId r = c) then 1 else 0) + requests_of c rs)%nat.
Proof. unfold requests_of. rewrite filter_cons. by case_decide. Qed.

(** Inside a window that client [c] already opened: the entry counts up to
    the maximum and every later request of [c] is refused. *)
Lemma limiter_in_window (c : string) (T : Z) (reqs : list request) :
  ∀ (n : Z) (store : gmap string clientData),
    store !! c = Some {| count := n; resetTime := T |} →
    (∀ r, r ∈ reqs → clientId r = c → clock r ≤ T) →
    ∀ (i : nat) (r : request),
      reqs !! i = Some r → clientId r = c →
      run_limiter store reqs !! i
      = Some (if decide (n + Z.of_nat (requests_of c (take i reqs)) < RATE_LIMIT_MAX_REQUESTS)
              then Next
              else Reply (too_many_requests (ceil_seconds (T - clock r)))).
Proof.
  induction reqs as [|r0 rs IH]; intros n store Hc Hin i r Hi Hr; [done|].
  simpl. destruct (rateLimit r0 store) as [g store'] eqn:Hrl.
  destruct i as [|i]; simpl in *.
  - injection Hi as ->. unfold requests_of; simpl. rewrite Z.add_0_r.
    unfold rateLimit in Hrl. rewrite Hr, Hc in Hrl. simpl in Hrl.
    assert (clock r ≤ T) by (apply Hin; [left|done]).
    destruct (decide (clock r > T)); [lia|].
    unfold RATE_LIMIT_MAX_REQUESTS in *.
    destruct (decide (n >= 100)); injection Hrl as <- <-; case_decide; (done || lia).
  - rewrite requests_of_cons.
    assert (Hrs : ∀ r', r' ∈ rs → clientId r' = c → clock r' ≤ T).
    { intros r' ? ?. apply Hin; [by right|done]. }
    destruct (decide (clientId r0 = c)) as [H0|H0].
    + unfold rateLimit in Hrl. rewrite H0, Hc in Hrl. simpl in Hrl.
      assert (clock r0 ≤ T) by (apply Hin; [left|done]).
      destruct (decide (clock r0 > T)); [lia|].
      unfold RATE_LIMIT_MAX_REQUESTS in *.
      destruct (decide (n >= 100)); injection Hrl as <- <-.
      * rewrite (IH n store Hc Hrs i r Hi Hr).
        unfold RATE_LIMIT_MAX_REQUESTS. repeat case_decide; (done || lia).
      * rewrite (IH (n + 1) _ (lookup_insert_eq _ _ _) Hrs i r Hi Hr).
        unfold RATE_LIMIT_MAX_REQUESTS. repeat case_decide; (done || lia).
    + assert (Hc' : store' !! c = Some {| count := n; resetTime := T |}).
      { replace store' with (rateLimit r0 store).2 by (by rewrite Hrl).
        by rewrite rateLimit_other. }
      rewrite (IH n store' Hc' Hrs i r Hi Hr). done.
Qed.

(** [ceil_seconds d] is the least number of whole seconds that covers
    [d] milliseconds. *)
Lemma ceil_seconds_spec (d : Z) :
  1000 * (ceil_seconds d - 1) < d ≤ 1000 * ceil_seconds d.
Proof. unfold ceil_seconds. Z.div_mod_to_equations. lia. Qed.

Lemma clientId_identity (r : request) : clientId r = identity_key (identity_of r).
Proof. reflexivity. Qed.

Lemma sent_by_counted (c : identity) (r : request) : sent_by c r → counted_with c r.
Proof. by intros <-. Qed.

Lemma requests_of_counted (c : identity) (reqs : list request) :
  requests_of (identity_key c) reqs = length (filter (counted_with c) reqs).
Proof. reflexivity. Qed.

(** Where no other identity has the key of [c], the requests counted with
    [c] are the requests of [c]. *)
Lemma unshared_filter (c : identity) (reqs : list request) :
  unshared c reqs → filter (counted_with c) reqs = filter (sent_by c) reqs.
Proof.
  induction reqs as [|r rs IH]; intros Hu; [done|].
  rewrite !filter_cons. rewrite IH by (intros x Hx; apply Hu; by right).
  destruct (decide (counted_with c r)) as [Hc|Hc].
  - rewrite decide_True; [done|]. apply Hu; [by left|done].
  - rewrite decide_False; [done|]. intros Hs. by apply Hc, sent_by_counted.
Qed.

Lemma unshared_take (c : identity) (reqs : list request) (i : nat) :
  unshared c reqs → unshared c (take i reqs).
Proof.
  intros Hu r Hr. apply Hu. apply elem_of_take in Hr as (j & Hj & _).
  by eapply list_elem_of_lookup_2.
Qed.

(** C3 (what the code does).  Rate limiting within one window, for the
    entry of an identity [c = (address, app id)].  The limiter keeps the
    entry under the key [address ++ app id]; the requests counted with
    [c] are those of every identity with that key.  A request of [c]
    opens a window (no entry under the key, or an expired one) at its
    time [now]; every later request counted with [c] comes before the
    window ends at [T = now + 60000].  Then the first request is let
    through, and the [k]-th request counted with [c] is let through when
    [k ≤ 100] and is answered 429 when [k > 100], with a [retryAfter]
    that is the number [n] of seconds with
    [1000 (n - 1) < T - now' ≤ 1000 n], the ceiling of
    [(T - now') / 1000], and is at most 60.  Requests under other keys
    may come in between.  Where no other identity among the requests has
    the key of [c], [k] counts the requests of [c] alone: exactly 100 of
    them pass.  Where another identity has it, its requests use up the
    100 of [c]. *)
Theorem rate_limit_window (store : gmap string clientData) (r0 : request)
    (rest : list request) :
  let c := identity_of r0 in
  let T := clock r0 + 60000 in
  let verdict (k : nat) (r : request) (g : option gate) : Prop :=
    (Z.of_nat k ≤ 100 → g = Some Next)
    ∧ (100 < Z.of_nat k →
       ∃ n : Z,
         g = Some (Reply (too_many_requests n))
         ∧ status (too_many_requests n) = 429
         ∧ jfield "retryAfter" (res_body (too_many_requests n)) = Some (JNum n)
         ∧ 1000 * (n - 1) < T - clock r ≤ 1000 * n
         ∧ 0 ≤ n ≤ 60) in
  (store !! identity_key c = None
   ∨ ∃ d, store !! identity_key c = Some d ∧ clock r0 > resetTime d) →
  (∀ r, r ∈ rest → counted_with c r → clock r0 ≤ clock r ≤ T) →
  run_limiter store (r0 :: rest) !! 0%nat = Some Next
  ∧ (∀ (i : nat) (r : request),
       rest !! i = Some r → counted_with c r →
       verdict (2 + length (filter (counted_with c) (take i rest)))%nat r
         (run_limiter store (r0 :: rest) !! S i))
  ∧ (unshared c rest →
     ∀ (i : nat) (r : request),
       rest !! i = Some r → sent_by c r →
       verdict (2 + length (filter (sent_by c) (take i rest)))%nat r
         (run_limiter store (r0 :: rest) !! S i)).
Proof.
  intros c T verdict Hopen Hwin.
  assert (Hfirst : rateLimit r0 store
            = (Next, <[identity_key c := {| count := 1; resetTime := T |}]> store)).
  { unfold rateLimit. rewrite clientId_identity. fold c.
    destruct Hopen as [->|(d & -> & Hd)]; [done|].
    simpl. by rewrite decide_True. }
  assert (Hpooled : ∀ (i : nat) (r : request),
            rest !! i = Some r → counted_with c r →
            verdict (2 + length (filter (counted_with c) (take i rest)))%nat r
              (run_limiter store (r0 :: rest) !! S i)).
  { intros i r Hi Hr. simpl. rewrite Hfirst. simpl.
    rewrite (limiter_in_window (identity_key c) T rest 1 _ (lookup_insert_eq _ _ _)
               (λ r' H1 H2, proj2 (Hwin r' H1 H2)) i r Hi Hr).
    rewrite requests_of_counted. unfold RATE_LIMIT_MAX_REQUESTS.
    assert (Hd : 0 ≤ T - clock r ≤ 60000).
    { destruct (Hwin r) as [? ?]; [|done|unfold T in *; lia].
      eapply list_elem_of_lookup_2. exact Hi. }
    pose proof (ceil_seconds_spec (T - clock r)) as Hceil.
    split; intros Hk.
    - rewrite decide_True by lia. done.
    - rewrite decide_False by lia. exists (ceil_seconds (T - clock r)).
      split_and!; [done|done|done|lia|lia|lia|lia]. }
  split; [simpl; by rewrite Hfirst|]. split; [exact Hpooled|].
  intros Hu i r Hi Hr.
  rewrite <- (unshared_filter c (take i rest) (unshared_take c rest i Hu)).
  apply Hpooled; [done|]. by apply sent_by_counted.
Qed.

(** One identity in a window that it opens at time 0: its hundredth
    request passes, its next one, 2.5 seconds into the window, is told to
    wait the 58 seconds that cover the remaining 57.5. *)
Lemma rate_limit_window_witness :
  let reqs := replicate 100 (from_one 0) ++ [from_one 2500] in
  run_limiter ∅ reqs !! 99%nat = Some Next
  ∧ run_limiter ∅ reqs !! 100%nat = Some (Reply (too_many_requests 58)).
Proof.
  intros reqs.
  assert (Hin : ∀ r, r ∈ replicate 99 (from_one 0) ++ [from_one 2500] →
                r = from_one 0 ∨ r = from_one 2500).
  { intros r [Hr%elem_of_replicate|Hr%list_elem_of_singleton]%elem_of_app;
      [left; apply Hr|by right]. }
  destruct (rate_limit_window ∅ (from_one 0)
              (replicate 99 (from_one 0) ++ [from_one 2500]))
    as (_ & _ & H).
  - left. apply lookup_empty.
  - intros r Hr _. destruct (Hin r Hr) as [-> | ->]; vm_compute; split; discriminate.
  - assert (Hu : unshared (identity_of (from_one 0))
                  (replicate 99 (from_one 0) ++ [from_one 2500])).
    { intros r Hr _. by destruct (Hin r Hr) as [-> | ->]. }
    split.
    + destruct (H Hu 98%nat (from_one 0) eq_refl eq_refl) as [H1 _].
      apply H1. vm_compute. discriminate.
    + destruct (H Hu 99%nat (from_one 2500) eq_refl eq_refl) as [_ H2].
      destruct H2 as (n & Hn & _ & _ & Hceil & _); [vm_compute; reflexivity|].
      etrans; [exact Hn|]. change (1000 * (n - 1) < 57500 ≤ 1000 * n) in Hceil.
      destruct Hceil as [Hlo Hhi].
      assert (n = 58) as -> by lia. reflexivity.
Defined.

(** Two identities with one key.  The address 10.0.0.1 with the app id
    [2unknown] and the address 10.0.0.12 without an app id are both kept
    under [10.0.0.12unknown]: after a hundred requests of the first, the
    first request of the second in that minute is answered 429. *)
Example colliding_identities_share_window :
  identity_of (from_one 0) ≠ identity_of (from_twelve 2500)
  ∧ identity_key (identity_of (from_one 0)) = identity_key (identity_of (from_twelve 2500))
  ∧ verdicts_of (identity_of (from_twelve 2500)) ∅
      (replicate 100 (from_one 0) ++ [from_twelve 2500])
    = [Reply (too_many_requests 58)]
  ∧ ∃ r, (run envK (startup Json.parse envK)
            (replicate 100 (from_one 0) ++ [from_twelve 2500])).1 !! 100%nat
         = Some (Sent r) ∧ status r = 429.
Proof.
  split; [discriminate|]. split; [reflexivity|]. split; [vm_compute; reflexivity|].
  eexists. split; [vm_compute; reflexivity|reflexivity].
Qed.

(** C4.  Reset after the window.  When a client has an entry and its
    request comes strictly after [resetTime], the request is let through
    and the entry becomes [count = 1], [resetTime = now + window],
    whatever the count was. *)
Theorem rate_limit_reset (req : request) (store : gmap string clientData)
    (d : clientData) :
  store !! clientId req = Some d →
  clock req > resetTime d →
  rateLimit req store
  = (Next, <[clientId req := {| count := 1;
                                resetTime := clock req + RATE_LIMIT_WINDOW |}]> store).
Proof. intros Hd Hlate. unfold rateLimit. rewrite Hd. by rewrite decide_True. Qed.

Lemma rate_limit_reset_witness :
  rateLimit reqA exhausted
  = (Next, <[clientId reqA := {| count := 1; resetTime := 61000 |}]> exhausted).
Proof.
  apply (rate_limit_reset reqA exhausted {| count := 100; resetTime := 999 |}).
  - reflexivity.
  - reflexivity.
Defined.

(** ** The framework *)

(** An answer is turned into a 304 only when it has a success status and
    the request is conditional. *)
Lemma json_cases (req : request) (r : response) :
  Express.json req r = Sent r
  ∨ (Express.json req r = Bare 304 (res_headers r) ""
     ∧ (200 ≤ status r < 300 ∨ status r = 304) ∧ ¬ unconditional req).
Proof.
  unfold Express.json, Express.req_fresh.
  destruct (req_method req); try (by left);
    (case_decide as Hs; [|by left]);
    (destruct (Express.fresh (req_headers req) (Express.etag_of r)) eqn:Hf; [|by left]);
    right; (split; [done|]); (split; [done|]);
    intros [H1 H2]; unfold Express.fresh in Hf; by rewrite H1, H2 in Hf.
Qed.

Lemma json_error (req : request) (r : response) :
  ¬ (200 ≤ status r < 300 ∨ status r = 304) → Express.json req r = Sent r.
Proof. intros Hs. by destruct (json_cases req r) as [?|(_ & ? & _)]. Qed.

Lemma json_unconditional (req : request) (r : response) :
  unconditional req → Express.json req r = Sent r.
Proof. intros Hu. by destruct (json_cases req r) as [?|(_ & _ & ?)]. Qed.

(** ** Routing *)

(** A string that is in none of the places of a closed list. *)
Ltac not_listed :=
  let H := fresh in
  intros H; vm_compute in H;
  repeat (apply elem_of_cons in H as [H|H]; [discriminate H|]);
  by apply elem_of_nil in H.

Lemma route_features (req : request) :
  req_method req = POST → req_path req = ["config"; "features"] →
  first_match req routes = Some (ConfigFeatures, []).
Proof.
  intros Hm Hp. unfold first_match, routes, route_matches.
  rewrite Hm, Hp. reflexivity.
Qed.

Lemma route_config_version (req : request) :
  req_method req = GET → req_path req = ["config"; "version"] →
  first_match req routes = Some (EnvConfig, [("environment", "version")]).
Proof.
  intros Hm Hp. unfold first_match, routes, route_matches.
  rewrite Hm, Hp. reflexivity.
Qed.

Lemma route_env_config (req : request) (environment : string) :
  req_method req = GET → req_path req = ["config"; environment] →
  environment ≠ "" →
  first_match req routes = Some (EnvConfig, [("environment", environment)]).
Proof.
  intros Hm Hp He. unfold first_match, routes, route_matches.
  rewrite Hm, Hp. simpl.
  destruct environment as [|b environment]; [done|]. reflexivity.
Qed.

Lemma route_versioned (req : request) (version : string) :
  req_method req = GET → req_path req = ["v" +:+ version; "config"] →
  version ≠ "" →
  first_match req routes = Some (VersionedConfig, [("version", version)]).
Proof.
  intros Hm Hp Hv. unfold first_match, routes, route_matches.
  rewrite Hm, Hp. simpl.
  destruct version as [|a version]; [done|]. reflexivity.
Qed.

Lemma route_versioned_env (req : request) (version environment : string) :
  req_method req = GET → req_path req = ["v" +:+ version; "config"; environment] →
  version ≠ "" → environment ≠ "" →
  first_match req routes
  = Some (VersionedEnvConfig, [("version", version); ("environment", environment)]).
Proof.
  intros Hm Hp Hv He. unfold first_match, routes, route_matches.
  rewrite Hm, Hp. simpl.
  destruct version as [|a version]; [done|].
  destruct environment as [|b environment]; [done|]. reflexivity.
Qed.

(** The cache keys of the document routes. *)
Lemma resolved_versioned (req : request) (version : string) :
  req_method req = GET → req_path req = ["v" +:+ version; "config"] →
  version ≠ "" →
  resolved_key req = Some version.
Proof.
  intros Hm Hp Hv. unfold resolved_key.
  by rewrite (route_versioned req version Hm Hp Hv).
Qed.

Lemma resolved_versioned_env (req : request) (version environment : string) :
  req_method req = GET → req_path req = ["v" +:+ version; "config"; environment] →
  version ≠ "" → environment ≠ "" →
  resolved_key req
  = Some (if decide (environment = "test") then test_key version else version).
Proof.
  intros Hm Hp Hv He. unfold resolved_key.
  by rewrite (route_versioned_env req version environment Hm Hp Hv He).
Qed.

Lemma resolved_env_config (req : request) (environment : string) :
  req_method req = GET → req_path req = ["config"; environment] →
  environment ≠ "" →
  resolved_key req = Some (if decide (environment = "test") then "_test" else "").
Proof.
  intros Hm Hp He. unfold resolved_key.
  by rewrite (route_env_config req environment Hm Hp He).
Qed.

(** A route takes requests of its own method only. *)
Lemma first_match_method req rs r params :
  first_match req rs = Some (r, params) → req_method req = route_method r.
Proof.
  induction rs as [|r0 rs IH]; simpl; [done|].
  unfold route_matches.
  destruct (decide (req_method req = route_method r0)) as [Hm|Hm].
  - destruct (match_path _ _); [|done]. by intros [= <- <-].
  - done.
Qed.

Lemma route_method_cases (r : route) : route_method r = GET ∨ route_method r = POST.
Proof. destruct r; auto. Qed.

(** The middlewares and the handlers do not look at the method. *)
Lemma rateLimit_as_get req store : rateLimit (as_get req) store = rateLimit req store.
Proof. reflexivity. Qed.

Lemma validateApiKey_as_get keys req :
  validateApiKey keys (as_get req) = validateApiKey keys req.
Proof. reflexivity. Qed.

(** The three ways of the router: an OPTIONS request leaves the state as
    it is; a HEAD request is the GET request without the body of the
    answer; any other request goes to its route. *)
Lemma route_request_cases env rs st req :
  (req_method req = OPTIONS ∧ (route_request env rs st req).2 = st
   ∧ ((route_request env rs st req).1 = Unrouted
      ∨ ∃ allow, (route_request env rs st req).1 = Bare 200 [("Allow", allow)] allow))
  ∨ (req_method req = HEAD
     ∧ (route_request env rs st req).1
       = Express.without_body (dispatch env rs st (as_get req)).1
     ∧ (route_request env rs st req).2 = (dispatch env rs st (as_get req)).2)
  ∨ (req_method req ≠ OPTIONS ∧ req_method req ≠ HEAD
     ∧ route_request env rs st req = dispatch env rs st req).
Proof.
  unfold route_request. destruct (req_method req) eqn:Hm.
  - right. right. done.
  - right. right. done.
  - right. left. by destruct (dispatch env rs st (as_get req)).
  - left. split; [done|]. destruct (allowed_methods req rs); simpl; [by split; [|left]|].
    split; [done|]. right. by eexists.
  - right. right. done.
Qed.

(** A request that a route takes is handled by that route. *)
Lemma route_request_routed env rs st req r params :
  first_match req rs = Some (r, params) →
  route_request env rs st req = run_route env st req r params.
Proof.
  intros Hr. pose proof (first_match_method _ _ _ _ Hr) as Hm.
  unfold route_request, dispatch. rewrite Hr.
  destruct (route_method_cases r) as [Hg|Hp]; rewrite Hm; [by rewrite Hg|by rewrite Hp].
Qed.

Lemma handle_routed env st req r params :
  first_match req routes = Some (r, params) →
  handle env st req = run_route env st req r params.
Proof. apply route_request_routed. Qed.

(** What holds of the state after every chain holds after every request. *)
Lemma route_request_state (P : server → Prop) env rs st req :
  P st → (∀ q r params, P (run_route env st q r params).2) →
  P (route_request env rs st req).2.
Proof.
  intros Hst Hrun.
  assert (Hd : ∀ q, P (dispatch env rs st q).2).
  { intros q. unfold dispatch. destruct (first_match q rs) as [[r params]|]; [|done].
    apply Hrun. }
  destruct (route_request_cases env rs st req)
    as [(_ & -> & _)|[(_ & _ & ->)|(_ & _ & ->)]]; [done|apply Hd..].
Qed.

(** The cache, the legacy constants and the key list never change. *)
Lemma run_route_preserves env st req r params :
  let st' := (run_route env st req r params).2 in
  configCache st' = configCache st
  ∧ APP_CONFIG st' = APP_CONFIG st
  ∧ APP_CONFIG_TEST st' = APP_CONFIG_TEST st
  ∧ VALID_API_KEYS st' = VALID_API_KEYS st.
Proof.
  destruct r; simpl; unfold limited_chain;
    try (destruct (rateLimit req (rateLimitStore st)) as [[]]; done).
  destruct (validateApiKey (VALID_API_KEYS st) req); try done.
  unfold config_features. case_decide; [done|].
  destruct (req_body req) as [payload|]; [|done].
  destruct (alloc_json payload (server_heap st)) as [body h1].
  destruct (get_prop h1 body "features") as [[| | | | |src]|]; try done.
  destruct (get_prop h1 (APP_CONFIG st) "features") as [target|]; [|done].
  destruct (Object_assign target (props_at h1 src) h1); done.
Qed.

Lemma handle_preserves env st req :
  let st' := (handle env st req).2 in
  configCache st' = configCache st
  ∧ APP_CONFIG st' = APP_CONFIG st
  ∧ APP_CONFIG_TEST st' = APP_CONFIG_TEST st
  ∧ VALID_API_KEYS st' = VALID_API_KEYS st.
Proof.
  apply (route_request_state
           (fun st' => configCache st' = configCache st
                       ∧ APP_CONFIG st' = APP_CONFIG st
                       ∧ APP_CONFIG_TEST st' = APP_CONFIG_TEST st
                       ∧ VALID_API_KEYS st' = VALID_API_KEYS st)); [done|].
  intros q r params. apply run_route_preserves.
Qed.

Lemma run_preserves env (reqs : list request) :
  ∀ st, let st' := (run env st reqs).2 in
        configCache st' = configCache st
        ∧ APP_CONFIG st' = APP_CONFIG st
        ∧ APP_CONFIG_TEST st' = APP_CONFIG_TEST st
        ∧ VALID_API_KEYS st' = VALID_API_KEYS st.
Proof.
  induction reqs as [|r rs IH]; intros st; simpl; [done|].
  destruct (handle env st r) as [o st1] eqn:H1.
  destruct (run env st1 rs) as [os st2] eqn:H2. simpl.
  pose proof (handle_preserves env st r) as Hp. rewrite H1 in Hp. simpl in Hp.
  pose proof (IH st1) as Hq. rewrite H2 in Hq. simpl in Hq.
  destruct Hp as (<- & <- & <- & <-). exact Hq.
Qed.

(** A limited route leaves the state as it was, with the limiter's new
    store. *)
Lemma limited_chain_state st req validate handler :
  (limited_chain st req validate handler).2
  = with_store st (rateLimit req (rateLimitStore st)).2.
Proof.
  unfold limited_chain. by destruct (rateLimit req (rateLimitStore st)) as [[] ?].
Qed.

Lemma with_store_same st : with_store st (rateLimitStore st) = st.
Proof. by destruct st. Qed.

(** The state after a route other than the features route. *)
Lemma run_route_limited env st req r params :
  r ≠ ConfigFeatures →
  (run_route env st req r params).2
  = with_store st (rateLimit req (rateLimitStore st)).2.
Proof. destruct r; intros Hr; try done; apply limited_chain_state. Qed.

(** The features route does not touch the limiter's store. *)
Lemma config_features_store env st req :
  rateLimitStore (config_features env st req).2 = rateLimitStore st.
Proof.
  unfold config_features.
  repeat first [done | case_decide | case_match]; simplify_eq; done.
Qed.

Lemma run_route_features_store env st req params :
  rateLimitStore (run_route env st req ConfigFeatures params).2 = rateLimitStore st.
Proof.
  cbn [run_route]. destruct (validateApiKey _ _); try done.
  apply config_features_store.
Qed.

Lemma dispatch_store env rs st req :
  rateLimitStore (dispatch env rs st req).2 = rateLimitStore st
  ∨ rateLimitStore (dispatch env rs st req).2 = (rateLimit req (rateLimitStore st)).2.
Proof.
  unfold dispatch. destruct (first_match req rs) as [[r params]|]; [|by left].
  destruct (decide (r = ConfigFeatures)) as [->|Hr].
  - left. apply run_route_features_store.
  - right. by rewrite run_route_limited.
Qed.

(** A request leaves the store as it was or as [rateLimit] made it. *)
Lemma handle_store env st req :
  rateLimitStore (handle env st req).2 = rateLimitStore st
  ∨ rateLimitStore (handle env st req).2 = (rateLimit req (rateLimitStore st)).2.
Proof.
  destruct (route_request_cases env routes st req)
    as [(_ & H & _)|[(_ & _ & H)|(_ & _ & H)]]; unfold handle; rewrite H.
  - by left.
  - apply (dispatch_store env routes st (as_get req)).
  - apply dispatch_store.
Qed.

(** A request other than a POST changes the limiter's store at most. *)
Lemma dispatch_read_only env rs st req :
  req_method req ≠ POST →
  (dispatch env rs st req).2 = st
  ∨ (dispatch env rs st req).2 = with_store st (rateLimit req (rateLimitStore st)).2.
Proof.
  intros Hm. unfold dispatch.
  destruct (first_match req rs) as [[r params]|] eqn:Hr; [|by left].
  right. apply run_route_limited. intros ->.
  apply first_match_method in Hr. by apply Hm.
Qed.

Lemma handle_read_only env st req :
  req_method req ≠ POST →
  (handle env st req).2 = st
  ∨ (handle env st req).2 = with_store st (rateLimit req (rateLimitStore st)).2.
Proof.
  intros Hm.
  destruct (route_request_cases env routes st req)
    as [(_ & H & _)|[(_ & _ & H)|(_ & _ & H)]]; unfold handle; rewrite H.
  - by left.
  - by apply (dispatch_read_only env routes st (as_get req)).
  - by apply dispatch_read_only.
Qed.

Lemma run_read_only env history :
  ∀ st, read_only history → server_heap (run env st history).2 = server_heap st.
Proof.
  induction history as [|r rs IH]; intros st Hro; [done|].
  apply Forall_cons in Hro as [Hr Hro]. cbn [run].
  pose proof (handle_read_only env st r Hr) as Hs.
  destruct (handle env st r) as [o st1]. simpl in Hs.
  specialize (IH st1 Hro). destruct (run env st1 rs) as [os st2]. simpl in *.
  rewrite IH. by destruct Hs as [->| ->].
Qed.

(** After reads the state is the one before them, with another store. *)
Lemma run_read_only_state env history :
  ∀ st, read_only history → ∃ store, (run env st history).2 = with_store st store.
Proof.
  induction history as [|r rs IH]; intros st Hro.
  - exists (rateLimitStore st). simpl. by rewrite with_store_same.
  - apply Forall_cons in Hro as [Hr Hro]. cbn [run].
    pose proof (handle_read_only env st r Hr) as Hs.
    destruct (handle env st r) as [o st1]. simpl in Hs.
    destruct (IH st1 Hro) as [store Hst]. destruct (run env st1 rs) as [os st2].
    simpl in *. exists store. rewrite Hst. by destruct Hs as [->| ->].
Qed.

(** ** API-key and admin-key checks *)

Lemma validateApiKey_valid keys req k :
  api_key_candidate req = Some (CStr k) → Some k ∈ keys →
  validateApiKey keys req = Next.
Proof.
  intros Hc Hk. unfold validateApiKey, includes. rewrite Hc.
  by rewrite bool_decide_eq_true_2.
Qed.

(** The admin check of the features route: it answers 403 exactly when
    the header and the secret differ. *)
Lemma config_features_forbidden_iff env st req :
  (config_features env st req).1 = Sent forbidden
  ↔ req_headers req !! "x-admin-key" ≠ env !! "ADMIN_API_KEY".
Proof.
  unfold config_features. case_decide as Hk; [done|]. split; [|done].
  intros H. exfalso.
  destruct (req_body req) as [payload|]; [|done].
  destruct (alloc_json payload (server_heap st)) as [body h1].
  destruct (get_prop h1 body "features") as [[| | | | |src]|]; try done.
  destruct (get_prop h1 (APP_CONFIG st) "features") as [target|]; [|done].
  destruct (Object_assign target (props_at h1 src) h1); [|done].
  simpl in H. by injection H.
Qed.

(** C6.  Admin-key mismatch.  A request to the features route with a
    valid platform key whose [x-admin-key] header is not equal to the
    admin secret (an absent header against a configured secret included)
    is answered 403 and leaves the server unchanged; 403 is not 401 and its
    error label [Forbidden] is not the [Unauthorized] of the two API-key
    rejections. *)
Theorem admin_key_mismatch_forbidden (env : gmap string string) (st : server)
    (req : request) (k : string) :
  req_method req = POST → req_path req = ["config"; "features"] →
  api_key_candidate req = Some (CStr k) → Some k ∈ VALID_API_KEYS st →
  req_headers req !! "x-admin-key" ≠ env !! "ADMIN_API_KEY" →
  handle env st req = (Sent forbidden, st)
  ∧ status forbidden = 403
  ∧ status forbidden ≠ status key_required
  ∧ status forbidden ≠ status invalid_key
  ∧ jfield "error" (res_body forbidden) = Some (JStr "Forbidden")
  ∧ jfield "error" (res_body key_required) = Some (JStr "Unauthorized")
  ∧ jfield "error" (res_body invalid_key) = Some (JStr "Unauthorized").
Proof.
  intros Hm Hp Hc Hk Hadmin. split; [|repeat split; done].
  rewrite (handle_routed _ _ _ _ _ (route_features req Hm Hp)). simpl.
  rewrite (validateApiKey_valid _ _ _ Hc Hk).
  unfold config_features. by rewrite decide_True.
Qed.

Lemma admin_key_mismatch_forbidden_witness :
  handle envK (startup Json.parse envK) (post_without_admin_key [("newCheckout", true)])
  = (Sent forbidden, startup Json.parse envK).
Proof.
  apply (admin_key_mismatch_forbidden envK (startup Json.parse envK)
           (post_without_admin_key [("newCheckout", true)]) "ios-key-1").
  - reflexivity.
  - reflexivity.
  - reflexivity.
  - vm_compute. apply list_elem_of_here.
  - vm_compute. discriminate.
Defined.

(** C7 (amended).  API-key rejections.  For a request that a route takes
    and that the rate limiter lets through (the features route has no
    limiter): with no key in the header, the authorization header or the
    query, the answer is the 401 "key required"; with a key string that is
    not in the valid-key list, the answer is the 401 "invalid key".  The
    two answers have the same status, the same headers and the same error
    label, and differ in the message only. *)
Theorem api_key_rejections (env : gmap string string) (st : server)
    (req : request) (r : route) (params : list (string * string)) :
  first_match req routes = Some (r, params) →
  r = ConfigFeatures ∨ (rateLimit req (rateLimitStore st)).1 = Next →
  (api_key_candidate req = None → (handle env st req).1 = Sent key_required)
  ∧ (∀ k : string,
       api_key_candidate req = Some (CStr k) → Some k ∉ VALID_API_KEYS st →
       (handle env st req).1 = Sent invalid_key)
  ∧ status key_required = 401
  ∧ status invalid_key = 401
  ∧ res_headers key_required = res_headers invalid_key
  ∧ ∃ label m1 m2 : string,
      res_body key_required = JObj [("error", JStr label); ("message", JStr m1)]
      ∧ res_body invalid_key = JObj [("error", JStr label); ("message", JStr m2)]
      ∧ m1 ≠ m2.
Proof.
  intros Hroute Hgate.
  assert (Hout : ∀ g : gate, g ≠ Next → validateApiKey (VALID_API_KEYS st) req = g →
                 (handle env st req).1 = gate_outcome g Thrown).
  { intros g Hg Hv. rewrite (handle_routed _ _ _ _ _ Hroute).
    destruct r; simpl; unfold limited_chain.
    1-5: destruct Hgate as [?|Hrl]; [done|];
         destruct (rateLimit req (rateLimitStore st)) as [g' store];
         simpl in Hrl; subst g'; rewrite Hv; by destruct g.
    rewrite Hv. by destruct g. }
  split_and!; try done.
  - intros Hnone. apply (Hout (Reply key_required)); [done|].
    unfold validateApiKey. by rewrite Hnone.
  - intros k Hk Hnot. apply (Hout (Reply invalid_key)); [done|].
    unfold validateApiKey, includes. rewrite Hk. by rewrite bool_decide_eq_false_2.
  - eexists _, _, _. split; [reflexivity|]. split; [reflexivity|]. done.
Qed.

Lemma api_key_rejections_witness :
  (handle envK (startup Json.parse envK) (get ["config"] [])).1 = Sent key_required
  ∧ (handle envK (startup Json.parse envK)
       (get ["config"] [("authorization", "Bearer wrong-key")])).1
    = Sent invalid_key.
Proof.
  split.
  - apply (api_key_rejections envK (startup Json.parse envK) (get ["config"] [])
             Config []); [reflexivity|right; reflexivity|reflexivity].
  - apply (api_key_rejections envK (startup Json.parse envK)
             (get ["config"] [("authorization", "Bearer wrong-key")]) Config []
             eq_refl (or_intror eq_refl)) with (k := "wrong-key").
    + reflexivity.
    + not_listed.
Defined.

(** A request without a key, once its client has used up the window, is
    answered by the rate limiter. *)
Lemma keyless_request_rate_limited :
  api_key_candidate (get ["config"] []) = None
  ∧ (run envK (startup Json.parse envK) (replicate 101 (get ["config"] []))).1
    = replicate 100 (Sent key_required) ++ [Sent (too_many_requests 60)]
  ∧ status (too_many_requests 60) ≠ 401.
Proof. split; [|split]; [vm_compute; reflexivity..|discriminate]. Qed.

(** ** The admin merge *)

(** The source of a merge of flags: booleans, the last one of each name. *)
Lemma flag_source_booleans (flags : list (string * bool)) :
  Forall (fun kv => ∃ b, snd kv = VBool b) (build_props (flag_props flags) []).
Proof.
  apply Forall_forall. intros kv [H|H]%elem_of_build_props; [|by apply elem_of_nil in H].
  apply list_elem_of_In, in_map_iff in H as ([k b] & <- & _). by exists b.
Qed.

Lemma flag_source_last (k : string) (flags : list (string * bool)) :
  last_assoc k (build_props (flag_props flags) []) = VBool <$> last_assoc k flags.
Proof. rewrite last_assoc_build_props. apply (last_assoc_fmap VBool). Qed.

(** An admin update of flags: the answer, and the features object [fo]
    after it. *)
Lemma admin_update_step env st req flags lf fo :
  default_features st lf fo → admin_update env st req flags →
  ∃ (h' : heap) (fo' : object),
    handle env st req = (Sent (updated req h' (VRef lf)), with_heap st h')
    ∧ h' !! lf = Some fo'
    ∧ is_array fo' = is_array fo
    ∧ proto fo' = proto fo
    ∧ (∀ k, k ≠ "__proto__" →
            assoc k (props fo')
            = match last_assoc k flags with
              | Some b => Some (VBool b)
              | None => assoc k (props fo)
              end)
    ∧ (proto fo = StandardProto → assoc "__proto__" (props fo) = None →
       assoc "__proto__" (props fo') = None)
    ∧ default_features (with_heap st h') lf fo'
    ∧ (length (server_heap st) ≤ length h')%nat
    ∧ (∀ l o, l ≠ lf → server_heap st !! l = Some o → h' !! l = Some o).
Proof.
  intros (Htgt & Hfo & Hne) (Hm & Hp & Hkey & Hadmin & Hbody).
  destruct (get_prop_ref _ _ _ _ Htgt) as (ld & doc & Hcfg & Hdoc & Hfeat).
  set (h := server_heap st) in *.
  set (h1 := h ++ [Obj false (build_props (flag_props flags) []);
                   Obj false [("features", VRef (length h))]]).
  assert (Hsrc : h1 !! length h = Some (Obj false (build_props (flag_props flags) []))).
  { unfold h1. rewrite lookup_app_r by lia. by rewrite Nat.sub_diag. }
  assert (Hbd : h1 !! S (length h) = Some (Obj false [("features", VRef (length h))])).
  { unfold h1. rewrite lookup_app_r by lia.
    by replace (S (length h) - length h)%nat with 1%nat by lia. }
  assert (Hext : ∀ l o, h !! l = Some o → h1 !! l = Some o).
  { intros l o Hl. unfold h1. by apply lookup_app_l_Some. }
  destruct (assign_booleans lf _ (flag_source_booleans flags) h1 fo (Hext _ _ Hfo))
    as (fo' & Hassign & Harr & Hproto & Hlaw & Hdrop).
  assert (Hlf : (lf < length h1)%nat) by (eapply lookup_lt_Some; by apply Hext).
  exists (<[lf := fo']> h1), fo'. split_and!.
  - rewrite (handle_routed _ _ _ _ _ (route_features req Hm Hp)). simpl. rewrite Hkey.
    unfold config_features.
    rewrite decide_False by (by intros ?). rewrite Hbody, alloc_flags_payload.
    fold h h1.
    assert (Hs : get_prop h1 (VRef (S (length h))) "features" = Some (VRef (length h))).
    { unfold get_prop. by rewrite Hbd. }
    rewrite Hs.
    assert (Ht : get_prop h1 (APP_CONFIG st) "features" = Some (VRef lf)).
    { rewrite Hcfg. unfold get_prop. rewrite (Hext _ _ Hdoc). by rewrite Hfeat. }
    rewrite Ht. unfold props_at. rewrite Hsrc. cbn [Object_assign props].
    by rewrite Hassign.
  - by apply list_lookup_insert_eq.
  - done.
  - done.
  - intros k Hk. rewrite (Hlaw k Hk), flag_source_last.
    by destruct (last_assoc k flags).
  - done.
  - split_and!; simpl.
    + rewrite Hcfg. unfold get_prop.
      rewrite list_lookup_insert_ne by (intros ->; by rewrite Hcfg in Hne).
      rewrite (Hext _ _ Hdoc). by rewrite Hfeat.
    + by apply list_lookup_insert_eq.
    + done.
  - rewrite length_insert. unfold h1. rewrite length_app. lia.
  - intros l o Hl Hlo. rewrite list_lookup_insert_ne by done. by apply Hext.
Qed.

Lemma admin_update_with_heap env st h req flags :
  admin_update env st req flags → admin_update env (with_heap st h) req flags.
Proof. done. Qed.

(** C5 (what the code does).  The admin merge is a shallow last-write-wins
    merge for every flag name but [__proto__].  From a state whose
    default document has a features object [fo] that is not an array, two
    admin updates with flags [flags1] and then [flags2] both answer 200;
    after the first each key other than [__proto__] holds the value
    [flags1] gives it, else the value it had in [fo]; after the second it
    holds the value of [flags2], else that of [flags1], else that of
    [fo]; and each response carries in [features] the whole features
    object as it is after its merge.  A flag named [__proto__] is not
    stored: when [fo] has the standard prototype and no such property,
    it has none after the two updates either, whatever the flags were. *)
Theorem admin_merge_last_write_wins (env : gmap string string) (st : server)
    (req1 req2 : request) (flags1 flags2 : list (string * bool))
    (lf : loc) (fo : object) :
  default_features st lf fo → is_array fo = false →
  admin_update env st req1 flags1 → admin_update env st req2 flags2 →
  ∃ (r1 : response) (st1 : server) (r2 : response) (st2 : server),
    handle env st req1 = (Sent r1, st1)
    ∧ handle env st1 req2 = (Sent r2, st2)
    ∧ status r1 = 200 ∧ status r2 = 200
    ∧ (∀ k, k ≠ "__proto__" →
            assoc k (props_at (server_heap st1) lf)
            = match last_assoc k flags1 with
              | Some b => Some (VBool b)
              | None => assoc k (props fo)
              end)
    ∧ (∀ k, k ≠ "__proto__" →
            assoc k (props_at (server_heap st2) lf)
            = match last_assoc k flags2 with
              | Some b => Some (VBool b)
              | None =>
                  match last_assoc k flags1 with
                  | Some b => Some (VBool b)
                  | None => assoc k (props fo)
                  end
              end)
    ∧ jfield "features" (res_body r1)
      = Some (JObj (reify_props (pred (length (server_heap st1))) (server_heap st1)
                      (props_at (server_heap st1) lf)))
    ∧ jfield "features" (res_body r2)
      = Some (JObj (reify_props (pred (length (server_heap st2))) (server_heap st2)
                      (props_at (server_heap st2) lf)))
    ∧ (proto fo = StandardProto → assoc "__proto__" (props fo) = None →
       assoc "__proto__" (props_at (server_heap st1) lf) = None
       ∧ assoc "__proto__" (props_at (server_heap st2) lf) = None).
Proof.
  intros Hdf Harr Hu1 Hu2.
  destruct (admin_update_step env st req1 flags1 lf fo Hdf Hu1)
    as (h1 & fo1 & Hh1 & Hlf1 & Harr1 & Hp1 & Hlaw1 & Hdrop1 & Hdf1 & _ & _).
  destruct (admin_update_step env (with_heap st h1) req2 flags2 lf _ Hdf1
              (admin_update_with_heap _ _ _ _ _ Hu2))
    as (h2 & fo2 & Hh2 & Hlf2 & Harr2 & Hp2 & Hlaw2 & Hdrop2 & _ & _ & _).
  eexists _, _, _, _. split; [exact Hh1|]. split; [exact Hh2|].
  split; [done|]. split; [done|]. cbn [server_heap with_heap]. split_and!.
  - intros k Hk. unfold props_at. rewrite Hlf1. by apply Hlaw1.
  - intros k Hk. unfold props_at. rewrite Hlf2, (Hlaw2 k Hk), (Hlaw1 k Hk). done.
  - rewrite updated_features. apply (features_json _ _ _ Hlf1). by rewrite Harr1.
  - rewrite updated_features. apply (features_json _ _ _ Hlf2). by rewrite Harr2, Harr1.
  - intros Hs Hown. unfold props_at. rewrite Hlf1, Hlf2.
    split; [by apply Hdrop1|]. apply Hdrop2; [by rewrite Hp1|by apply Hdrop1].
Qed.

(** A flag named [__proto__] sent with a flag [a]: [a] is stored,
    [__proto__] is not, and the answer does not show it. *)
Lemma admin_merge_last_write_wins_witness :
  let st0 := startup Json.parse envK in
  let req1 := post_flags "admin-secret" [("__proto__", true); ("a", true)] in
  let st1 := (handle envK st0 req1).2 in
  let st2 := (handle envK st1 (post_flags "admin-secret" [("b", false)])).2 in
  last_assoc "__proto__" [("__proto__", true); ("a", true)] = Some true
  ∧ assoc "__proto__" (props_at (server_heap st1) 4) = None
  ∧ assoc "a" (props_at (server_heap st2) 4) = Some (VBool true)
  ∧ assoc "b" (props_at (server_heap st2) 4) = Some (VBool false)
  ∧ assoc "analytics" (props_at (server_heap st2) 4) = Some (VBool true).
Proof.
  intros st0 req1 st1 st2.
  assert (Hdf : default_features st0 4 legacy_flags).
  { split; [reflexivity|]. split; [reflexivity|]. vm_compute. discriminate. }
  assert (Hu : ∀ flags, admin_update envK st0 (post_flags "admin-secret" flags) flags).
  { intros flags. repeat split. }
  destruct (admin_merge_last_write_wins envK st0 _ _ _ _ 4 _ Hdf eq_refl
              (Hu [("__proto__", true); ("a", true)]) (Hu [("b", false)]))
    as (r1 & s1 & r2 & s2 & H1 & H2 & _ & _ & _ & Hlaw & _ & _ & Hdrop).
  unfold st2, st1, req1. rewrite H1. cbn [snd]. rewrite H2. cbn [snd].
  split; [reflexivity|]. split; [by apply Hdrop|].
  rewrite !Hlaw by discriminate. repeat split.
Defined.

(** The same merge at the level of the answer. *)
Example admin_merge_drops_proto_flag :
  (handle envK (startup Json.parse envK)
     (post_flags "admin-secret" [("__proto__", true); ("a", true)])).1
  = Sent (json_response 200
            [("message", JStr "Feature flags updated successfully");
             ("features", JObj [("darkMode", JBool false); ("analytics", JBool true);
                                ("newCheckout", JBool false); ("a", JBool true)]);
             ("timestamp", JStr "2025-07-15T10:30:00.000Z")]).
Proof. vm_compute. reflexivity. Qed.

(** The same key written twice: the later request wins. *)
Example admin_merge_same_key :
  let st0 := startup Json.parse envK in
  let st1 := (handle envK st0 (post_flags "admin-secret" [("a", true)])).2 in
  (handle envK st1 (post_flags "admin-secret" [("a", false)])).1
  = Sent (json_response 200
            [("message", JStr "Feature flags updated successfully");
             ("features", JObj [("darkMode", JBool false); ("analytics", JBool true);
                                ("newCheckout", JBool false); ("a", JBool false)]);
             ("timestamp", JStr "2025-07-15T10:30:00.000Z")]).
Proof. vm_compute. reflexivity. Qed.

(** A nested value is replaced as a whole, not merged into. *)
Example admin_merge_is_shallow :
  let body1 := JObj [("features", JObj [("ui", JObj [("dark", JBool true)])])] in
  let body2 := JObj [("features", JObj [("ui", JObj [("compact", JBool false)])])] in
  let post body :=
    mk_request POST ["config"; "features"]
      [("x-api-key", "ios-key-1"); ("x-admin-key", "admin-secret")] (Some body) in
  let st1 := (handle envK (startup Json.parse envK) (post body1)).2 in
  (∃ r, (handle envK (startup Json.parse envK) (post body1)).1 = Sent r
        ∧ jfield "features" (res_body r) ≫= jfield "ui"
          = Some (JObj [("dark", JBool true)]))
  ∧ (∃ r, (handle envK st1 (post body2)).1 = Sent r
          ∧ jfield "features" (res_body r) ≫= jfield "ui"
            = Some (JObj [("compact", JBool false)])).
Proof. split; eexists; split; vm_compute; reflexivity. Qed.

(** Flags whose names are array indices come first in the answer, in
    ascending order, whatever the order of the request. *)
Example admin_merge_index_names :
  (handle envK (startup Json.parse envK)
     (post_flags "admin-secret" [("b", true); ("10", true); ("9", false)])).1
  = Sent (json_response 200
            [("message", JStr "Feature flags updated successfully");
             ("features", JObj [("9", JBool false); ("10", JBool true);
                                ("darkMode", JBool false); ("analytics", JBool true);
                                ("newCheckout", JBool false); ("b", JBool true)]);
             ("timestamp", JStr "2025-07-15T10:30:00.000Z")]).
Proof. vm_compute. reflexivity. Qed.

(** C10.  Unset admin secret.  On the features route with a valid
    platform key, the answer is the 403 exactly when the [x-admin-key]
    header differs from [ADMIN_API_KEY]; when both are absent the check
    passes, and a body of flags is merged into the default document's
    features object with a 200: every flag but one named [__proto__] has
    its value in that object afterwards. *)
Theorem unset_admin_secret_passes (env : gmap string string) (st : server)
    (req : request) :
  req_method req = POST → req_path req = ["config"; "features"] →
  validateApiKey (VALID_API_KEYS st) req = Next →
  ((handle env st req).1 = Sent forbidden
   ↔ req_headers req !! "x-admin-key" ≠ env !! "ADMIN_API_KEY")
  ∧ (env !! "ADMIN_API_KEY" = None → req_headers req !! "x-admin-key" = None →
     (handle env st req).1 ≠ Sent forbidden
     ∧ ∀ (flags : list (string * bool)) (lf : loc) (fo : object),
         req_body req = Some (flags_payload flags) →
         default_features st lf fo → is_array fo = false →
         ∃ (r : response) (st' : server),
           handle env st req = (Sent r, st')
           ∧ status r = 200
           ∧ r = updated req (server_heap st') (VRef lf)
           ∧ ∀ (k : string) (b : bool),
               k ≠ "__proto__" → last_assoc k flags = Some b →
               assoc k (props_at (server_heap st') lf) = Some (VBool b)).
Proof.
  intros Hm Hp Hkey.
  assert (Hh : handle env st req = config_features env st req).
  { rewrite (handle_routed _ _ _ _ _ (route_features req Hm Hp)). simpl. by rewrite Hkey. }
  split.
  - rewrite Hh. apply config_features_forbidden_iff.
  - intros Henv Hhdr. split.
    + rewrite Hh, config_features_forbidden_iff. rewrite Henv, Hhdr. by intros ?.
    + intros flags lf fo Hbody Hdf _.
      destruct (admin_update_step env st req flags lf fo Hdf)
        as (h' & fo' & H1 & H2 & _ & _ & Hlaw & _).
      { repeat split; try done. by rewrite Henv, Hhdr. }
      exists (updated req h' (VRef lf)), (with_heap st h').
      split; [done|]. split; [done|]. split; [done|].
      intros k b Hk Hb. cbn [server_heap with_heap]. unfold props_at.
      by rewrite H2, (Hlaw k Hk), Hb.
Qed.

Lemma unset_admin_secret_passes_witness :
  let st0 := startup Json.parse envNoAdmin in
  let req := post_without_admin_key [("newCheckout", true)] in
  (handle envNoAdmin st0 req).1 ≠ Sent forbidden
  ∧ ∃ (r : response) (st' : server),
      handle envNoAdmin st0 req = (Sent r, st')
      ∧ status r = 200
      ∧ assoc "newCheckout" (props_at (server_heap st') 4) = Some (VBool true).
Proof.
  intros st0 req.
  destruct (unset_admin_secret_passes envNoAdmin st0 req eq_refl eq_refl eq_refl)
    as [_ H].
  destruct (H eq_refl eq_refl) as [Hnot Hmerge]. split; [exact Hnot|].
  destruct (Hmerge [("newCheckout", true)] 4%nat legacy_flags eq_refl)
    as (r & st' & Hr & Hs & _ & Hlaw).
  - split; [reflexivity|]. split; [reflexivity|]. vm_compute. discriminate.
  - reflexivity.
  - exists r, st'. split; [exact Hr|]. split; [exact Hs|].
    apply Hlaw; [discriminate|reflexivity].
Defined.

(** ** The startup cache *)

Lemma declared_split (v : string) :
  v ∈ DECLARED_VERSIONS →
  ∃ pre post,
    DECLARED_VERSIONS = pre ++ v :: post
    ∧ (v ∉ post) ∧ (v ∉ map test_key post)
    ∧ (test_key v ∉ post) ∧ (test_key v ∉ map test_key post)
    ∧ (v ≠ "" → ("" ∉ v :: post) ∧ ("" ∉ map test_key (v :: post))).
Proof.
  unfold DECLARED_VERSIONS. intros H.
  repeat (apply elem_of_cons in H as [->|H]).
  - exists [], ["2"; "3"; "4"; "5"]. split; [done|]. split_and!; try not_listed. done.
  - exists [""], ["3"; "4"; "5"]. split; [done|]. split_and!; try not_listed.
    intros _. split; not_listed.
  - exists [""; "2"], ["4"; "5"]. split; [done|]. split_and!; try not_listed.
    intros _. split; not_listed.
  - exists [""; "2"; "3"], ["5"]. split; [done|]. split_and!; try not_listed.
    intros _. split; not_listed.
  - exists [""; "2"; "3"; "4"], []. split; [done|]. split_and!; try not_listed.
    intros _. split; not_listed.
  - by apply elem_of_nil in H.
Qed.

Section Cache.

Context (JSON_parse : string → option json).
Context (env : gmap string string).

Lemma getLegacyConfig_spec (h : heap) (v : value) (h' : heap) :
  getLegacyConfig env h = (v, h') →
  (length h ≤ length h')%nat ∧ bounded h' v ∧ fresh h v.
Proof.
  unfold getLegacyConfig, alloc, bounded, fresh. intros [= <- <-].
  rewrite !length_app. simpl.
  split; [lia|]. split; intros l [= <-]; lia.
Qed.

Lemma or_else_spec (a : value) (b : heap → value * heap) (h : heap) v h' :
  bounded h a →
  (∀ v h', b h = (v, h') → (length h ≤ length h')%nat ∧ bounded h' v) →
  or_else a b h = (v, h') →
  (length h ≤ length h')%nat ∧ bounded h' v.
Proof.
  intros Ha Hb. unfold or_else. destruct (truthy a).
  - intros [= <- <-]. done.
  - apply Hb.
Qed.

Lemma getAppConfig_spec version environment cache h v h' :
  cache_bounded h cache →
  getAppConfig JSON_parse env version environment cache h = (v, h') →
  (length h ≤ length h')%nat ∧ bounded h' v.
Proof.
  intros Hc. unfold getAppConfig.
  assert (Hleg : ∀ v h', getLegacyConfig env h = (v, h') →
                 (length h ≤ length h')%nat ∧ bounded h' v).
  { intros v0 h0 H0. by destruct (getLegacyConfig_spec _ _ _ H0) as (? & ? & _). }
  destruct (structured_input JSON_parse env (envVarName version environment)) as [j|].
  - intros Hj. by destruct (alloc_json_spec _ _ _ _ Hj) as (? & ? & _).
  - repeat case_decide.
    + apply or_else_spec; [by apply cache_get_bounded|done].
    + apply or_else_spec; [by apply cache_get_bounded|].
      intros v0 h0. apply or_else_spec; [by apply cache_get_bounded|done].
    + apply or_else_spec; [by apply cache_get_bounded|done].
    + apply Hleg.
Qed.

(** A structured input that parses gives a fresh document. *)
Lemma getAppConfig_parsed version environment cache h j :
  structured_input JSON_parse env (envVarName version environment) = Some j →
  getAppConfig JSON_parse env version environment cache h = alloc_json j h.
Proof. intros Hj. unfold getAppConfig. by rewrite Hj. Qed.

Lemma load_versions_cons acc v vs :
  load_versions JSON_parse env acc (v :: vs)
  = load_versions JSON_parse env (cache_version JSON_parse env acc v) vs.
Proof. reflexivity. Qed.

Lemma load_versions_app acc vs ws :
  load_versions JSON_parse env acc (vs ++ ws)
  = load_versions JSON_parse env (load_versions JSON_parse env acc vs) ws.
Proof. apply foldl_app. Qed.

Lemma cache_version_unfold cache h v :
  ∃ c h1 t h2,
    getAppConfig JSON_parse env v "" cache h = (c, h1)
    ∧ getAppConfig JSON_parse env v "test" (<[v := c]> cache) h1 = (t, h2)
    ∧ cache_version JSON_parse env (cache, h) v
      = (<[test_key v := t]> (<[v := c]> cache), h2).
Proof.
  unfold cache_version.
  destruct (getAppConfig JSON_parse env v "" cache h) as [c h1] eqn:Hc.
  destruct (getAppConfig JSON_parse env v "test" (<[v := c]> cache) h1) as [t h2] eqn:Ht.
  by exists c, h1, t, h2.
Qed.

Lemma rounds_keep (vs : list string) :
  ∀ cache h cache' h' (k : string),
    load_versions JSON_parse env (cache, h) vs = (cache', h') →
    k ∉ vs → k ∉ map test_key vs →
    cache' !! k = cache !! k.
Proof.
  induction vs as [|v vs IH]; intros cache h cache' h' k;
    rewrite ?load_versions_cons.
  - by intros [= <- <-].
  - destruct (cache_version_unfold cache h v) as (c & h1 & t & h2 & _ & _ & ->).
    intros Hr Hk Hkt. rewrite (IH _ _ _ _ k Hr).
    + rewrite !lookup_insert_ne; [done| |].
      * intros <-. apply Hk. by left.
      * intros <-. apply Hkt. by left.
    + intros ?. apply Hk. by right.
    + intros ?. apply Hkt. by right.
Qed.

Lemma cache_version_bounded cache h v cache' h' :
  cache_bounded h cache →
  cache_version JSON_parse env (cache, h) v = (cache', h') →
  cache_bounded h' cache' ∧ (length h ≤ length h')%nat.
Proof.
  intros Hb. destruct (cache_version_unfold cache h v) as (c & h1 & t & h2 & Hc & Ht & ->).
  intros [= <- <-].
  destruct (getAppConfig_spec _ _ _ _ _ _ Hb Hc) as [Hle1 Hbc].
  assert (Hb1 : cache_bounded h1 (<[v := c]> cache)).
  { apply cache_bounded_insert; [|done]. by eapply cache_bounded_mono. }
  destruct (getAppConfig_spec _ _ _ _ _ _ Hb1 Ht) as [Hle2 Hbt].
  split; [|lia]. apply cache_bounded_insert; [|done]. by eapply cache_bounded_mono.
Qed.

Lemma rounds_bounded (vs : list string) :
  ∀ cache h cache' h',
    cache_bounded h cache →
    load_versions JSON_parse env (cache, h) vs = (cache', h') →
    cache_bounded h' cache' ∧ (length h ≤ length h')%nat.
Proof.
  induction vs as [|v vs IH]; intros cache h cache' h' Hb;
    rewrite ?load_versions_cons.
  - intros [= <- <-]. done.
  - destruct (cache_version JSON_parse env (cache, h) v) as [cache1 h1] eqn:Hv.
    destruct (cache_version_bounded _ _ _ _ _ Hb Hv) as [Hb1 Hle1].
    intros Hr. destruct (IH _ _ _ _ Hb1 Hr) as [? ?]. split; [done|lia].
Qed.

Lemma startup_cache :
  configCache (startup JSON_parse env) = (load_versions JSON_parse env (∅, []) DECLARED_VERSIONS).1.
Proof. unfold startup. by destruct (load_versions _ _ _ _). Qed.

Lemma startup_default :
  APP_CONFIG (startup JSON_parse env)
  = cache_get (configCache (startup JSON_parse env)) "".
Proof. unfold startup. by destruct (load_versions _ _ _ _). Qed.

Lemma startup_default_test :
  APP_CONFIG_TEST (startup JSON_parse env)
  = cache_get (configCache (startup JSON_parse env)) "_test".
Proof. unfold startup. by destruct (load_versions _ _ _ _). Qed.

(** The round of the startup loop that loads version [v]: what it finds
    in the cache, what it computes, and that its two entries are the ones
    the finished cache holds. *)
Lemma startup_round (pre : list string) (v : string) (post : list string) :
  DECLARED_VERSIONS = pre ++ v :: post →
  v ∉ post → v ∉ map test_key post →
  test_key v ∉ post → test_key v ∉ map test_key post →
  ∃ cache0 h0 c h1 t h2,
    load_versions JSON_parse env (∅, []) pre = (cache0, h0)
    ∧ getAppConfig JSON_parse env v "" cache0 h0 = (c, h1)
    ∧ getAppConfig JSON_parse env v "test" (<[v := c]> cache0) h1 = (t, h2)
    ∧ configCache (startup JSON_parse env) !! v = Some c
    ∧ configCache (startup JSON_parse env) !! test_key v = Some t
    ∧ bounded h1 c
    ∧ (∀ k, k ∉ v :: post → k ∉ map test_key (v :: post) →
            configCache (startup JSON_parse env) !! k = cache0 !! k).
Proof.
  intros Hsplit Hv Hvt Htv Htvt.
  destruct (load_versions JSON_parse env (∅, []) pre) as [cache0 h0] eqn:Hpre.
  assert (Hb0 : cache_bounded h0 cache0).
  { eapply (rounds_bounded pre ∅ []); [|exact Hpre]. intros k x. by rewrite lookup_empty. }
  destruct (cache_version_unfold cache0 h0 v) as (c & h1 & t & h2 & Hc & Ht & Hcv).
  destruct (load_versions JSON_parse env (cache0, h0) (v :: post)) as [cache' h'] eqn:Hpost.
  assert (Hfinal : configCache (startup JSON_parse env) = cache').
  { by rewrite startup_cache, Hsplit, load_versions_app, Hpre, Hpost. }
  exists cache0, h0, c, h1, t, h2. rewrite Hfinal.
  split; [done|]. split; [done|]. split; [done|].
  rewrite load_versions_cons, Hcv in Hpost.
  split_and!.
  - rewrite (rounds_keep post _ _ _ _ v Hpost Hv Hvt).
    rewrite lookup_insert_ne, lookup_insert_eq; [done|].
    intros H. by apply (test_key_ne v).
  - rewrite (rounds_keep post _ _ _ _ (test_key v) Hpost Htv Htvt).
    by rewrite lookup_insert_eq.
  - by destruct (getAppConfig_spec _ _ _ _ _ _ Hb0 Hc).
  - intros k Hk Hkt. eapply (rounds_keep (v :: post)); [|done|done].
    by rewrite load_versions_cons, Hcv.
Qed.

Lemma startup_legacy_constants : legacy_constants (startup JSON_parse env).
Proof. split; [apply startup_default|apply startup_default_test]. Qed.

(** Only the declared versions and their test keys are in the cache. *)
Lemma startup_cache_miss (key : string) :
  key ∉ DECLARED_VERSIONS → key ∉ map test_key DECLARED_VERSIONS →
  configCache (startup JSON_parse env) !! key = None.
Proof.
  intros Hk Hkt. rewrite startup_cache.
  destruct (load_versions JSON_parse env (∅, []) DECLARED_VERSIONS)
    as [cache h] eqn:Hr.
  simpl. by rewrite (rounds_keep _ _ _ _ _ key Hr Hk Hkt).
Qed.



(** A test key with a structured input that parses gets a document of
    its own. *)
Lemma startup_test_fresh (v : string) (j : json) (lp : loc) :
  v ∈ DECLARED_VERSIONS →
  structured_input JSON_parse env (envVarName v "test") = Some j →
  configCache (startup JSON_parse env) !! v = Some (VRef lp) →
  configCache (startup JSON_parse env) !! test_key v ≠ Some (VRef lp).
Proof.
  intros Hv Hin Hc.
  destruct (declared_split v Hv) as (pre & post & Hs & H1 & H2 & H3 & H4 & H5).
  destruct (startup_round pre v post Hs H1 H2 H3 H4)
    as (cache0 & h0 & c' & h1 & t & h2 & _ & _ & Ht & Hcv & Htv & Hb & _).
  rewrite Hcv in Hc. injection Hc as ->. rewrite Htv. intros [= ->].
  rewrite (getAppConfig_parsed _ _ _ _ _ Hin) in Ht.
  destruct (alloc_json_spec _ _ _ _ Ht) as (_ & _ & Hf).
  specialize (Hb lp eq_refl). specialize (Hf lp eq_refl). lia.
Qed.

End Cache.

Lemma startup_store (JSON_parse : string → option json) (env : gmap string string) :
  rateLimitStore (startup JSON_parse env) = ∅.
Proof. unfold startup. by destruct (load_versions _ _ _ _). Qed.

(** C8 (amended).  The test entry of a declared version whose plain entry
    is a document object: it is that same object when the test input is
    absent, empty or does not parse, and it is another object when the
    test input parses, whatever the plain input is. *)
Theorem test_entry_instance (JSON_parse : string → option json)
    (env : gmap string string) (v : string) (lp : loc) :
  let st := startup JSON_parse env in
  v ∈ DECLARED_VERSIONS →
  configCache st !! v = Some (VRef lp) →
  (structured_input JSON_parse env (envVarName v "test") = None →
   configCache st !! test_key v = Some (VRef lp))
  ∧ (∀ j : json,
       structured_input JSON_parse env (envVarName v "test") = Some j →
       configCache st !! test_key v ≠ Some (VRef lp)).
Proof.
  intros st Hv Hc. split.
  - intros Hin.
    destruct (declared_split v Hv) as (pre & post & Hs & H1 & H2 & H3 & H4 & _).
    destruct (startup_round JSON_parse env pre v post Hs H1 H2 H3 H4)
      as (cache0 & h0 & c' & h1 & t & h2 & _ & _ & Ht & Hcv & Htv & _ & _).
    fold st in Hcv, Htv. rewrite Hcv in Hc. injection Hc as ->. rewrite Htv. f_equal.
    unfold getAppConfig in Ht. rewrite Hin in Ht.
    destruct (decide (v = "")) as [->|Hne].
    + rewrite decide_True in Ht by done.
      unfold or_else, cache_get in Ht. rewrite lookup_insert_eq in Ht. by injection Ht.
    + rewrite decide_False in Ht by (by intros [_ ?]).
      rewrite decide_True in Ht by done.
      unfold or_else, cache_get in Ht. rewrite lookup_insert_eq in Ht. by injection Ht.
  - intros j Hin. by eapply startup_test_fresh.
Qed.

Lemma test_entry_instance_witness :
  configCache (startup Json.parse envOwn) !! "_test" = Some (VRef 1%nat)
  ∧ configCache (startup Json.parse envTwin) !! "_test" ≠ Some (VRef 0%nat).
Proof.
  split.
  - apply (test_entry_instance Json.parse envOwn "" 1%nat).
    + by left.
    + reflexivity.
    + reflexivity.
  - apply (test_entry_instance Json.parse envTwin "" 0%nat) with (j := JObj [("version", JStr "1.1.0")]).
    + by left.
    + reflexivity.
    + reflexivity.
Defined.

(** The plain input is present and the test input is absent, and the two
    cache entries are one object. *)
Lemma test_entry_shared_with_differing_inputs :
  envOwn !! "APP_CONFIG" ≠ envOwn !! "APP_CONFIG_TEST"
  ∧ configCache (startup Json.parse envOwn) !! "" = Some (VRef 1%nat)
  ∧ configCache (startup Json.parse envOwn) !! "_test" = Some (VRef 1%nat).
Proof. split; [vm_compute; discriminate|]. split; reflexivity. Qed.

(** Two identical inputs, and the two cache entries are two objects. *)
Example test_entry_own_with_identical_inputs :
  envTwin !! "APP_CONFIG" = envTwin !! "APP_CONFIG_TEST"
  ∧ configCache (startup Json.parse envTwin) !! "" = Some (VRef 0%nat)
  ∧ configCache (startup Json.parse envTwin) !! "_test" = Some (VRef 1%nat).
Proof. split; [reflexivity|]. split; reflexivity. Qed.

(** ** The document routes *)

(** After any history the cache, the two constants and the key list are
    those of the startup. *)
Lemma run_legacy_constants JSON_parse env history :
  let st := (run env (startup JSON_parse env) history).2 in
  legacy_constants st ∧ configCache st = configCache (startup JSON_parse env)
  ∧ VALID_API_KEYS st = VALID_API_KEYS (startup JSON_parse env).
Proof.
  intros st.
  destruct (run_preserves env history (startup JSON_parse env))
    as (Hcache & Hd & Ht & Hk). fold st in Hcache, Hd, Ht, Hk.
  destruct (startup_legacy_constants JSON_parse env) as [H1 H2].
  split; [|done]. split; [by rewrite Hd, Hcache|by rewrite Ht, Hcache].
Qed.

(** A document route serves the cache entry of its key, once the limiter
    and the key check let the request through. *)
Lemma document_route env st req key :
  legacy_constants st →
  resolved_key req = Some key →
  (rateLimit req (rateLimitStore st)).1 = Next →
  validateApiKey (VALID_API_KEYS st) req = Next →
  ∃ metadata,
    handle env st req
    = (Express.json req
         (serve req (server_heap st) (cache_get (configCache st) key) metadata),
       with_store st (rateLimit req (rateLimitStore st)).2).
Proof.
  intros [Hd Ht] Hkey Hrl Hvalid. unfold resolved_key in Hkey.
  destruct (first_match req routes) as [[r params]|] eqn:Hroute; [|done].
  rewrite (handle_routed _ _ _ _ _ Hroute).
  destruct r; try done; injection Hkey as <-; simpl; unfold limited_chain;
    destruct (rateLimit req (rateLimitStore st)) as [g store]; simpl in Hrl;
    subst g; rewrite Hvalid; simpl; eexists.
  - reflexivity.
  - reflexivity.
  - unfold env_config. simpl. rewrite Hd, Ht.
    destruct (decide (param "environment" params = "test")); reflexivity.
  - unfold config. simpl. rewrite Hd. reflexivity.
Qed.


(** C1 (what the code does).  After any history of requests, a request
    that passes the rate limiter and the key check and whose route reads a
    cache key that is neither a declared version nor a declared test key
    is answered 500 "Internal Server Error": the cache has no entry, the
    ETag of [undefined] throws and the handler's [catch] responds.  The
    default document is not served. *)
Theorem undeclared_version_fails (JSON_parse : string → option json)
    (env : gmap string string) (history : list request) (req : request)
    (key : string) :
  let st := (run env (startup JSON_parse env) history).2 in
  resolved_key req = Some key →
  key ∉ DECLARED_VERSIONS → key ∉ map test_key DECLARED_VERSIONS →
  (rateLimit req (rateLimitStore st)).1 = Next →
  validateApiKey (VALID_API_KEYS st) req = Next →
  (handle env st req).1 = Sent (internal_error req)
  ∧ status (internal_error req) = 500.
Proof.
  intros st Hkey Hk Hkt Hrl Hvalid. split; [|done].
  destruct (run_preserves env history (startup JSON_parse env))
    as (Hcache & Hd & Ht & _). fold st in Hcache, Hd, Ht.
  assert (Hlc : legacy_constants st).
  { destruct (startup_legacy_constants JSON_parse env) as [H1 H2].
    split; [by rewrite Hd, Hcache|by rewrite Ht, Hcache]. }
  destruct (document_route env st req key Hlc Hkey Hrl Hvalid) as [metadata ->].
  simpl. unfold cache_get. rewrite Hcache, (startup_cache_miss _ _ key Hk Hkt).
  apply json_error. simpl. lia.
Qed.

Lemma undeclared_version_fails_witness :
  (handle envK (startup Json.parse envK)
     (get ["v6"; "config"] [("x-api-key", "ios-key-1")])).1
  = Sent (internal_error (get ["v6"; "config"] [("x-api-key", "ios-key-1")])).
Proof.
  apply (undeclared_version_fails Json.parse envK []
           (get ["v6"; "config"] [("x-api-key", "ios-key-1")]) "6").
  - reflexivity.
  - not_listed.
  - not_listed.
  - reflexivity.
  - reflexivity.
Defined.

(** C2 (what the code does).  [GET /config/version] is taken by the route
    [/config/:environment], registered before [/config/version], with
    [environment = "version"]: the request is handled exactly as that
    route handles it, and every 200 answer carries a [metadata] field with
    that environment, so its body is not the triple
    [{version, timestamp, checksum}] of the version handler. *)
Theorem version_route_shadowed (env : gmap string string) (st : server)
    (req : request) :
  req_method req = GET → req_path req = ["config"; "version"] →
  first_match req routes = Some (EnvConfig, [("environment", "version")])
  ∧ handle env st req = run_route env st req EnvConfig [("environment", "version")]
  ∧ ∀ (r : response) (st' : server),
      handle env st req = (Sent r, st') → status r = 200 →
      jfield "metadata" (res_body r) = Some (JObj (base_metadata env req "version"))
      ∧ jkeys (res_body r) ≠ ["version"; "timestamp"; "checksum"].
Proof.
  intros Hm Hp. pose proof (route_config_version req Hm Hp) as Hroute.
  split; [done|]. split; [by rewrite (handle_routed _ _ _ _ _ Hroute)|].
  intros r st' Hh Hst. rewrite (handle_routed _ _ _ _ _ Hroute) in Hh.
  simpl in Hh. unfold limited_chain in Hh.
  destruct (rateLimit req (rateLimitStore st)) as [[| rl |] store] eqn:Hrl.
  - destruct (validateApiKey (VALID_API_KEYS st) req) as [| r401 |] eqn:Hv;
      simpl in Hh; [| |done].
    + injection Hh as Hj <-.
      match type of Hj with Express.json _ ?a = _ =>
        destruct (json_cases req a) as [E|[E _]]; rewrite E in Hj; [|done]
      end.
      injection Hj as <-. unfold env_config, serve in *. simpl in *.
      destruct (Buffer_base64 _); [|done]. simpl.
      match goal with |- assoc _ ?L = _ ∧ _ => set (body := L) end.
      assert (Hmeta : assoc "metadata" body
                      = Some (JObj (base_metadata env req "version"))).
      { unfold body. rewrite assoc_prop_set. by rewrite decide_True. }
      split; [done|]. intros Hkeys. apply assoc_key in Hmeta. rewrite Hkeys in Hmeta.
      repeat (apply elem_of_cons in Hmeta as [Hmeta|Hmeta]; [discriminate Hmeta|]).
      by apply elem_of_nil in Hmeta.
    + injection Hh as <- <-. unfold validateApiKey in Hv.
      destruct (api_key_candidate req) as [[k|]|]; [|done|].
      * destruct (includes _ k); [done|]. injection Hv as <-. discriminate Hst.
      * injection Hv as <-. discriminate Hst.
  - injection Hh as <- <-. apply rateLimit_reply in Hrl. rewrite Hrl in Hst.
    discriminate Hst.
  - done.
Qed.

Lemma version_route_shadowed_witness :
  first_match (get ["config"; "version"] [("x-api-key", "ios-key-1")]) routes
  = Some (EnvConfig, [("environment", "version")]).
Proof.
  apply (version_route_shadowed envK (startup Json.parse envK)
           (get ["config"; "version"] [("x-api-key", "ios-key-1")])).
  - reflexivity.
  - reflexivity.
Defined.

(** What the shadowed handler would have sent, next to what is sent. *)
Example version_route_bodies :
  let st := startup Json.parse envK in
  let req := get ["config"; "version"] [("x-api-key", "ios-key-1")] in
  (∃ r, config_version st req = Sent r
        ∧ jkeys (res_body r) = ["version"; "timestamp"; "checksum"])
  ∧ (∃ r, (handle envK st req).1 = Sent r
          ∧ jkeys (res_body r)
            = ["aws"; "api"; "bot"; "features"; "version"; "metadata"]).
Proof. split; eexists; split; vm_compute; reflexivity. Qed.




(** ** More on the rate limiter *)

(** The verdict and the new entry of a client depend on its own entry only. *)
Lemma rateLimit_local (req : request) (s1 s2 : gmap string clientData) :
  s1 !! clientId req = s2 !! clientId req →
  (rateLimit req s1).1 = (rateLimit req s2).1
  ∧ (rateLimit req s1).2 !! clientId req = (rateLimit req s2).2 !! clientId req.
Proof.
  intros E. unfold rateLimit. rewrite <- E.
  destruct (s1 !! clientId req) as [d|] eqn:E1; simpl.
  - repeat case_decide; simpl; rewrite ?lookup_insert_eq; try done.
    by rewrite E1, <- E.
  - by rewrite !lookup_insert_eq.
Qed.

(** So do the verdicts of a sequence of its requests. *)
Lemma run_limiter_local (c : string) (reqs : list request) :
  ∀ s1 s2 : gmap string clientData,
    Forall (fun r => clientId r = c) reqs →
    s1 !! c = s2 !! c →
    run_limiter s1 reqs = run_limiter s2 reqs.
Proof.
  induction reqs as [|r rs IH]; intros s1 s2 Hall E; [done|].
  apply Forall_cons in Hall as [Hr Hall]. subst c.
  destruct (rateLimit_local r s1 s2 E) as [Hg Hs].
  cbn [run_limiter].
  destruct (rateLimit r s1) as [g1 t1], (rateLimit r s2) as [g2 t2]; simpl in *.
  subst g2. f_equal. by apply IH.
Qed.

(** The verdicts of the requests under one key are the verdicts they get
    when the requests under all other keys are taken out. *)
Lemma limiter_keys_independent (c : identity) (reqs : list request) :
  ∀ store : gmap string clientData,
    verdicts_where (counted_with c) store reqs
    = run_limiter store (filter (counted_with c) reqs).
Proof.
  induction reqs as [|r rs IH]; intros store; [done|].
  cbn [verdicts_where]. rewrite filter_cons.
  pose proof (rateLimit_other r store (identity_key c)) as Ho.
  destruct (rateLimit r store) as [g store'] eqn:E; simpl in Ho.
  destruct (decide (counted_with c r)) as [Hc|Hc].
  - cbn [run_limiter]. rewrite E. f_equal. apply IH.
  - rewrite IH. apply (run_limiter_local (identity_key c)); [|by apply Ho].
    apply Forall_forall. intros x Hx. by apply list_elem_of_filter in Hx as [? _].
Qed.

Lemma verdicts_where_unshared (c : identity) (reqs : list request) :
  ∀ store : gmap string clientData,
    unshared c reqs →
    verdicts_where (counted_with c) store reqs = verdicts_where (sent_by c) store reqs.
Proof.
  induction reqs as [|r rs IH]; intros store Hu; [done|].
  cbn [verdicts_where]. destruct (rateLimit r store) as [g store'].
  rewrite (IH store') by (intros x Hx; apply Hu; by right).
  destruct (decide (counted_with c r)) as [Hc|Hc].
  - rewrite decide_True; [done|]. apply Hu; [by left|done].
  - rewrite decide_False; [done|]. intros Hs. by apply Hc, sent_by_counted.
Qed.

(** X1.  The limiter treats the keys of its store independently, and so
    the client identities that share their key with no other: the
    verdicts that the requests counted with an identity [c] get in a
    sequence of requests are the verdicts they get when all other requests
    are taken out of it; and where no other identity of the sequence has
    the key of [c], the verdicts of the requests of [c] are the verdicts
    they get alone.  (Two identities with one key are limited together,
    see [colliding_identities_share_window].) *)
Theorem limiter_clients_independent (c : identity) (reqs : list request)
    (store : gmap string clientData) :
  verdicts_where (counted_with c) store reqs
  = run_limiter store (filter (counted_with c) reqs)
  ∧ (unshared c reqs →
     verdicts_of c store reqs = run_limiter store (filter (sent_by c) reqs)).
Proof.
  split; [apply limiter_keys_independent|]. intros Hu. unfold verdicts_of.
  rewrite <- verdicts_where_unshared, <- unshared_filter by done.
  apply limiter_keys_independent.
Qed.

Lemma limiter_clients_independent_witness :
  verdicts_of (identity_of reqA) ∅ [from_one 0; reqA; from_one 10; from_twelve 20]
  = run_limiter ∅ [reqA].
Proof.
  apply (limiter_clients_independent (identity_of reqA)
           [from_one 0; reqA; from_one 10; from_twelve 20] ∅).
  intros r Hr Hc.
  repeat (apply elem_of_cons in Hr as [->|Hr]; [done || discriminate Hc|]).
  by apply elem_of_nil in Hr.
Defined.

(** One request keeps the counts within their bounds. *)
Lemma rateLimit_counts_bounded req store :
  counts_bounded store → counts_bounded (rateLimit req store).2.
Proof.
  intros Hb c d. unfold rateLimit.
  assert (Hins : ∀ n T, 1 ≤ n ≤ RATE_LIMIT_MAX_REQUESTS →
            <[clientId req := {| count := n; resetTime := T |}]> store !! c = Some d →
            1 ≤ count d ≤ RATE_LIMIT_MAX_REQUESTS).
  { intros n T Hn. destruct (decide (clientId req = c)) as [<-|Hne].
    - rewrite lookup_insert_eq. intros E. injection E as <-. exact Hn.
    - rewrite lookup_insert_ne by done. apply Hb. }
  destruct (store !! clientId req) as [d0|] eqn:E0; simpl.
  - destruct (decide (clock req > resetTime d0)); simpl.
    + apply Hins. unfold RATE_LIMIT_MAX_REQUESTS. lia.
    + destruct (decide (count d0 >= RATE_LIMIT_MAX_REQUESTS)); simpl; [apply Hb|].
      apply Hins. apply Hb in E0. lia.
  - apply Hins. unfold RATE_LIMIT_MAX_REQUESTS. lia.
Qed.

(** One request adds its client to the store and removes nobody. *)
Lemma rateLimit_dom req store :
  dom (rateLimit req store).2 = dom store ∪ {[ clientId req ]}.
Proof.
  unfold rateLimit.
  destruct (store !! clientId req) as [d0|] eqn:E0; simpl.
  - destruct (decide (clock req > resetTime d0)); simpl.
    + by rewrite dom_insert_L, (comm_L (∪)).
    + apply elem_of_dom_2 in E0.
      assert (dom store = dom store ∪ {[clientId req]}) as Hd.
      { symmetry. rewrite (comm_L (∪)). apply subseteq_union_1_L.
        by apply singleton_subseteq_l. }
      destruct (decide (count d0 >= RATE_LIMIT_MAX_REQUESTS)); simpl; [exact Hd|].
      by rewrite dom_insert_L, (comm_L (∪)).
  - by rewrite dom_insert_L, (comm_L (∪)).
Qed.

(** X4.  The store only grows: after a sequence of requests it has an
    entry for every client identity of the sequence besides the entries
    it had.  No branch of [rateLimit] removes an entry, also not one
    whose window is over. *)
Theorem limiter_never_forgets (reqs : list request) :
  ∀ store : gmap string clientData,
    dom (limiter_store store reqs) = dom store ∪ list_to_set (clientId <$> reqs).
Proof.
  induction reqs as [|r rs IH]; intros store; cbn [limiter_store].
  - cbn. by rewrite (right_id_L ∅ (∪)).
  - rewrite IH, rateLimit_dom. cbn. by rewrite (assoc_L (∪)).
Qed.

(** With [n] requests already counted and room for the rest. *)
Lemma limiter_below_quota_gen (c : identity) (reqs : list request) :
  ∀ (n : Z) (store : gmap string clientData),
    0 ≤ n →
    n + Z.of_nat (length (filter (counted_with c) reqs)) ≤ RATE_LIMIT_MAX_REQUESTS →
    (store !! identity_key c = None
     ∨ ∃ d, store !! identity_key c = Some d ∧ count d ≤ n) →
    verdicts_of c store reqs = replicate (length (filter (sent_by c) reqs)) Next.
Proof.
  unfold verdicts_of.
  induction reqs as [|r rs IH]; intros n store Hn Hq Hs; [done|].
  cbn [verdicts_where]. rewrite !filter_cons in *.
  pose proof (rateLimit_other r store (identity_key c)) as Ho.
  destruct (decide (counted_with c r)) as [Hc|Hc].
  - assert (Hnext : (rateLimit r store).1 = Next
              ∧ ∃ d, (rateLimit r store).2 !! identity_key c = Some d ∧ count d ≤ n + 1).
    { simpl in Hq. unfold rateLimit. unfold counted_with in Hc. rewrite Hc.
      set (key := identity_key c) in *. clearbody key.
      destruct (store !! key) as [d|] eqn:E; cbn [fst snd].
      - destruct Hs as [?|(d' & [= <-] & Hd)]; [done|].
        case_decide; cbn [fst snd].
        + split; [done|]. eexists. rewrite lookup_insert_eq. split; [done|]. simpl. lia.
        + case_decide; [unfold RATE_LIMIT_MAX_REQUESTS in *; lia|]. cbn [fst snd].
          split; [done|]. eexists. rewrite lookup_insert_eq. split; [done|]. simpl. lia.
      - split; [done|]. eexists. rewrite lookup_insert_eq. split; [done|]. simpl. lia. }
    destruct (rateLimit r store) as [g store'] eqn:E. simpl in Hnext.
    destruct Hnext as [-> Hs']. simpl in Hq.
    rewrite (IH (n + 1) store') by (lia || by right).
    by destruct (decide (sent_by c r)).
  - destruct (rateLimit r store) as [g store'] eqn:E; simpl in Ho.
    rewrite !decide_False by (intros Hs'; by apply Hc, sent_by_counted).
    apply (IH n); [lia|lia|]. unfold counted_with in Hc. rewrite (Ho Hc). exact Hs.
Qed.

(** X2.  A client identity whose key has no entry is not limited while
    the requests counted under its key are at most a hundred, whatever
    their clocks: in a sequence with at most 100 requests counted with
    [c] (its own, and those of the identities that have the same key),
    every request of [c] gets [Next], in the window it opened or in a
    later one. *)
Theorem limiter_below_quota (c : identity) (store : gmap string clientData)
    (reqs : list request) :
  store !! identity_key c = None →
  Z.of_nat (length (filter (counted_with c) reqs)) ≤ 100 →
  verdicts_of c store reqs = replicate (length (filter (sent_by c) reqs)) Next.
Proof.
  intros Hs Hq. apply (limiter_below_quota_gen c reqs 0); [lia| |by left].
  unfold RATE_LIMIT_MAX_REQUESTS. lia.
Qed.

Lemma limiter_below_quota_witness :
  verdicts_of (identity_of (from_twelve 0)) ∅
    (replicate 60 (from_one 0) ++ replicate 40 (from_twelve 70000))
  = replicate 40 Next.
Proof.
  apply (limiter_below_quota (identity_of (from_twelve 0)) ∅
           (replicate 60 (from_one 0) ++ replicate 40 (from_twelve 70000))).
  - reflexivity.
  - vm_compute. discriminate.
Defined.

Lemma run_counts_bounded env reqs :
  ∀ st, counts_bounded (rateLimitStore st) →
        counts_bounded (rateLimitStore (run env st reqs).2).
Proof.
  induction reqs as [|r rs IH]; intros st Hb; [done|].
  cbn [run]. pose proof (handle_store env st r) as Hs.
  destruct (handle env st r) as [o st1]. simpl in Hs.
  specialize (IH st1). destruct (run env st1 rs) as [os st2]. simpl in *.
  apply IH. destruct Hs as [->| ->]; [done|]. by apply rateLimit_counts_bounded.
Qed.

(** X3.  After any history of requests from startup, every entry of the
    limiter's store has a count between 1 and the maximum: a request that
    is rejected is not counted, and no route writes the store except
    through [rateLimit]. *)
Theorem limiter_counts_within_quota (JSON_parse : string → option json)
    (env : gmap string string) (history : list request) (c : string) (d : clientData) :
  rateLimitStore (run env (startup JSON_parse env) history).2 !! c = Some d →
  1 ≤ count d ≤ RATE_LIMIT_MAX_REQUESTS.
Proof.
  apply (run_counts_bounded env history (startup JSON_parse env)).
  rewrite startup_store. intros c' d'. by rewrite lookup_empty.
Qed.

Lemma limiter_counts_within_quota_witness :
  rateLimitStore (run envK (startup Json.parse envK) (replicate 150 reqA)).2 !! clientId reqA
  = Some {| count := 100; resetTime := 61000 |}
  ∧ 1 ≤ 100 ≤ RATE_LIMIT_MAX_REQUESTS.
Proof.
  split; [vm_compute; reflexivity|].
  apply (limiter_counts_within_quota Json.parse envK (replicate 150 reqA)
           (clientId reqA) {| count := 100; resetTime := 61000 |}).
  vm_compute. reflexivity.
Defined.

(** ** More on the key check *)

(** The candidate of a request is never the empty string. *)
Lemma nonempty_Some o k : nonempty o = Some k ↔ o = Some k ∧ k ≠ "".
Proof.
  destruct o as [s|]; simpl.
  - destruct (decide (s = "")) as [->|Hs].
    + split; [done|]. by intros [[= <-] ?].
    + split; [by intros [= <-]|]. by intros [[= <-] _].
  - split; [done|]. by intros [? _].
Qed.

Lemma candidate_nonempty req k : api_key_candidate req = Some (CStr k) → k ≠ "".
Proof.
  unfold api_key_candidate.
  destruct (nonempty (req_headers req !! "x-api-key")) as [k1|] eqn:E1.
  { intros [= <-]. by apply nonempty_Some in E1 as [_ ?]. }
  destruct (nonempty (_ <$> _)) as [k2|] eqn:E2.
  { intros [= <-]. by apply nonempty_Some in E2 as [_ ?]. }
  destruct (req_query req !! "apiKey") as [[s|]|]; try done.
  destruct (nonempty (Some s)) as [k3|] eqn:E3; [|done].
  intros [= <-]. by apply nonempty_Some in E3 as [_ ?].
Qed.

(** What passes the key check. *)
Lemma validateApiKey_Next keys req :
  validateApiKey keys req = Next →
  ∃ k, k ≠ "" ∧ api_key_candidate req = Some (CStr k) ∧ Some k ∈ keys.
Proof.
  unfold validateApiKey.
  destruct (api_key_candidate req) as [[k|]|] eqn:E; try done.
  unfold includes. case_bool_decide; [|done]. intros _.
  exists k. split; [by apply (candidate_nonempty req)|done].
Qed.

(** The statuses of the middlewares and of the handlers. *)
Lemma validateApiKey_status keys req r :
  validateApiKey keys req = Reply r → status r = 401.
Proof.
  unfold validateApiKey.
  destruct (api_key_candidate req) as [[k|]|]; try done.
  - destruct (includes keys k); [done|]. by intros [= <-].
  - by intros [= <-].
Qed.

Lemma serve_status req h config metadata :
  status (serve req h config metadata) = 200 ∨ status (serve req h config metadata) = 500.
Proof. unfold serve. destruct (Buffer_base64 _); [by left|by right]. Qed.

Lemma json_status req r code :
  outcome_status (Express.json req r) = Some code →
  code = status r
  ∨ (code = 304 ∧ (200 ≤ status r < 300 ∨ status r = 304) ∧ ¬ unconditional req).
Proof.
  destruct (json_cases req r) as [->|(-> & H1 & H2)]; intros [= <-]; [by left|by right].
Qed.

Lemma without_body_status o : outcome_status (Express.without_body o) = outcome_status o.
Proof. by destruct o. Qed.

Lemma serve_json_status req h config metadata code :
  outcome_status (Express.json req (serve req h config metadata)) = Some code →
  code = 200 ∨ code = 500 ∨ (code = 304 ∧ ¬ unconditional req).
Proof.
  intros [->|(-> & _ & H)]%json_status; [|auto].
  destruct (serve_status req h config metadata) as [-> | ->]; auto.
Qed.

Lemma config_version_status st req code :
  outcome_status (config_version st req) = Some code →
  code = 200 ∨ (code = 304 ∧ ¬ unconditional req).
Proof.
  unfold config_version. destruct (get_prop _ _ _); [|done].
  destruct (Buffer_base64 _); [|done].
  intros [->|(-> & _ & H)]%json_status; auto.
Qed.

Lemma config_features_cases env st req :
  (config_features env st req).1 = Thrown
  ∨ ∃ r, (config_features env st req).1 = Sent r
         ∧ (status r = 200 ∨ status r = 400 ∨ status r = 403).
Proof.
  unfold config_features.
  destruct (decide (_ ≠ _)); simpl; [right; eexists; split; [done|auto]|].
  destruct (req_body req) as [payload|]; [|by left].
  destruct (alloc_json payload (server_heap st)) as [body h1].
  destruct (get_prop h1 body "features") as [[]|]; simpl;
    try (right; eexists; split; [done|auto]); try (by left).
  destruct (get_prop h1 (APP_CONFIG st) "features") as [target|]; [|by left].
  destruct (Object_assign _ _ _); simpl; [|by left].
  right; eexists; split; [done|auto].
Qed.

Lemma config_features_status env st req r :
  (config_features env st req).1 = Sent r →
  status r = 200 ∨ status r = 400 ∨ status r = 403.
Proof.
  destruct (config_features_cases env st req) as [->|(r' & -> & H)]; [done|].
  by intros [= <-].
Qed.

Lemma limited_chain_outcome st req validate handler code :
  outcome_status (limited_chain st req validate handler).1 = Some code →
  code = 429 ∨ code = 401
  ∨ (validateApiKey (VALID_API_KEYS st) req = Next
     ∧ outcome_status (handler (with_store st (rateLimit req (rateLimitStore st)).2))
       = Some code).
Proof.
  unfold limited_chain.
  destruct (rateLimit req (rateLimitStore st)) as [g store] eqn:E.
  destruct g as [|r'|]; simpl; [|intros [= <-]; left; by eapply rateLimit_reply|done].
  destruct (validateApiKey _ _) as [|r'|] eqn:Ek; simpl; [|intros [= <-]|done].
  - intros H. right; right. split; [done|]. unfold validateRequest in H.
    by destruct validate.
  - right; left. by eapply validateApiKey_status.
Qed.

(** What an answer of a route can be. *)
Lemma run_route_outcome env st req rt params code :
  outcome_status (run_route env st req rt params).1 = Some code →
  (code = 429 ∧ rt ≠ ConfigFeatures)
  ∨ code = 401
  ∨ (validateApiKey (VALID_API_KEYS st) req = Next
     ∧ (code = 200
        ∨ (code = 304 ∧ rt ≠ ConfigFeatures ∧ ¬ unconditional req)
        ∨ (code = 500 ∧ rt ≠ ConfigFeatures ∧ rt ≠ ConfigVersion)
        ∨ ((code = 400 ∨ code = 403) ∧ rt = ConfigFeatures))).
Proof.
  destruct rt; cbn [run_route]; intros H;
    try (apply limited_chain_outcome in H as [H|[H|[Hk H]]];
         [by left|by right; left|right; right; split; [done|]]).
  - apply serve_json_status in H as [->|[->|[-> ?]]]; auto 10.
  - apply serve_json_status in H as [->|[->|[-> ?]]]; auto 10.
  - apply serve_json_status in H as [->|[->|[-> ?]]]; auto 10.
  - apply serve_json_status in H as [->|[->|[-> ?]]]; auto 10.
  - apply config_version_status in H as [->|[-> ?]]; auto 10.
  - destruct (validateApiKey (VALID_API_KEYS st) req) as [|r'|] eqn:Ek; simpl in H.
    + right; right. split; [done|].
      destruct (config_features_cases env st req) as [E|(r & E & Hr)];
        rewrite E in H; [done|]. injection H as <-.
      destruct Hr as [->|[->| ->]]; auto 10.
    + injection H as <-. right; left. by eapply validateApiKey_status.
    + done.
Qed.

Lemma unconditional_as_get req : unconditional (as_get req) ↔ unconditional req.
Proof. done. Qed.

(** What an answer of the router can be: the one to an OPTIONS request,
    or the one of the route that takes the request. *)
Lemma handle_outcome env st req code :
  outcome_status (handle env st req).1 = Some code →
  (req_method req = OPTIONS ∧ code = 200)
  ∨ (req_method req ≠ OPTIONS
     ∧ ∃ rt params,
         first_match (routed req) routes = Some (rt, params)
         ∧ ((code = 429 ∧ rt ≠ ConfigFeatures)
            ∨ code = 401
            ∨ (validateApiKey (VALID_API_KEYS st) req = Next
               ∧ (code = 200
                  ∨ (code = 304 ∧ rt ≠ ConfigFeatures ∧ ¬ unconditional req)
                  ∨ (code = 500 ∧ rt ≠ ConfigFeatures ∧ rt ≠ ConfigVersion)
                  ∨ ((code = 400 ∨ code = 403) ∧ rt = ConfigFeatures))))).
Proof.
  unfold handle.
  destruct (route_request_cases env routes st req)
    as [(Hm & _ & [H|[allow H]])|[(Hm & H & _)|(Hm1 & Hm2 & H)]]; rewrite H.
  - done.
  - intros [= <-]. by left.
  - rewrite without_body_status. intros Hc. right. split; [by rewrite Hm|].
    unfold routed. rewrite Hm. unfold dispatch in Hc.
    destruct (first_match (as_get req) routes) as [[rt params]|]; [|done].
    exists rt, params. split; [done|].
    by apply run_route_outcome in Hc.
  - intros Hc. right. split; [done|].
    assert (Hrt : routed req = req) by (unfold routed; by destruct (req_method req)).
    rewrite Hrt. unfold dispatch in Hc.
    destruct (first_match req routes) as [[rt params]|]; [|done].
    exists rt, params. split; [done|]. by apply run_route_outcome in Hc.
Qed.

(** ** Documents in the heap *)

(** Writing a member keeps the properties and their trees in step. *)
Lemma written_assoc_is_Some f h ps js k :
  Forall2 (written f h) ps js → is_Some (assoc k ps) ↔ is_Some (assoc k js).
Proof.
  induction 1 as [|[k1 v1] [k2 j2] ps js [Hk Hw] Hrest IH]; simpl in *; [done|].
  subst k2. destruct (decide (k1 = k)); [|done]. split; by eexists.
Qed.

Lemma written_prop_update f h k v j ps js :
  reify f h v = Some j →
  Forall2 (written f h) ps js →
  Forall2 (written f h) (prop_update k v ps) (prop_update k j js).
Proof.
  intros Hv. induction 1 as [|[k1 v1] [k2 j2] ps js [Hk Hw] Hrest IH]; simpl in *.
  - constructor.
  - subst k2. destruct (decide (k1 = k)); constructor; try done; by split.
Qed.

Lemma written_prop_insert f h k v j i ps js :
  reify f h v = Some j →
  Forall2 (written f h) ps js →
  Forall2 (written f h) (prop_insert k v i ps) (prop_insert k j i js).
Proof.
  intros Hv. induction 1 as [|[k1 v1] [k2 j2] ps js [Hk Hw] Hrest IH]; simpl in *.
  - by repeat constructor.
  - subst k2. destruct (Platform.array_index k1) as [n|].
    + destruct (n <? i)%N; repeat constructor; try done.
    + repeat constructor; done.
Qed.

Lemma written_prop_set f h k v j ps js :
  reify f h v = Some j →
  Forall2 (written f h) ps js →
  Forall2 (written f h) (prop_set k v ps) (prop_set k j js).
Proof.
  intros Hv Hps. unfold prop_set.
  pose proof (written_assoc_is_Some f h ps js k Hps) as Hs.
  destruct (assoc k ps) as [v0|], (assoc k js) as [j0|].
  - by apply written_prop_update.
  - by destruct (proj1 Hs (mk_is_Some _ _ eq_refl)).
  - by destruct (proj2 Hs (mk_is_Some _ _ eq_refl)).
  - destruct (Platform.array_index k).
    + by apply written_prop_insert.
    + apply Forall2_app; [done|]. by repeat constructor.
Qed.

Lemma written_build f h ps js :
  Forall2 (written f h) ps js →
  ∀ acc jacc,
    Forall2 (written f h) acc jacc →
    Forall2 (written f h) (build_props ps acc)
      (fold_left (fun a kv => prop_set (fst kv) (snd kv) a) js jacc).
Proof.
  unfold build_props.
  induction 1 as [|[k v] [k' j] ps js [Hk Hw] _ IH]; intros acc jacc Hacc; simpl in *; [done|].
  subst k'. apply IH. by apply written_prop_set.
Qed.

(** Properties in step with trees are serialised as those trees. *)
Lemma written_reify_props f h ps js :
  Forall2 (written f h) ps js → reify_props f h ps = js.
Proof.
  unfold reify_props.
  induction 1 as [|[k v] [k' j] ps js [Hk Hw] _ IH]; [done|].
  simpl in Hk, Hw. subst k'. cbn [omap list_omap fst snd]. rewrite Hw. cbn.
  by rewrite IH.
Qed.

Lemma map_imap_snd {B} (F : value → B) (vs : list value) :
  ∀ g : nat → string,
    map (fun kv => F (snd kv)) (imap (fun i v => (g i, v)) vs) = map F vs.
Proof.
  induction vs as [|v vs IH]; intros g; simpl; [done|].
  f_equal. apply (IH (g ∘ S)).
Qed.

Lemma map_index_props {B} (F : value → B) (vs : list value) :
  map (fun kv => F (snd kv)) (index_props vs) = map F vs.
Proof. apply (map_imap_snd F vs (fun i => pretty i)). Qed.

Lemma holds_app (h h' ext : heap) : holds (h' ++ ext) h h'.
Proof. intros l o _ Hl. by apply lookup_app_l_Some. Qed.

Lemma holds_inner (H h h1 h2 e : heap) :
  (length h ≤ length h1)%nat → holds H h (h2 ++ e) → holds H h1 h2.
Proof.
  intros Hle Hh l o Hl Ho. apply Hh; [lia|]. by apply lookup_app_l_Some.
Qed.

(** A parsed document is written back as its canonical tree, in every
    heap that holds the objects it was built from and with any fuel that
    covers its depth; building it only appends to the heap. *)
Lemma alloc_json_held (j : json) :
  ∀ (h : heap) (v : value) (h' : heap),
    alloc_json j h = (v, h') →
    (∃ ext, h' = h ++ ext)
    ∧ ∀ (H : heap) (f : nat),
        holds H h h' → (depth j ≤ f)%nat → reify f H v = Some (canon j).
Proof.
  induction j as [| b | n | s | xs IHxs | kvs IHkvs] using json_ind';
    intros h v h'.
  1-4: intros [= <- <-]; split; [exists []; by rewrite app_nil_r|done].
  - rewrite alloc_json_arr.
    assert (Hel : ∀ h vs h1, alloc_elements xs h = (vs, h1) →
              (∃ ext, h1 = h ++ ext)
              ∧ ∀ H f, holds H h h1 → (foldr Nat.max O (map depth xs) ≤ f)%nat →
                  Forall2 (fun v x => reify f H v = Some (canon x)) vs xs).
    { induction IHxs as [|x xs Hx _ IH]; intros h0 vs h1; simpl.
      - intros [= <- <-]. split; [exists []; by rewrite app_nil_r|]. constructor.
      - destruct (alloc_json x h0) as [v0 h2] eqn:Hv0.
        destruct (alloc_elements xs h2) as [vs' h3] eqn:Hvs.
        intros [= <- <-]. destruct (Hx _ _ _ Hv0) as [[e2 ->] Hw0].
        destruct (IH _ _ _ Hvs) as [[e3 ->] Hws].
        split; [exists (e2 ++ e3); by rewrite app_assoc|].
        intros H f Hh Hf. constructor.
        + apply Hw0; [|lia]. by apply (holds_inner H h0 h0 _ e3).
        + apply Hws; [|lia]. intros l o Hl Ho. apply Hh; [|done].
          rewrite length_app in Hl. lia. }
    destruct (alloc_elements xs h) as [vs h1] eqn:Hvs.
    destruct (Hel _ _ _ Hvs) as [[e1 ->] Hws].
    unfold alloc. intros [= <- <-].
    split; [exists (e1 ++ [Obj true (index_props vs)]); by rewrite app_assoc|].
    intros H [|f] Hh Hf; [simpl in Hf; lia|].
    unfold reify. cbn [reify_value reify_object].
    rewrite (Hh (length (h ++ e1)) (Obj true (index_props vs)));
      [|rewrite length_app; lia|by rewrite lookup_app_r, Nat.sub_diag by lia].
    cbn [is_array props canon]. do 2 f_equal.
    assert (Hall : Forall2 (fun v x => reify f H v = Some (canon x)) vs xs).
    { apply Hws; [|simpl in Hf; lia]. by apply (holds_inner H h h _ [Obj true (index_props vs)]). }
    rewrite (map_index_props (fun v => default JNull (reify_value (reify_object f H) v))).
    clear -Hall.
    induction Hall as [|v x vs' xs' Hv _ IH]; cbn [map]; [done|].
    unfold reify in Hv. rewrite Hv. cbn [default]. by rewrite IH.
  - rewrite alloc_json_obj.
    assert (Hel : ∀ h ps h1, alloc_members kvs h = (ps, h1) →
              (∃ ext, h1 = h ++ ext)
              ∧ ∀ H f, holds H h h1 →
                  (foldr Nat.max O (map (fun kv => depth (snd kv)) kvs) ≤ f)%nat →
                  Forall2 (written f H) ps
                    (map (fun kv => (fst kv, canon (snd kv))) kvs)).
    { induction IHkvs as [|kv kvs Hx _ IH]; intros h0 ps h1; simpl.
      - intros [= <- <-]. split; [exists []; by rewrite app_nil_r|]. constructor.
      - destruct (alloc_json (snd kv) h0) as [v0 h2] eqn:Hv0.
        destruct (alloc_members kvs h2) as [ps' h3] eqn:Hps.
        intros [= <- <-]. destruct (Hx _ _ _ Hv0) as [[e2 ->] Hw0].
        destruct (IH _ _ _ Hps) as [[e3 ->] Hws].
        split; [exists (e2 ++ e3); by rewrite app_assoc|].
        intros H f Hh Hf. constructor.
        + split; [done|]. simpl. apply Hw0; [|lia]. by apply (holds_inner H h0 h0 _ e3).
        + apply Hws; [|lia]. intros l o Hl Ho. apply Hh; [|done].
          rewrite length_app in Hl. lia. }
    destruct (alloc_members kvs h) as [ps h1] eqn:Hps.
    destruct (Hel _ _ _ Hps) as [[e1 ->] Hws].
    unfold alloc. intros [= <- <-].
    split; [exists (e1 ++ [Obj false (build_props ps [])]); by rewrite app_assoc|].
    intros H [|f] Hh Hf; [simpl in Hf; lia|].
    unfold reify. cbn [reify_value reify_object].
    rewrite (Hh (length (h ++ e1)) (Obj false (build_props ps [])));
      [|rewrite length_app; lia|by rewrite lookup_app_r, Nat.sub_diag by lia].
    cbn [is_array props canon]. do 2 f_equal.
    apply (written_reify_props f). unfold jbuild.
    apply written_build; [|constructor].
    apply Hws; [|simpl in Hf; lia]. by apply (holds_inner H h h _ [Obj false (build_props ps [])]).
Qed.

(** The same for a heap that was extended. *)
Lemma alloc_json_written (j : json) (h : heap) (v : value) (h' : heap) :
  alloc_json j h = (v, h') →
  (∃ ext, h' = h ++ ext)
  ∧ ∀ (ext : heap) (f : nat),
      (depth j ≤ f)%nat → reify f (h' ++ ext) v = Some (canon j).
Proof.
  intros Ha. destruct (alloc_json_held j h v h' Ha) as [Hp Hw]. split; [done|].
  intros ext f Hf. apply Hw; [apply holds_app|done].
Qed.

(** A property read is serialised as the member of the same name. *)
Lemma written_assoc f h ps js k :
  Forall2 (written f h) ps js →
  reify f h (default VUndef (assoc k ps)) = assoc k js.
Proof.
  induction 1 as [|[k1 v1] [k2 j2] ps js [Hk Hw] _ IH]; [done|].
  simpl in Hk, Hw. subst k2. cbn [assoc].
  destruct (decide (k1 = k)); [exact Hw|exact IH].
Qed.

(** The members of a parsed object, in step with their canonical trees. *)
Lemma alloc_members_written (kvs : list (string * json)) :
  ∀ h ps h1, alloc_members kvs h = (ps, h1) →
    ∀ H f, holds H h h1 →
      (foldr Nat.max O (map (fun kv => depth (snd kv)) kvs) ≤ f)%nat →
      Forall2 (written f H) ps (map (fun kv => (fst kv, canon (snd kv))) kvs).
Proof.
  induction kvs as [|kv kvs IH]; intros h0 ps h1; simpl.
  - intros [= <- <-] H f _ _. constructor.
  - destruct (alloc_json (snd kv) h0) as [v0 h2] eqn:Hv0.
    destruct (alloc_members kvs h2) as [ps' h3] eqn:Hps.
    intros [= <- <-] H f Hh Hf.
    destruct (alloc_json_held _ _ _ _ Hv0) as [[e2 ->] Hw0].
    assert (∃ e3, h3 = (h0 ++ e2) ++ e3) as [e3 ->].
    { clear -Hps. revert Hps. generalize (h0 ++ e2). revert ps' h3.
      induction kvs as [|kv kvs IH]; intros ps h3 h; simpl.
      - intros [= <- <-]. exists []. by rewrite app_nil_r.
      - destruct (alloc_json (snd kv) h) as [v1 h4] eqn:Hv1.
        destruct (alloc_members kvs h4) as [ps'' h5] eqn:Hps'.
        intros [= <- <-]. destruct (alloc_json_held _ _ _ _ Hv1) as [[e4 ->] _].
        destruct (IH _ _ _ Hps') as [e5 ->]. exists (e4 ++ e5). by rewrite app_assoc. }
    constructor.
    + split; [done|]. simpl. apply Hw0; [|lia]. by apply (holds_inner H h0 h0 _ e3).
    + eapply IH; [exact Hps| |lia]. intros l o Hl Ho. apply Hh; [|done].
      rewrite length_app in Hl. lia.
Qed.


Lemma alloc_members_le (kvs : list (string * json)) :
  ∀ h ps h1, alloc_members kvs h = (ps, h1) → (length h ≤ length h1)%nat.
Proof.
  induction kvs as [|kv kvs IH]; intros h ps h1; simpl.
  - intros [= <- <-]. lia.
  - destruct (alloc_json (snd kv) h) as [v0 h2] eqn:Hv0.
    destruct (alloc_members kvs h2) as [ps' h3] eqn:Hps.
    intros [= <- <-]. destruct (alloc_json_spec _ _ _ _ Hv0) as [? _].
    specialize (IH _ _ _ Hps). lia.
Qed.

Lemma alloc_json_depth (j : json) :
  ∀ (h : heap) (v : value) (h' : heap),
    alloc_json j h = (v, h') → (length h + depth j ≤ length h')%nat.
Proof.
  induction j as [| b | n | s | xs IHxs | kvs IHkvs] using json_ind';
    intros h v h'.
  1-4: intros [= <- <-]; simpl; lia.
  - rewrite alloc_json_arr.
    assert (Hel : ∀ h vs h1, alloc_elements xs h = (vs, h1) →
              (length h + foldr Nat.max O (map depth xs) ≤ length h1)%nat).
    { induction IHxs as [|x xs Hx _ IH]; intros h0 vs h1; simpl.
      - intros [= <- <-]. lia.
      - destruct (alloc_json x h0) as [v0 h2] eqn:Hv0.
        destruct (alloc_elements xs h2) as [vs' h3] eqn:Hvs.
        intros [= <- <-]. specialize (Hx _ _ _ Hv0). specialize (IH _ _ _ Hvs). lia. }
    destruct (alloc_elements xs h) as [vs h1] eqn:Hvs. specialize (Hel _ _ _ Hvs).
    unfold alloc. intros [= <- <-]. rewrite length_app. simpl. lia.
  - rewrite alloc_json_obj.
    assert (Hel : ∀ h ps h1, alloc_members kvs h = (ps, h1) →
              (length h + foldr Nat.max O (map (fun kv => depth (snd kv)) kvs)
               ≤ length h1)%nat).
    { induction IHkvs as [|kv kvs Hx _ IH]; intros h0 ps h1; simpl.
      - intros [= <- <-]. lia.
      - destruct (alloc_json (snd kv) h0) as [v0 h2] eqn:Hv0.
        destruct (alloc_members kvs h2) as [ps' h3] eqn:Hps.
        intros [= <- <-]. specialize (Hx _ _ _ Hv0). specialize (IH _ _ _ Hps). lia. }
    destruct (alloc_members kvs h) as [ps h1] eqn:Hps. specialize (Hel _ _ _ Hps).
    unfold alloc. intros [= <- <-]. rewrite length_app. simpl. lia.
Qed.

(** The object a parsed object tree lives in. *)
Lemma alloc_json_object (kvs : list (string * json)) (h : heap) (v : value) (h' : heap) :
  alloc_json (JObj kvs) h = (v, h') →
  ∃ l o, v = VRef l ∧ (length h ≤ l)%nat ∧ h' !! l = Some o ∧ is_array o = false
         ∧ ∀ H f, holds H h h' → (depth (JObj kvs) ≤ S f)%nat →
             Forall2 (written f H) (props o) (jmembers (canon (JObj kvs))).
Proof.
  rewrite alloc_json_obj.
  destruct (alloc_members kvs h) as [ps h1] eqn:Hps.
  unfold alloc. intros [= <- <-].
  pose proof (alloc_members_le kvs _ _ _ Hps) as Hle.
  exists (length h1), (Obj false (build_props ps [])).
  split; [done|]. split; [done|]. split.
  { rewrite lookup_app_r by lia. by rewrite Nat.sub_diag. }
  split; [done|].
  intros H f Hh Hf. cbn [props canon jmembers]. unfold jbuild.
  apply written_build; [|constructor].
  eapply alloc_members_written; [exact Hps| |simpl in Hf; lia].
  by apply (holds_inner H h h _ [Obj false (build_props ps [])]).
Qed.

Section Documents.

Context (JSON_parse : string → option json).
Context (env : gmap string string).

(** The loaders only append to the heap. *)
Lemma getLegacyConfig_prefix (h : heap) (v : value) (h' : heap) :
  getLegacyConfig env h = (v, h') → ∃ ext, h' = h ++ ext.
Proof.
  unfold getLegacyConfig, alloc. intros [= <- <-].
  rewrite <- !app_assoc. by eexists.
Qed.

Lemma getAppConfig_prefix version environment cache h v h' :
  getAppConfig JSON_parse env version environment cache h = (v, h') →
  ∃ ext, h' = h ++ ext.
Proof.
  unfold getAppConfig, or_else.
  destruct (structured_input JSON_parse env (envVarName version environment)) as [j|].
  { intros Hj. by destruct (alloc_json_written _ _ _ _ Hj) as [? _]. }
  assert (Hnil : ∀ a, (a, h) = (v, h') → ∃ ext, h' = h ++ ext).
  { intros a [= <- <-]. exists []. by rewrite app_nil_r. }
  repeat case_decide; repeat case_match;
    first [apply Hnil | apply getLegacyConfig_prefix].
Qed.

Lemma load_versions_prefix (vs : list string) :
  ∀ cache h cache' h',
    load_versions JSON_parse env (cache, h) vs = (cache', h') → ∃ ext, h' = h ++ ext.
Proof.
  induction vs as [|v vs IH]; intros cache h cache' h'; rewrite ?load_versions_cons.
  - intros [= <- <-]. exists []. by rewrite app_nil_r.
  - destruct (cache_version_unfold JSON_parse env cache h v)
      as (c & h1 & t & h2 & Hc & Ht & ->).
    intros Hr. apply IH in Hr as [e3 ->].
    apply getAppConfig_prefix in Hc as [e1 ->].
    apply getAppConfig_prefix in Ht as [e2 ->].
    exists (e1 ++ e2 ++ e3). by rewrite !app_assoc.
Qed.

Lemma startup_heap :
  server_heap (startup JSON_parse env)
  = (load_versions JSON_parse env (∅, []) DECLARED_VERSIONS).2.
Proof. unfold startup. by destruct (load_versions _ _ _ _). Qed.

(** The round that loads a version, and where its heap sits in the
    finished one. *)
Lemma startup_entry (v : string) (test : bool) :
  v ∈ DECLARED_VERSIONS →
  ∃ cache h c h' ext,
    getAppConfig JSON_parse env v (if test then "test" else "") cache h = (c, h')
    ∧ configCache (startup JSON_parse env) !! entry_key v test = Some c
    ∧ server_heap (startup JSON_parse env) = h' ++ ext.
Proof.
  intros Hv.
  destruct (declared_split v Hv) as (pre & post & Hs & H1 & H2 & H3 & H4 & _).
  destruct (startup_round JSON_parse env pre v post Hs H1 H2 H3 H4)
    as (cache0 & h0 & c & h1 & t & h2 & Hpre & Hc & Ht & Hcv & Htv & _ & _).
  assert (Hheap : ∃ ext, server_heap (startup JSON_parse env) = h2 ++ ext).
  { rewrite startup_heap, Hs, load_versions_app, Hpre, load_versions_cons.
    destruct (cache_version_unfold JSON_parse env cache0 h0 v)
      as (c' & h1' & t' & h2' & Hc' & Ht' & ->).
    rewrite Hc in Hc'. injection Hc' as <- <-.
    rewrite Ht in Ht'. injection Ht' as <- <-.
    destruct (load_versions _ _ _ post) as [cache' h'] eqn:Hpost.
    apply load_versions_prefix in Hpost as [ext ->]. by exists ext. }
  destruct Hheap as [ext Hheap].
  destruct test.
  - exists (<[v := c]> cache0), h1, t, h2, ext. done.
  - apply getAppConfig_prefix in Ht as Hp. destruct Hp as [e2 ->].
    exists cache0, h0, c, h1, (e2 ++ ext). rewrite Hheap, <- app_assoc. done.
Qed.

End Documents.

(** ** Served documents *)

(** [document_route] with the metadata spelled out. *)
Lemma document_route_json env st req key :
  legacy_constants st →
  resolved_key req = Some key →
  (rateLimit req (rateLimitStore st)).1 = Next →
  validateApiKey (VALID_API_KEYS st) req = Next →
  (handle env st req).1
  = Express.json req
      (serve req (server_heap st) (cache_get (configCache st) key) (metadata_of env req)).
Proof.
  intros [Hd Ht] Hkey Hrl Hvalid. unfold resolved_key in Hkey.
  unfold metadata_of.
  destruct (first_match req routes) as [[r params]|] eqn:Hroute; [|done].
  rewrite (handle_routed _ _ _ _ _ Hroute).
  destruct r; try done; injection Hkey as <-; simpl; unfold limited_chain;
    destruct (rateLimit req (rateLimitStore st)) as [g store]; simpl in Hrl;
    subst g; rewrite Hvalid; simpl.
  - reflexivity.
  - reflexivity.
  - unfold env_config. simpl. rewrite Hd, Ht.
    destruct (decide (param "environment" params = "test")); reflexivity.
  - unfold config. simpl. rewrite Hd. reflexivity.
Qed.

(** Without a conditional header the answer is sent as the handler made
    it. *)
Lemma document_route_metadata env st req key :
  legacy_constants st →
  resolved_key req = Some key →
  (rateLimit req (rateLimitStore st)).1 = Next →
  validateApiKey (VALID_API_KEYS st) req = Next →
  unconditional req →
  (handle env st req).1
  = Sent (serve req (server_heap st) (cache_get (configCache st) key) (metadata_of env req)).
Proof.
  intros Hlc Hkey Hrl Hvalid Hun.
  rewrite (document_route_json env st req key Hlc Hkey Hrl Hvalid).
  by apply json_unconditional.
Qed.

(** Serving an object that is written as the tree [j]. *)
Lemma serve_written env req h l o j :
  h !! l = Some o →
  reify (length h) h (VRef l) = Some j →
  reify_props (length h) h (props o) = jmembers j →
  serve req h (VRef l) (metadata_of env req) = document_response env req j.
Proof.
  intros Ho Hj Hm. unfold serve, JSON_stringify, document_response.
  rewrite Hj. cbn [fmap option_fmap option_map Buffer_base64 spread].
  rewrite Ho, Hm. done.
Qed.



Section Legacy.

Context (JSON_parse : string → option json).
Context (env : gmap string string).

Lemma env_flag_true (name : string) : env_flag env name true = true.
Proof. unfold env_flag. apply orb_true_r. Qed.

Lemma env_flag_false (name : string) :
  env_flag env name false = bool_decide (env !! name = Some "true").
Proof. unfold env_flag. apply orb_false_r. Qed.

Lemma getLegacyConfig_objects :
  getLegacyConfig env []
  = (VRef 5, legacy_objects env (env_or env "FOUNDATION_MODEL" "claude-v3.7-sonnet")).
Proof. reflexivity. Qed.

(** The legacy document in a heap that starts with its objects. *)
Lemma legacy_written (model : string) (ext : heap) (f : nat) :
  let h := legacy_objects env model ++ ext in
  reify (S (S (S f))) h (VRef 5) = Some (JObj (legacy_fields env model))
  ∧ Forall2 (written (S (S f)) h) (props_at h 5) (legacy_fields env model).
Proof.
  unfold legacy_objects, legacy_fields, props_at, reify, getenv.
  rewrite !env_flag_true, !env_flag_false.
  destruct (env !! "USER_POOL_ID"), (env !! "APP_CLIENT_ID"),
    (env !! "WEBSOCKET_ENDPOINT"), (env !! "BOT_ID");
    (split; [reflexivity|repeat constructor]).
Qed.

Lemma getAppConfig_default cache h :
  structured_input JSON_parse env "APP_CONFIG" = None →
  getAppConfig JSON_parse env "" "" cache h = getLegacyConfig env h.
Proof.
  intros Hin. unfold getAppConfig.
  change (envVarName "" "") with "APP_CONFIG". rewrite Hin.
  rewrite decide_False by (by intros [? _]).
  rewrite decide_False by (by intros [? _]).
  rewrite decide_False by (by intros [? _]).
  done.
Qed.

(** Without a structured default input the heap starts with the legacy
    document, and the default entry points to it. *)
Lemma startup_legacy :
  structured_input JSON_parse env "APP_CONFIG" = None →
  configCache (startup JSON_parse env) !! "" = Some (VRef 5)
  ∧ ∃ ext, server_heap (startup JSON_parse env)
           = legacy_objects env (env_or env "FOUNDATION_MODEL" "claude-v3.7-sonnet") ++ ext.
Proof.
  intros Hin.
  assert (Hv : "" ∈ DECLARED_VERSIONS) by (by left).
  destruct (startup_round JSON_parse env [] "" ["2"; "3"; "4"; "5"])
    as (cache0 & h0 & c & h1 & t & h2 & Hpre & Hc & Ht & Hcv & _ & _ & _);
    [done|not_listed..|].
  injection Hpre as <- <-.
  rewrite (getAppConfig_default _ _ Hin), getLegacyConfig_objects in Hc.
  injection Hc as <- <-.
  split; [done|].
  rewrite startup_heap.
  change DECLARED_VERSIONS with ("" :: ["2"; "3"; "4"; "5"]).
  rewrite load_versions_cons.
  destruct (cache_version_unfold JSON_parse env ∅ [] "")
    as (c' & h1' & t' & h2' & Hc' & Ht' & ->).
  rewrite (getAppConfig_default _ _ Hin), getLegacyConfig_objects in Hc'.
  injection Hc' as <- <-.
  apply getAppConfig_prefix in Ht' as [e2 ->].
  destruct (load_versions _ _ _ _) as [cache' h'] eqn:Hpost.
  apply load_versions_prefix in Hpost as [e3 ->].
  exists (e2 ++ e3). cbn [snd]. by rewrite app_assoc.
Qed.

End Legacy.

(** Serving a heap that starts with the objects of a legacy document. *)
Lemma legacy_served env req (model : string) (ext : heap) :
  serve req (legacy_objects env model ++ ext) (VRef 5) (metadata_of env req)
  = document_response env req (JObj (legacy_fields env model)).
Proof.
  set (h := legacy_objects env model ++ ext).
  assert (Hlen : ∃ f, length h = S (S (S f))).
  { unfold h. rewrite length_app. simpl. eauto. }
  destruct Hlen as [f Hlen].
  destruct (legacy_written env model ext f) as [Hw _].
  destruct (legacy_written env model ext (S f)) as [_ Hp]. fold h in Hw, Hp.
  assert (Ho : ∃ o, h !! 5%nat = Some o) by (unfold h; simpl; eauto).
  destruct Ho as [o Ho].
  apply (serve_written env req h 5%nat o _ Ho).
  - rewrite Hlen. exact Hw.
  - rewrite Hlen. unfold props_at in Hp. rewrite Ho in Hp.
    by apply written_reify_props.
Qed.

Lemma startup_keys JSON_parse env :
  VALID_API_KEYS (startup JSON_parse env)
  = [env !! "API_KEY_IOS"; env !! "API_KEY_ANDROID"; env !! "API_KEY_WEB"].
Proof. unfold startup. by destruct (load_versions _ _ _ _). Qed.

(** The current router at startup, with any limiter store. *)
Lemma startup_with_store_constants JSON_parse env store :
  legacy_constants (with_store (startup JSON_parse env) store).
Proof. apply startup_legacy_constants. Qed.

(** The current router serving the legacy document, with any limiter store. *)
Lemma legacy_served_at_store JSON_parse env store req :
  structured_input JSON_parse env "APP_CONFIG" = None →
  resolved_key req = Some "" →
  (rateLimit req store).1 = Next →
  validateApiKey (VALID_API_KEYS (startup JSON_parse env)) req = Next →
  unconditional req →
  (handle env (with_store (startup JSON_parse env) store) req).1
  = Sent (document_response env req (JObj (legacy_document env))).
Proof.
  intros Hin Hkey Hrl Hvalid Hun.
  rewrite (document_route_metadata env _ req _
             (startup_with_store_constants JSON_parse env store) Hkey Hrl Hvalid Hun).
  f_equal. cbn [with_store server_heap configCache].
  destruct (startup_legacy JSON_parse env Hin) as (Hk & ext & Hheap).
  unfold cache_get. rewrite Hk, Hheap. apply legacy_served.
Qed.



(** ** The body of an update *)

(** The value a parsed tree becomes, and the last member of a name. *)
Lemma alloc_json_parsed_as j h v h' : alloc_json j h = (v, h') → parsed_as j v.
Proof.
  destruct j; try (by intros [= <- <-]).
  - rewrite alloc_json_arr. destruct (alloc_elements _ _). intros [= <- <-]. by eexists.
  - rewrite alloc_json_obj. destruct (alloc_members _ _). intros [= <- <-]. by eexists.
Qed.

Lemma alloc_members_last (kvs : list (string * json)) :
  ∀ h ps h1 k,
    alloc_members kvs h = (ps, h1) →
    match last_assoc k kvs with
    | Some j => ∃ v, last_assoc k ps = Some v ∧ parsed_as j v
    | None => last_assoc k ps = None
    end.
Proof.
  induction kvs as [|[k0 x] kvs IH]; intros h ps h1 k; simpl.
  - by intros [= <- <-].
  - destruct (alloc_json x h) as [v0 h2] eqn:Hv0.
    destruct (alloc_members kvs h2) as [ps' h3] eqn:Hps.
    intros [= <- <-]. rewrite !last_assoc_cons. specialize (IH _ _ _ k Hps).
    destruct (last_assoc k kvs) as [j|].
    + destruct IH as (v & -> & Hv). eauto.
    + rewrite IH. simpl. destruct (decide (k0 = k)); [|done].
      eexists. split; [done|]. by eapply alloc_json_parsed_as.
Qed.

(** [body.features] as the handler reads it from a parsed object. *)
Lemma parsed_features (kvs : list (string * json)) (h : heap) (body : value) (h1 : heap) :
  alloc_json (JObj kvs) h = (body, h1) →
  ∃ v, get_prop h1 body "features" = Some v
       ∧ match last_assoc "features" kvs with
         | Some j => parsed_as j v
         | None => v = VUndef
         end.
Proof.
  rewrite alloc_json_obj. destruct (alloc_members kvs h) as [ps h2] eqn:Hps.
  unfold alloc. intros [= <- <-]. cbn [get_prop].
  rewrite lookup_app_r by lia. rewrite Nat.sub_diag. cbn [lookup list_lookup props].
  eexists. split; [done|]. unfold prop_get.
  rewrite assoc_build_props.
  pose proof (alloc_members_last kvs _ _ _ "features" Hps) as Hl.
  destruct (last_assoc "features" kvs) as [j|].
  - destruct Hl as (v & -> & Hv). done.
  - rewrite Hl. done.
Qed.

(** A body whose [features] member is no object is answered with 400, and
    the heap only grows by the parsed body. *)
Lemma config_features_rejected env st req kvs :
  req_headers req !! "x-admin-key" = env !! "ADMIN_API_KEY" →
  req_body req = Some (JObj kvs) →
  is_object (last_assoc "features" kvs) = false →
  ∃ ext, config_features env st req
         = (Sent features_required, with_heap st (server_heap st ++ ext)).
Proof.
  intros Hadmin Hbody Hobj. unfold config_features.
  rewrite decide_False by (by intros H; apply H).
  rewrite Hbody.
  destruct (alloc_json (JObj kvs) (server_heap st)) as [body h1] eqn:Ha.
  destruct (alloc_json_written _ _ _ _ Ha) as [[ext ->] _].
  destruct (parsed_features _ _ _ _ Ha) as (v & -> & Hv).
  exists ext.
  destruct (last_assoc "features" kvs) as [[| b | n | s | xs | kvs']|];
    simpl in Hv, Hobj; try done; by subst v.
Qed.

(** A body whose [features] member is an object gets past the check. *)
Lemma config_features_accepted env st req kvs :
  req_headers req !! "x-admin-key" = env !! "ADMIN_API_KEY" →
  req_body req = Some (JObj kvs) →
  is_object (last_assoc "features" kvs) = true →
  (config_features env st req).1 = Thrown
  ∨ ∃ h lf, (config_features env st req).1 = Sent (updated req h lf).
Proof.
  intros Hadmin Hbody Hobj. unfold config_features.
  rewrite decide_False by (by intros H; apply H).
  rewrite Hbody.
  destruct (alloc_json (JObj kvs) (server_heap st)) as [body h1] eqn:Ha.
  destruct (parsed_features _ _ _ _ Ha) as (v & -> & Hv).
  assert (∃ src, v = VRef src) as [src ->].
  { destruct (last_assoc "features" kvs) as [[| b | n | s | xs | kvs']|];
      simpl in Hv, Hobj; done. }
  destruct (get_prop h1 (APP_CONFIG st) "features") as [target|]; [|by left].
  destruct (Object_assign _ _ _) as [h2|]; [|by left].
  right. by eexists _, _.
Qed.

(** X15.  The features route answers 400 "Features object is required"
    exactly when [features] of the body is missing or a primitive; an
    array passes the check like an object.  A rejected update leaves
    every object of the heap as it was. *)
Theorem features_check (env : gmap string string) (st : server) (req : request)
    (kvs : list (string * json)) :
  admin_request env st req →
  req_body req = Some (JObj kvs) →
  ((handle env st req).1 = Sent features_required
   ↔ is_object (last_assoc "features" kvs) = false)
  ∧ status features_required = 400
  ∧ (is_object (last_assoc "features" kvs) = false →
     ∀ l o, server_heap st !! l = Some o → server_heap (handle env st req).2 !! l = Some o).
Proof.
  intros (Hm & Hp & Hk & Hadmin) Hbody.
  assert (Hh : handle env st req = config_features env st req).
  { rewrite (handle_routed _ _ _ _ _ (route_features req Hm Hp)). cbn [run_route]. by rewrite Hk. }
  rewrite Hh. split; [|split; [done|]].
  - split.
    + intros Hr. destruct (is_object (last_assoc "features" kvs)) eqn:Hobj; [|done].
      destruct (config_features_accepted env st req kvs Hadmin Hbody Hobj)
        as [Ht|(h & lf & Hu)]; rewrite Hr in *; [done|].
      apply (f_equal (fun o => match o with Sent r => status r | _ => 0 end)) in Hu.
      discriminate Hu.
    + intros Hobj.
      by destruct (config_features_rejected env st req kvs Hadmin Hbody Hobj) as [ext ->].
  - intros Hobj l o Hl.
    destruct (config_features_rejected env st req kvs Hadmin Hbody Hobj) as [ext ->].
    simpl. by apply lookup_app_l_Some.
Qed.

Lemma features_check_witness :
  (handle envK (startup Json.parse envK)
     (post_body (JObj [("features", JStr "darkMode")]))).1 = Sent features_required.
Proof.
  apply (features_check envK (startup Json.parse envK)
           (post_body (JObj [("features", JStr "darkMode")]))
           [("features", JStr "darkMode")]).
  - repeat split.
  - reflexivity.
  - reflexivity.
Defined.

(** X16.  When the default document has no [features] member, or has
    [null] there, an admin update with a features object throws in
    [Object.assign]: the router sends no response, and no object of the
    heap is changed. *)
Theorem features_target_missing (env : gmap string string) (st : server)
    (req : request) (kvs : list (string * json)) (ld : loc) (doc : object) :
  APP_CONFIG st = VRef ld → server_heap st !! ld = Some doc →
  assoc "features" (props doc) = None ∨ assoc "features" (props doc) = Some VNull →
  admin_request env st req →
  req_body req = Some (JObj kvs) →
  is_object (last_assoc "features" kvs) = true →
  (handle env st req).1 = Thrown
  ∧ ∀ l o, server_heap st !! l = Some o → server_heap (handle env st req).2 !! l = Some o.
Proof.
  intros Hd Hdoc Hnone (Hm & Hp & Hk & Hadmin) Hbody Hobj.
  assert (Hh : handle env st req = config_features env st req).
  { rewrite (handle_routed _ _ _ _ _ (route_features req Hm Hp)). cbn [run_route]. by rewrite Hk. }
  rewrite Hh. unfold config_features.
  rewrite decide_False by (by intros H; apply H).
  rewrite Hbody.
  destruct (alloc_json (JObj kvs) (server_heap st)) as [body h1] eqn:Ha.
  destruct (alloc_json_written _ _ _ _ Ha) as [[ext ->] _].
  destruct (parsed_features _ _ _ _ Ha) as (v & -> & Hv).
  assert (∃ src, v = VRef src) as [src ->].
  { destruct (last_assoc "features" kvs) as [[| b | n | s | xs | kvs']|];
      simpl in Hv, Hobj; done. }
  rewrite Hd. cbn [get_prop]. rewrite (lookup_app_l_Some _ _ _ _ Hdoc).
  assert (Hthrow : Object_assign (prop_get "features" (props doc))
                     (props_at (server_heap st ++ ext) src) (server_heap st ++ ext)
                   = Abrupt (server_heap st ++ ext)).
  { unfold prop_get. by destruct Hnone as [-> | ->]. }
  rewrite Hthrow. split; [done|]. intros l o Hl. simpl. by apply lookup_app_l_Some.
Qed.

Lemma features_target_missing_witness :
  (handle envBare (startup Json.parse envBare)
     (post_body (flags_payload [("darkMode", true)]))).1 = Thrown.
Proof.
  apply (features_target_missing envBare (startup Json.parse envBare)
           (post_body (flags_payload [("darkMode", true)]))
           [("features", JObj [("darkMode", JBool true)])]
           0%nat (Obj false [("version", VStr "3.0.0")])).
  - reflexivity.
  - reflexivity.
  - by left.
  - repeat split.
  - reflexivity.
  - reflexivity.
Defined.

(** ** Keys, statuses and reads *)

(** X6.  After any history, a request that the router answers with a
    document or without an error (200, or 304 to a conditional request)
    and that is no OPTIONS request carries a key (in [X-API-Key], in
    [Authorization] or in the query) that is a non-empty string and is
    the value of one of the three platform-key variables.  An OPTIONS
    request is answered 200 with the methods of its path, key or no key:
    no route's chain runs for it. *)
Theorem ok_requires_configured_key (JSON_parse : string → option json)
    (env : gmap string string) (history : list request) (req : request)
    (code : Z) :
  let st := (run env (startup JSON_parse env) history).2 in
  outcome_status (handle env st req).1 = Some code →
  code = 200 ∨ code = 304 →
  (req_method req = OPTIONS ∧ code = 200)
  ∨ (req_method req ≠ OPTIONS
     ∧ ∃ k, k ≠ ""
            ∧ api_key_candidate req = Some (CStr k)
            ∧ (env !! "API_KEY_IOS" = Some k ∨ env !! "API_KEY_ANDROID" = Some k
               ∨ env !! "API_KEY_WEB" = Some k)).
Proof.
  intros st Hr Hst.
  destruct (run_legacy_constants JSON_parse env history) as (_ & _ & Hkeys).
  change (VALID_API_KEYS st = VALID_API_KEYS (startup JSON_parse env)) in Hkeys.
  apply handle_outcome in Hr as [Hopt|(Hm & rt & params & _ & Hr)]; [by left|].
  right. split; [done|].
  assert (Hk : validateApiKey (VALID_API_KEYS st) req = Next).
  { destruct Hr as [[H _]|[H|[Hk _]]]; [| |done]; destruct Hst; lia. }
  apply validateApiKey_Next in Hk as (k & Hne & Hc & Hin).
  exists k. split; [done|]. split; [done|].
  rewrite Hkeys in Hin. unfold startup in Hin.
  destruct (load_versions _ _ _ _). simpl in Hin.
  repeat (apply elem_of_cons in Hin as [Hin|Hin]; [auto|]).
  by apply elem_of_nil in Hin.
Qed.

Lemma ok_requires_configured_key_witness :
  let req := mk_request HEAD ["config"]
               [("authorization", "Bearer ios-key-1"); ("if-none-match", "*")] None in
  outcome_status (handle envK (run envK (startup Json.parse envK) [reqA]).2 req).1
  = Some 304
  ∧ ∃ k, k ≠ ""
         ∧ api_key_candidate req = Some (CStr k)
         ∧ (envK !! "API_KEY_IOS" = Some k ∨ envK !! "API_KEY_ANDROID" = Some k
            ∨ envK !! "API_KEY_WEB" = Some k).
Proof.
  intros req. split; [vm_compute; reflexivity|].
  destruct (ok_requires_configured_key Json.parse envK [reqA] req 304)
    as [[Hm _]|[_ H]].
  - vm_compute. reflexivity.
  - by right.
  - discriminate Hm.
  - exact H.
Defined.

(** A keyless OPTIONS request on the path of the default document. *)
Example options_needs_no_key :
  (handle envK (startup Json.parse envK) (mk_request OPTIONS ["config"] [] None)).1
  = Bare 200 [("Allow", "GET,HEAD")] "GET,HEAD".
Proof. vm_compute. reflexivity. Qed.

(** X9.  The statuses of the router.  An OPTIONS request that it answers
    gets 200; a POST that it answers gets 200, 400, 401 or 403; a GET or
    HEAD that it answers gets 200, 304, 401, 429 or 500, and 304 only
    when it carries [If-None-Match] or [If-Modified-Since]. *)
Theorem response_statuses (env : gmap string string) (st : server) (req : request)
    (code : Z) :
  outcome_status (handle env st req).1 = Some code →
  (req_method req = OPTIONS ∧ code = 200)
  ∨ (req_method req = POST ∧ code ∈ [200; 400; 401; 403])
  ∨ ((req_method req = GET ∨ req_method req = HEAD)
     ∧ code ∈ [200; 304; 401; 429; 500]
     ∧ (code = 304 → ¬ unconditional req)).
Proof.
  intros Hr. apply handle_outcome in Hr as [Hopt|(Hm & rt & params & Hrt & Hr)];
    [by left|].
  right. pose proof (first_match_method _ _ _ _ Hrt) as Hmeth.
  destruct (decide (rt = ConfigFeatures)) as [->|Hne].
  - left. split.
    { revert Hmeth. unfold routed.
      destruct (req_method req) eqn:E; simpl; rewrite ?E; done. }
    destruct Hr as [[_ ?]|[->|[_ [->|[(_ & ? & _)|[(_ & ? & _)|[[->| ->] _]]]]]]];
      try done; repeat first [by left|right].
  - right. split.
    { assert (Hg : route_method rt = GET) by (by destruct rt).
      rewrite Hg in Hmeth. revert Hmeth. unfold routed.
      destruct (req_method req) eqn:E; simpl; rewrite ?E; intros Hmeth;
        (discriminate Hmeth || auto). }
    split.
    + destruct Hr as [[-> _]|[->|[_ [->|[(-> & _)|[(-> & _)|[_ ?]]]]]]];
        try done; repeat first [by left|right].
    + intros ->.
      destruct Hr as [[? _]|[?|[_ [?|[(_ & _ & ?)|[(? & _)|[[?|?] _]]]]]]]; done.
Qed.

Lemma response_statuses_witness :
  let req := get ["config"] [("x-api-key", "ios-key-1"); ("if-none-match", "*")] in
  outcome_status (handle envK (startup Json.parse envK) req).1 = Some 304
  ∧ ¬ unconditional req.
Proof.
  intros req. split; [vm_compute; reflexivity|].
  destruct (response_statuses envK (startup Json.parse envK) req 304)
    as [[Hm _]|[[Hm _]|(_ & _ & H)]].
  - vm_compute. reflexivity.
  - discriminate Hm.
  - discriminate Hm.
  - by apply H.
Defined.

Lemma replace_bearer_prefix (k : string) : Platform.replace "Bearer " "" ("Bearer " +:+ k) = k.
Proof. destruct k; reflexivity. Qed.

(** X7.  A key is read from three places in a fixed order: a non-empty
    [X-API-Key] header wins over the other two; without it, an
    [Authorization] header [Bearer k] gives [k]; without both, the query
    parameter [apiKey].  In each case the check accepts the request
    exactly when the key is in the list, and answers "Invalid API key"
    otherwise. *)
Theorem api_key_sources (keys : list (option string)) (req : request) (k : string) :
  k ≠ "" →
  req_headers req !! "x-api-key" = Some k
  ∨ (nonempty (req_headers req !! "x-api-key") = None
     ∧ req_headers req !! "authorization" = Some ("Bearer " +:+ k))
  ∨ (nonempty (req_headers req !! "x-api-key") = None
     ∧ nonempty (Platform.replace "Bearer " "" <$> req_headers req !! "authorization") = None
     ∧ req_query req !! "apiKey" = Some (QStr k)) →
  api_key_candidate req = Some (CStr k)
  ∧ validateApiKey keys req = (if includes keys k then Next else Reply invalid_key).
Proof.
  intros Hk Hsrc.
  assert (Hc : api_key_candidate req = Some (CStr k)).
  { unfold api_key_candidate.
    destruct Hsrc as [H|[[H1 H2]|(H1 & H2 & H3)]].
    - rewrite H. simpl. by rewrite decide_False.
    - rewrite H1, H2. cbn [fmap option_fmap option_map].
      rewrite replace_bearer_prefix. cbn [nonempty]. by rewrite decide_False.
    - rewrite H1, H2, H3. simpl. by rewrite decide_False. }
  split; [done|]. unfold validateApiKey. by rewrite Hc.
Qed.

Lemma api_key_sources_witness :
  validateApiKey [Some "ios-key-1"; None; None]
    (get ["config"] [("x-api-key", ""); ("authorization", "Bearer ios-key-1")])
  = Next.
Proof.
  apply (api_key_sources [Some "ios-key-1"; None; None]
           (get ["config"] [("x-api-key", ""); ("authorization", "Bearer ios-key-1")])
           "ios-key-1").
  - discriminate.
  - right. left. split; reflexivity.
Defined.

(** X8.  A request without a key in its headers whose [apiKey] query
    parameter is not a string (a repeated or bracketed parameter) makes
    the key check throw: the value is in no key list and the warning
    calls [substring] on it.  The router sends no 401; the exception
    goes to the framework. *)
Theorem nested_query_key_throws (env : gmap string string) (st : server)
    (req : request) (rt : route) (params : list (string * string)) :
  first_match req routes = Some (rt, params) →
  rt = ConfigFeatures ∨ (rateLimit req (rateLimitStore st)).1 = Next →
  nonempty (req_headers req !! "x-api-key") = None →
  nonempty (Platform.replace "Bearer " "" <$> req_headers req !! "authorization") = None →
  req_query req !! "apiKey" = Some QNested →
  validateApiKey (VALID_API_KEYS st) req = Raise
  ∧ (handle env st req).1 = Thrown.
Proof.
  intros Hrt Hrl H1 H2 H3.
  assert (Hv : validateApiKey (VALID_API_KEYS st) req = Raise).
  { unfold validateApiKey, api_key_candidate. by rewrite H1, H2, H3. }
  split; [done|]. rewrite (handle_routed _ _ _ _ _ Hrt).
  destruct rt; cbn [run_route]; unfold limited_chain; rewrite ?Hv; try done;
    (destruct Hrl as [Hrl|Hrl]; [done|]);
    destruct (rateLimit req (rateLimitStore st)) as [g store]; simpl in Hrl; subst g;
    reflexivity.
Qed.

Lemma nested_query_key_throws_witness :
  (handle envK (startup Json.parse envK) req_nested).1 = Thrown.
Proof.
  apply (nested_query_key_throws envK (startup Json.parse envK) req_nested Config []).
  - reflexivity.
  - right. reflexivity.
  - reflexivity.
  - reflexivity.
  - reflexivity.
Defined.

(** The outcome reads the limiter's store through its verdict only. *)
Lemma dispatch_store_verdict env st s1 s2 req :
  (rateLimit req s1).1 = (rateLimit req s2).1 →
  (dispatch env routes (with_store st s1) req).1
  = (dispatch env routes (with_store st s2) req).1.
Proof.
  intros Hv. unfold dispatch.
  destruct (first_match req routes) as [[rt params]|]; [|done].
  destruct rt; cbn [run_route]; unfold limited_chain; simpl;
    try (destruct (rateLimit req s1) as [g1 t1], (rateLimit req s2) as [g2 t2];
         simpl in Hv; subst g2; by destruct g1).
  destruct (validateApiKey (VALID_API_KEYS st) req); try done.
  unfold config_features. simpl.
  repeat first [done | case_decide | case_match]; simplify_eq; done.
Qed.

Lemma handle_store_verdict env st s1 s2 req :
  (rateLimit req s1).1 = (rateLimit req s2).1 →
  (handle env (with_store st s1) req).1 = (handle env (with_store st s2) req).1.
Proof.
  intros Hv. unfold handle, route_request. destruct (req_method req).
  - by apply dispatch_store_verdict.
  - by apply dispatch_store_verdict.
  - pose proof (dispatch_store_verdict env st s1 s2 (as_get req) Hv) as Hd.
    destruct (dispatch env routes (with_store st s1) (as_get req)) as [o1 t1].
    destruct (dispatch env routes (with_store st s2) (as_get req)) as [o2 t2].
    simpl in *. by subst.
  - by destruct (allowed_methods req routes).
  - by apply dispatch_store_verdict.
Qed.

(** X10.  Requests other than POST change nothing but the limiter's
    store: after any sequence of them the heap of documents is the same,
    and a request gets the answer it would have got before them, as long
    as the limiter gives it the same verdict. *)
Theorem reads_are_safe (env : gmap string string) (st : server)
    (history : list request) (req : request) :
  let st' := (run env st history).2 in
  read_only history →
  (rateLimit req (rateLimitStore st')).1 = (rateLimit req (rateLimitStore st)).1 →
  server_heap st' = server_heap st
  ∧ (handle env st' req).1 = (handle env st req).1.
Proof.
  intros st' Hro Hv. split; [by apply run_read_only|].
  destruct (run_read_only_state env history st Hro) as [store Hst].
  change ((run env st history).2) with st' in Hst. rewrite Hst in *. simpl in Hv.
  rewrite <- (with_store_same st) at 2. by apply handle_store_verdict.
Qed.

Lemma reads_are_safe_witness :
  let history := [get ["v2"; "config"] [("x-api-key", "ios-key-1")]; reqA] in
  let req := get ["config"] [("x-api-key", "ios-key-1")] in
  (handle envK (run envK (startup Json.parse envK) history).2 req).1
  = (handle envK (startup Json.parse envK) req).1.
Proof.
  apply (reads_are_safe envK (startup Json.parse envK)
           [get ["v2"; "config"] [("x-api-key", "ios-key-1")]; reqA]
           (get ["config"] [("x-api-key", "ios-key-1")])).
  - by repeat constructor.
  - reflexivity.
Defined.









(** ** Documents out of reach of the merges *)

(** ** Heaps in which an object points to older objects only *)





Section Frames.

Context (JSON_parse : string → option json).
Context (env : gmap string string).






End Frames.












Section Survive.

Context (JSON_parse : string → option json).
Context (env : gmap string string).



End Survive.



(** ** The earlier router *)

Lemma v1_route_config (req : request) :
  req_method req = GET → req_path req = ["config"] →
  first_match req V1.routes = Some (Config, [])
  ∧ first_match req routes = Some (Config, []).
Proof.
  intros Hm Hp. unfold first_match, route_matches, V1.routes, routes.
  rewrite Hm, Hp. done.
Qed.

Lemma v1_route_version (req : request) :
  req_method req = GET → req_path req = ["config"; "version"] →
  first_match req V1.routes = Some (ConfigVersion, []).
Proof.
  intros Hm Hp. unfold first_match, route_matches, V1.routes. rewrite Hm, Hp. done.
Qed.

Lemma jfield_members (k : string) (j : json) : jfield k j = assoc k (jmembers j).
Proof. by destruct j. Qed.

(** The version handler on a document that is written as the tree [j]. *)
Lemma config_version_written st req ld doc j :
  APP_CONFIG st = VRef ld → server_heap st !! ld = Some doc →
  reify (length (server_heap st)) (server_heap st) (VRef ld) = Some j →
  Forall2 (written (length (server_heap st)) (server_heap st)) (props doc) (jmembers j) →
  config_version st req = Express.json req (version_response req j).
Proof.
  intros Hd Hdoc Hj Hw. unfold config_version, JSON_stringify, version_response.
  rewrite Hd, Hj. cbn [get_prop fmap option_fmap option_map Buffer_base64].
  rewrite Hdoc. do 3 f_equal.
  rewrite jfield_members, <- (written_assoc _ _ _ _ "version" Hw).
  unfold reify_props, prop_get. cbn [omap list_omap fst snd].
  by destruct (reify (length (server_heap st)) (server_heap st)
                 (default VUndef (assoc "version" (props doc)))).
Qed.

(** The document handler of [/config] through the limiter and the key check. *)
Lemma config_chain env st req :
  (rateLimit req (rateLimitStore st)).1 = Next →
  validateApiKey (VALID_API_KEYS st) req = Next →
  (run_route env st req Config []).1
  = Express.json req
      (serve req (server_heap st) (APP_CONFIG st)
         (base_metadata env req (env_or env "NODE_ENV" "development"))).
Proof.
  intros Hrl Hv. cbn [run_route]. unfold limited_chain.
  destruct (rateLimit req (rateLimitStore st)) as [g store]. simpl in Hrl. subst g.
  by rewrite Hv.
Qed.

Lemma version_chain env st req :
  (rateLimit req (rateLimitStore st)).1 = Next →
  validateApiKey (VALID_API_KEYS st) req = Next →
  (run_route env st req ConfigVersion []).1
  = config_version (with_store st (rateLimit req (rateLimitStore st)).2) req.
Proof.
  intros Hrl Hv. cbn [run_route]. unfold limited_chain.
  destruct (rateLimit req (rateLimitStore st)) as [g store]. simpl in Hrl. subst g.
  by rewrite Hv.
Qed.

Section Earlier.

Context (JSON_parse : string → option json).
Context (env : gmap string string).

(** The earlier router's state for a structured default document. *)
Lemma v1_startup_parsed (kvs : list (string * json)) :
  structured_input JSON_parse env "APP_CONFIG" = Some (JObj kvs) →
  ∃ ld doc,
    APP_CONFIG (V1.startup JSON_parse env) = VRef ld
    ∧ server_heap (V1.startup JSON_parse env) !! ld = Some doc
    ∧ reify (length (server_heap (V1.startup JSON_parse env)))
        (server_heap (V1.startup JSON_parse env)) (VRef ld)
      = Some (canon (JObj kvs))
    ∧ Forall2 (written (length (server_heap (V1.startup JSON_parse env)))
                 (server_heap (V1.startup JSON_parse env)))
        (props doc) (jmembers (canon (JObj kvs))).
Proof.
  intros Hin. unfold V1.startup, V1.getAppConfig. rewrite Hin.
  destruct (alloc_json (JObj kvs) []) as [c h] eqn:Hc. cbn [server_heap APP_CONFIG].
  destruct (alloc_json_object _ _ _ _ Hc) as (l & o & -> & _ & Ho & _ & Hprops).
  destruct (alloc_json_held _ _ _ _ Hc) as [_ Hw].
  pose proof (alloc_json_depth _ _ _ _ Hc) as Hd. simpl in Hd.
  assert (Hh : holds h [] h) by (by intros l0 o0 _ ?).
  exists l, o. split; [done|]. split; [done|]. split.
  - apply Hw; [done|simpl; lia].
  - apply Hprops; [done|simpl; lia].
Qed.

End Earlier.

(** X17.  In the earlier router [GET /config/version] reaches the
    version handler: a request that carries neither [If-None-Match] nor
    [If-Modified-Since] gets the body [version] (when the document has
    one), [timestamp] and [checksum], the checksum being the first 16
    characters of the base64 that the ETag of [/config] holds; with such
    a header the framework may answer 304 in its place. *)
Theorem v1_version_served (JSON_parse : string → option json)
    (env : gmap string string) (kvs : list (string * json))
    (store : gmap string clientData) (req : request) :
  let st := with_store (V1.startup JSON_parse env) store in
  structured_input JSON_parse env "APP_CONFIG" = Some (JObj kvs) →
  portable (JObj kvs) = true →
  req_method req = GET → req_path req = ["config"; "version"] →
  (rateLimit req store).1 = Next →
  validateApiKey (VALID_API_KEYS st) req = Next →
  (V1.handle env st req).1 = Express.json req (version_response req (canon (JObj kvs)))
  ∧ (unconditional req →
     (V1.handle env st req).1 = Sent (version_response req (canon (JObj kvs))))
  ∧ jkeys (res_body (version_response req (canon (JObj kvs))))
    = match jfield "version" (canon (JObj kvs)) with
      | Some _ => ["version"; "timestamp"; "checksum"]
      | None => ["timestamp"; "checksum"]
      end.
Proof.
  intros st Hin _ Hm Hp Hrl Hvalid.
  assert (Hh : (V1.handle env st req).1
               = Express.json req (version_response req (canon (JObj kvs)))).
  { unfold V1.handle.
    rewrite (route_request_routed _ _ _ _ _ _ (v1_route_version req Hm Hp)).
    rewrite (version_chain env st req Hrl Hvalid).
    destruct (v1_startup_parsed JSON_parse env kvs Hin) as (ld & doc & Hd & Hdoc & Hj & Hw).
    by apply (config_version_written _ req ld doc). }
  split; [exact Hh|]. split.
  - intros Hun. rewrite Hh. by apply json_unconditional.
  - unfold version_response. by destruct (jfield "version" (canon (JObj kvs))).
Qed.

Lemma v1_version_served_witness :
  (V1.handle envOwn (with_store (V1.startup Json.parse envOwn) ∅)
     (get ["config"; "version"] [("x-api-key", "ios-key-1")])).1
  = Sent (json_response 200
            [("version", JStr "1.1.0");
             ("timestamp", JStr "2025-07-15T10:30:00.000Z");
             ("checksum", JStr "eyJ2ZXJzaW9uIjoi")]).
Proof.
  destruct (v1_version_served Json.parse envOwn
           [("version", JStr "1.1.0"); ("features", JObj [("darkMode", JBool true)])]
           ∅ (get ["config"; "version"] [("x-api-key", "ios-key-1")]))
    as (_ & H & _).
  - vm_compute. reflexivity.
  - reflexivity.
  - reflexivity.
  - reflexivity.
  - reflexivity.
  - reflexivity.
  - apply H. split; reflexivity.
Defined.

Lemma v1_startup_keys JSON_parse env :
  VALID_API_KEYS (V1.startup JSON_parse env) = VALID_API_KEYS (startup JSON_parse env).
Proof. rewrite startup_keys. unfold V1.startup. by destruct (V1.getAppConfig _ _ _). Qed.

(** X18.  For a structured default document, the earlier router and the
    current one answer [GET /config] alike, whatever the headers of the
    request: the same status, headers and body.  Without [If-None-Match]
    and [If-Modified-Since] the answer is the 200 with the configured
    document. *)
Theorem upgrade_keeps_config (JSON_parse : string → option json)
    (env : gmap string string) (kvs : list (string * json))
    (store1 store2 : gmap string clientData) (req : request) :
  let old := with_store (V1.startup JSON_parse env) store1 in
  let new := with_store (startup JSON_parse env) store2 in
  structured_input JSON_parse env "APP_CONFIG" = Some (JObj kvs) →
  portable (JObj kvs) = true →
  req_method req = GET → req_path req = ["config"] →
  (rateLimit req store1).1 = Next → (rateLimit req store2).1 = Next →
  validateApiKey (VALID_API_KEYS new) req = Next →
  (handle env new req).1 = (V1.handle env old req).1
  ∧ (V1.handle env old req).1
    = Express.json req (document_response env req (canon (JObj kvs)))
  ∧ (unconditional req →
     (handle env new req).1 = Sent (document_response env req (canon (JObj kvs)))).
Proof.
  intros old new Hin _ Hm Hp Hrl1 Hrl2 Hvalid.
  assert (Hvalid1 : validateApiKey (VALID_API_KEYS old) req = Next).
  { cbn [old with_store VALID_API_KEYS]. by rewrite v1_startup_keys. }
  destruct (v1_route_config req Hm Hp) as [Hr1 Hr2].
  assert (Hmeta : metadata_of env req
                  = base_metadata env req (env_or env "NODE_ENV" "development")).
  { unfold metadata_of. by rewrite Hr2. }
  assert (Hold : (V1.handle env old req).1
                 = Express.json req (document_response env req (canon (JObj kvs)))).
  { unfold V1.handle. rewrite (route_request_routed _ _ _ _ _ _ Hr1).
    rewrite (config_chain env old req Hrl1); [|exact Hvalid1].
    destruct (v1_startup_parsed JSON_parse env kvs Hin) as (ld & doc & Hd & Hdoc & Hj & Hw).
    f_equal. rewrite <- Hmeta. cbn [old with_store server_heap APP_CONFIG]. rewrite Hd.
    apply (serve_written env req _ ld doc); [done|done|].
    by apply written_reify_props. }
  assert (Hnew : (handle env new req).1
                 = Express.json req (document_response env req (canon (JObj kvs)))).
  { assert (Hkey : resolved_key req = Some (entry_key "" false)).
    { unfold resolved_key. by rewrite Hr2. }
    rewrite (document_route_json env new req _
               (startup_with_store_constants JSON_parse env store2) Hkey Hrl2 Hvalid).
    f_equal. cbn [new with_store server_heap configCache].
    destruct (startup_entry JSON_parse env "" false)
      as (cache & h & c & h' & ext & Hc & Hk & Hheap); [by left|].
    unfold cache_get. rewrite Hk. change (default VUndef (Some c)) with c.
    rewrite (getAppConfig_parsed JSON_parse env "" "" cache h (JObj kvs) Hin) in Hc.
    destruct (alloc_json_object _ _ _ _ Hc) as (l & o & -> & _ & Ho & _ & Hprops).
    destruct (alloc_json_written _ _ _ _ Hc) as [_ Hw].
    pose proof (alloc_json_depth _ _ _ _ Hc) as Hd.
    rewrite Hheap.
    apply (serve_written env req _ l o).
    - by apply lookup_app_l_Some.
    - apply Hw. rewrite length_app. lia.
    - apply written_reify_props, Hprops; [apply holds_app|]. rewrite length_app. lia. }
  split; [by rewrite Hold, Hnew|]. split; [exact Hold|].
  intros Hun. rewrite Hnew. by apply json_unconditional.
Qed.

Lemma upgrade_keeps_config_witness :
  let req := get ["config"] [("x-api-key", "ios-key-1"); ("if-none-match", "*")] in
  (handle envOwn (with_store (startup Json.parse envOwn) ∅) req).1
  = (V1.handle envOwn (with_store (V1.startup Json.parse envOwn) ∅) req).1
  ∧ outcome_status (handle envOwn (with_store (startup Json.parse envOwn) ∅) req).1
    = Some 304.
Proof.
  intros req. split; [|vm_compute; reflexivity].
  destruct (upgrade_keeps_config Json.parse envOwn
              [("version", JStr "1.1.0"); ("features", JObj [("darkMode", JBool true)])]
              ∅ ∅ req) as (H & _ & _).
  - vm_compute. reflexivity.
  - reflexivity.
  - reflexivity.
  - reflexivity.
  - reflexivity.
  - reflexivity.
  - reflexivity.
  - exact H.
Defined.

Lemma sent_inj (r1 r2 : response) : Sent r1 = Sent r2 → r1 = r2.
Proof. by intros [= ->]. Qed.

(** The model name in a served legacy document. *)
Lemma legacy_model_field env req (model : string) :
  jfield "bot" (res_body (document_response env req (JObj (legacy_fields env model))))
    ≫= jfield "foundationModel"
  = Some (JStr model).
Proof.
  unfold document_response, legacy_fields, opt_field.
  destruct (env !! "BOT_ID"); reflexivity.
Qed.

Lemma v1_startup_legacy JSON_parse env :
  structured_input JSON_parse env "APP_CONFIG" = None →
  V1.startup JSON_parse env
  = {| server_heap := legacy_objects env (env_or env "FOUNDATION_MODEL" "claude-v3.5-sonnet");
       configCache := ∅;
       APP_CONFIG := VRef 5;
       APP_CONFIG_TEST := VUndef;
       VALID_API_KEYS := [env !! "API_KEY_IOS"; env !! "API_KEY_ANDROID"; env !! "API_KEY_WEB"];
       rateLimitStore := ∅ |}.
Proof. intros Hin. unfold V1.startup, V1.getAppConfig. by rewrite Hin. Qed.

(** X19.  For the legacy document the two routers differ in one place:
    the default of [bot.foundationModel] is [claude-v3.5-sonnet] in the
    earlier router and [claude-v3.7-sonnet] in the current one.  When
    [FOUNDATION_MODEL] is set their answers to [GET /config] are equal;
    to a request without [If-None-Match] and [If-Modified-Since] each
    sends its legacy document, and the two answers are equal exactly
    when [FOUNDATION_MODEL] is set. *)
Theorem upgrade_changes_default_model (JSON_parse : string → option json)
    (env : gmap string string)
    (store1 store2 : gmap string clientData) (req : request) :
  let old := with_store (V1.startup JSON_parse env) store1 in
  let new := with_store (startup JSON_parse env) store2 in
  let old_document :=
    document_response env req
      (JObj (legacy_fields env (env_or env "FOUNDATION_MODEL" "claude-v3.5-sonnet"))) in
  let new_document :=
    document_response env req
      (JObj (legacy_fields env (env_or env "FOUNDATION_MODEL" "claude-v3.7-sonnet"))) in
  structured_input JSON_parse env "APP_CONFIG" = None →
  req_method req = GET → req_path req = ["config"] →
  (rateLimit req store1).1 = Next → (rateLimit req store2).1 = Next →
  validateApiKey (VALID_API_KEYS new) req = Next →
  (V1.handle env old req).1 = Express.json req old_document
  ∧ (handle env new req).1 = Express.json req new_document
  ∧ (nonempty (env !! "FOUNDATION_MODEL") ≠ None →
     (handle env new req).1 = (V1.handle env old req).1)
  ∧ (unconditional req →
     (V1.handle env old req).1 = Sent old_document
     ∧ (handle env new req).1 = Sent new_document
     ∧ ((handle env new req).1 = (V1.handle env old req).1
        ↔ nonempty (env !! "FOUNDATION_MODEL") ≠ None)).
Proof.
  intros old new old_document new_document Hin Hm Hp Hrl1 Hrl2 Hvalid.
  assert (Hvalid1 : validateApiKey (VALID_API_KEYS old) req = Next).
  { cbn [old with_store VALID_API_KEYS]. by rewrite v1_startup_keys. }
  destruct (v1_route_config req Hm Hp) as [Hr1 Hr2].
  assert (Hmeta : metadata_of env req
                  = base_metadata env req (env_or env "NODE_ENV" "development")).
  { unfold metadata_of. by rewrite Hr2. }
  assert (Hold : (V1.handle env old req).1 = Express.json req old_document).
  { unfold V1.handle. rewrite (route_request_routed _ _ _ _ _ _ Hr1).
    rewrite (config_chain env old req Hrl1); [|exact Hvalid1].
    f_equal. rewrite <- Hmeta. unfold old. rewrite (v1_startup_legacy _ _ Hin).
    cbn [with_store server_heap APP_CONFIG].
    rewrite <- (app_nil_r (legacy_objects _ _)). apply legacy_served. }
  assert (Hnew : (handle env new req).1 = Express.json req new_document).
  { assert (Hkey : resolved_key req = Some "").
    { unfold resolved_key. by rewrite Hr2. }
    rewrite (document_route_json env new req _
               (startup_with_store_constants JSON_parse env store2) Hkey Hrl2 Hvalid).
    f_equal. cbn [new with_store server_heap configCache].
    destruct (startup_legacy JSON_parse env Hin) as (Hk & ext & Hheap).
    unfold cache_get. rewrite Hk, Hheap. apply legacy_served. }
  split; [exact Hold|]. split; [exact Hnew|].
  assert (Hset : nonempty (env !! "FOUNDATION_MODEL") ≠ None →
                 new_document = old_document).
  { unfold new_document, old_document, env_or, nonempty.
    destruct (env !! "FOUNDATION_MODEL") as [m|]; [destruct (decide (m = ""))|]; done. }
  split; [intros Hfm; by rewrite Hold, Hnew, (Hset Hfm)|].
  intros Hun. rewrite Hold, Hnew, !(json_unconditional _ _ Hun).
  split; [done|]. split; [done|].
  split; [|by intros ->%Hset].
  assert (Hdiff : ∀ m1 m2 : string,
            Sent (document_response env req (JObj (legacy_fields env m1)))
            = Sent (document_response env req (JObj (legacy_fields env m2))) →
            m1 = m2).
  { intros m1 m2 H%sent_inj.
    apply (f_equal (fun r => jfield "bot" (res_body r) ≫= jfield "foundationModel")) in H.
    rewrite !legacy_model_field in H. by injection H. }
  unfold new_document, old_document, env_or, nonempty.
  destruct (env !! "FOUNDATION_MODEL") as [m|]; [destruct (decide (m = ""))|].
  - intros H%Hdiff; discriminate H.
  - intros _; discriminate.
  - intros H%Hdiff; discriminate H.
Qed.

Lemma upgrade_changes_default_model_witness :
  (V1.handle envK (with_store (V1.startup Json.parse envK) ∅)
     (get ["config"] [("x-api-key", "ios-key-1")])).1
  = Sent (document_response envK (get ["config"] [("x-api-key", "ios-key-1")])
            (JObj (legacy_fields envK "claude-v3.5-sonnet")))
  ∧ (handle envK (with_store (startup Json.parse envK) ∅)
       (get ["config"] [("x-api-key", "ios-key-1")])).1
    = Sent (document_response envK (get ["config"] [("x-api-key", "ios-key-1")])
              (JObj (legacy_fields envK "claude-v3.7-sonnet"))).
Proof.
  destruct (upgrade_changes_default_model Json.parse envK ∅ ∅
              (get ["config"] [("x-api-key", "ios-key-1")]))
    as (_ & _ & _ & H).
  - reflexivity.
  - reflexivity.
  - reflexivity.
  - reflexivity.
  - reflexivity.
  - reflexivity.
  - destruct H as (H1 & H2 & _); [split; reflexivity|].
    split; [exact H1|exact H2].
Defined.

(** ** The client *)

(** ** The client *)

Lemma decode_encode_AppConfig (c : Client.AppConfig) :
  Client.decode_AppConfig (Client.encode_AppConfig c) = Client.Ok c.
Proof.
  destruct c as [[[up ac]] [ws] [b fm] [dm an nc] v [[ts rid sv env]|]]; reflexivity.
Qed.

(** X20.  What the client caches is what it fetched: after a successful
    fetch, a service started over the same defaults holds the fetched
    configuration, dated with the cache's time stamp, and does not
    clear the cache. *)
Theorem cached_configuration_round_trip (url : bool) (t : Client.transfer)
    (now1 now2 : Z) (s : Client.service) (c : Client.AppConfig) :
  Client.performConfigurationRequest url t = Client.Ok c →
  let s1 := Client.fetchConfiguration url t now1 now2 s in
  let s2 := Client.init (Client.userDefaults s1) in
  Client.currentConfig s1 = Some c
  ∧ Client.currentConfig s2 = Some c
  ∧ Client.lastUpdateTime s2 = Some now2
  ∧ Client.userDefaults s2 = Client.userDefaults s1.
Proof.
  intros Hok s1 s2. unfold s2, s1, Client.fetchConfiguration, Client.init.
  rewrite Hok. cbn [Client.cacheConfiguration Client.userDefaults Client.currentConfig].
  unfold Client.loadCachedConfiguration.
  cbn [Client.userDefaults Client.cached_app_config Client.decode].
  rewrite decode_encode_AppConfig. done.
Qed.

Lemma cached_configuration_round_trip_witness :
  Client.currentConfig
    (Client.init
       (Client.userDefaults
          (Client.fetchConfiguration true sample_answer 10 11 fresh_service)))
  = Some sample_config.
Proof.
  apply (cached_configuration_round_trip true sample_answer 10 11 fresh_service
           sample_config).
  reflexivity.
Defined.

(** X21.  A failed fetch records its error and never discards a
    configuration: one that the service holds stays, with the cache
    untouched, and with none held the cached one is loaded. *)
Theorem failed_fetch_falls_back (url : bool) (t : Client.transfer)
    (now1 now2 : Z) (s : Client.service) (e : Client.ConfigError) :
  Client.performConfigurationRequest url t = Client.Err e →
  let s' := Client.fetchConfiguration url t now1 now2 s in
  Client.error s' = Some e
  ∧ Client.isLoading s' = false
  ∧ (∀ c, Client.currentConfig s = Some c →
          Client.currentConfig s' = Some c
          ∧ Client.userDefaults s' = Client.userDefaults s)
  ∧ (∀ c, Client.currentConfig s = None →
          Client.cached_app_config (Client.userDefaults s)
          = Some (Some (Client.encode_AppConfig c)) →
          Client.currentConfig s' = Some c
          ∧ Client.lastUpdateTime s' = Client.last_config_fetch (Client.userDefaults s)).
Proof.
  intros Herr s'. unfold s', Client.fetchConfiguration. rewrite Herr.
  cbn [Client.currentConfig Client.error]. split_and!.
  - destruct (Client.currentConfig s); [done|].
    unfold Client.loadCachedConfiguration. cbn [Client.userDefaults].
    destruct (Client.cached_app_config _) as [data|]; [|done].
    by destruct (Client.decode _ _).
  - done.
  - intros c Hc. by rewrite Hc.
  - intros c Hc Hcache. rewrite Hc.
    unfold Client.loadCachedConfiguration. cbn [Client.userDefaults].
    rewrite Hcache. cbn [Client.decode]. by rewrite decode_encode_AppConfig.
Qed.

Lemma failed_fetch_falls_back_witness :
  Client.error (Client.fetchConfiguration true Client.Thrown 20 21
                  (Client.fetchConfiguration true sample_answer 10 11 fresh_service))
  = Some (Client.networkError Client.transportError).
Proof.
  apply (failed_fetch_falls_back true Client.Thrown 20 21
           (Client.fetchConfiguration true sample_answer 10 11 fresh_service)
           (Client.networkError Client.transportError)).
  reflexivity.
Defined.

(** ** The client against the router *)

Lemma rateLimit_reply_shape req store r store' :
  rateLimit req store = (Reply r, store') → ∃ n, r = too_many_requests n.
Proof.
  unfold rateLimit. destruct (store !! clientId req); [|done].
  repeat case_decide; try done. intros [= <- _]. by eexists.
Qed.

Lemma json_sent req a r : Express.json req a = Sent r → r = a.
Proof.
  destruct (json_cases req a) as [->|(-> & _)]; [by intros [= ->]|done].
Qed.

Lemma without_body_not_sent o r : Express.without_body o ≠ Sent r.
Proof. by destruct o. Qed.

(** An answer with a body comes from a route's chain. *)
Lemma handle_sent env st req r :
  (handle env st req).1 = Sent r →
  ∃ rt params, (run_route env st req rt params).1 = Sent r.
Proof.
  unfold handle.
  destruct (route_request_cases env routes st req)
    as [(_ & _ & [H|[allow H]])|[(_ & H & _)|(_ & _ & H)]]; rewrite H; try done.
  - intros Hs. by apply without_body_not_sent in Hs.
  - unfold dispatch. destruct (first_match req routes) as [[rt params]|]; [|done].
    intros Hs. by exists rt, params.
Qed.

(** A 429 of the router is the limiter's. *)
Lemma handle_429 env st req r :
  (handle env st req).1 = Sent r → status r = 429 → ∃ n, r = too_many_requests n.
Proof.
  intros Hr Hs. apply handle_sent in Hr as (rt & params & Hr).
  assert (Hchain : ∀ validate handler,
            (limited_chain st req validate handler).1 = Sent r →
            (∀ st', handler st' = Sent r → status r ≠ 429) →
            ∃ n, r = too_many_requests n).
  { intros validate handler Hc Hh. unfold limited_chain in Hc.
    destruct (rateLimit req (rateLimitStore st)) as [g store] eqn:Hrl.
    destruct g as [|r'|]; simpl in Hc; [|injection Hc as <-; by eapply rateLimit_reply_shape|done].
    destruct (validateApiKey _ _) as [|r'|] eqn:Hk; simpl in Hc; [| |done].
    - exfalso. eapply Hh; [|exact Hs]. unfold validateRequest in Hc.
      destruct validate; exact Hc.
    - injection Hc as <-. apply validateApiKey_status in Hk. rewrite Hk in Hs.
      discriminate Hs. }
  assert (Hserve : ∀ h c m, r = serve req h c m → status r ≠ 429).
  { intros h c m ->. destruct (serve_status req h c m) as [-> | ->]; discriminate. }
  destruct rt; cbn [run_route] in Hr.
  - apply (Hchain _ _ Hr). intros st' H%json_sent. by eapply Hserve.
  - apply (Hchain _ _ Hr). intros st' H%json_sent. by eapply Hserve.
  - apply (Hchain _ _ Hr). intros st' H%json_sent. by eapply Hserve.
  - apply (Hchain _ _ Hr). intros st' H%json_sent. by eapply Hserve.
  - apply (Hchain _ _ Hr). intros st' H.
    assert (Hc : outcome_status (config_version st' req) = Some (status r))
      by (by rewrite H).
    apply config_version_status in Hc as [Hc|[Hc _]]; rewrite Hc; discriminate.
  - exfalso. destruct (validateApiKey (VALID_API_KEYS st) req) as [|r'|] eqn:Hk;
      simpl in Hr; [| |done].
    + apply config_features_status in Hr as [H|[H|H]]; rewrite H in Hs; discriminate Hs.
    + injection Hr as <-. apply validateApiKey_status in Hk. rewrite Hk in Hs.
      discriminate Hs.
Qed.

(** X22.  The router's 429 tells the waiting time in the body field
    [retryAfter] and sets no [Retry-After] header, which is where the
    client looks: for every 429 of the router the client's error is
    [rateLimited] without a waiting time. *)
Theorem retry_hint_lost (env : gmap string string) (st : server) (req : request)
    (r : response) :
  (handle env st req).1 = Sent r → status r = 429 →
  (∃ n, jfield "retryAfter" (res_body r) = Some (JNum n))
  ∧ Client.header_value "Retry-After" (res_headers r) = None
  ∧ Client.performConfigurationRequest true (wire r)
    = Client.Err (Client.rateLimited None).
Proof.
  intros Hr Hs. destruct (handle_429 env st req r Hr Hs) as [n ->].
  split; [by exists n|]. done.
Qed.

Lemma retry_hint_lost_witness :
  Client.performConfigurationRequest true (wire (too_many_requests 60))
  = Client.Err (Client.rateLimited None).
Proof.
  apply (retry_hint_lost envK
           (run envK (startup Json.parse envK) (replicate 100 reqA)).2 reqA
           (too_many_requests 60)).
  - vm_compute. reflexivity.
  - reflexivity.
Defined.

(** The client's key is read from its [X-API-Key] field, and its request
    is not conditional. *)
Lemma client_request_key apiKey d path req (keys : list (option string)) :
  client_request apiKey d path req → apiKey ≠ "" →
  validateApiKey keys req = (if includes keys apiKey then Next else Reply invalid_key).
Proof.
  intros (_ & _ & Hf & _) Hne. unfold validateApiKey, api_key_candidate.
  assert (Hk : req_headers req !! "x-api-key" = Some apiKey).
  { apply (Hf ("X-API-Key", apiKey)). by left. }
  rewrite Hk. simpl. by rewrite decide_False.
Qed.

Lemma client_request_unconditional apiKey d path req :
  client_request apiKey d path req → unconditional req.
Proof.
  intros (_ & _ & _ & H1 & H2). unfold unconditional, Express.header.
  by rewrite H1, H2.
Qed.

Lemma includes_elem (keys : list (option string)) (k : string) :
  Some k ∈ keys → includes keys k = true.
Proof. intros H. unfold includes. by rewrite bool_decide_eq_true. Qed.

(** X23.  The client decodes the legacy document of [GET /config] exactly
    when the four identifiers are set.  For a request that the client
    makes with a configured key ([createBaseRequest]: no conditional
    header) and that the limiter lets through, after requests other than
    POSTs: the client then holds the values of the identifiers, the flags
    with [analytics] on, and the metadata; with one of the identifiers
    unset the request fails with a decoding error for the first missing
    key. *)
Theorem client_reads_legacy_document (JSON_parse : string → option json)
    (env : gmap string string) (history : list request)
    (apiKey : string) (d : Client.device) (req : request) :
  let st := (run env (startup JSON_parse env) history).2 in
  structured_input JSON_parse env "APP_CONFIG" = None →
  read_only history →
  client_request apiKey d ["config"] req →
  apiKey ≠ "" → Some apiKey ∈ VALID_API_KEYS st →
  (rateLimit req (rateLimitStore st)).1 = Next →
  ∃ r, (handle env st req).1 = Sent r
       ∧ Client.performConfigurationRequest true (wire r)
         = match env !! "USER_POOL_ID", env !! "APP_CLIENT_ID",
                 env !! "WEBSOCKET_ENDPOINT", env !! "BOT_ID" with
           | Some up, Some ac, Some ws, Some b =>
               Client.Ok
                 {| Client.aws :=
                      {| Client.cognito :=
                           {| Client.userPoolId := up; Client.appClientId := ac |} |};
                    Client.api := {| Client.websocketEndpoint := ws |};
                    Client.bot :=
                      {| Client.botId := b;
                         Client.foundationModel :=
                           env_or env "FOUNDATION_MODEL" "claude-v3.7-sonnet" |};
                    Client.features :=
                      {| Client.darkMode :=
                           bool_decide (env !! "FEATURE_DARK_MODE" = Some "true");
                         Client.analytics := true;
                         Client.newCheckout :=
                           bool_decide (env !! "FEATURE_NEW_CHECKOUT" = Some "true") |};
                    Client.version := env_or env "CONFIG_VERSION" "1.0.0";
                    Client.metadata :=
                      Some {| Client.timestamp := iso_time req;
                              Client.requestId := requestId req;
                              Client.serverVersion := env_or env "npm_package_version" "1.0.0";
                              Client.environment := env_or env "NODE_ENV" "development" |} |}
           | None, _, _, _ =>
               Client.Err (Client.decodingError (Client.keyNotFound "userPoolId"))
           | Some _, None, _, _ =>
               Client.Err (Client.decodingError (Client.keyNotFound "appClientId"))
           | Some _, Some _, None, _ =>
               Client.Err (Client.decodingError (Client.keyNotFound "websocketEndpoint"))
           | Some _, Some _, Some _, None =>
               Client.Err (Client.decodingError (Client.keyNotFound "botId"))
           end.
Proof.
  intros st Hin Hro Hreq Hne Hkeys Hrl.
  pose proof (client_request_unconditional _ _ _ _ Hreq) as Hun.
  assert (Hvalid : validateApiKey (VALID_API_KEYS st) req = Next).
  { rewrite (client_request_key _ _ _ _ _ Hreq Hne). by rewrite includes_elem. }
  destruct Hreq as (Hm & Hp & _).
  destruct (v1_route_config req Hm Hp) as [_ Hroute].
  assert (Hkey : resolved_key req = Some "").
  { unfold resolved_key. by rewrite Hroute. }
  destruct (run_read_only_state env history (startup JSON_parse env) Hro) as [store Hst].
  change ((run env (startup JSON_parse env) history).2) with st in Hst.
  rewrite Hst in *. eexists. split.
  { by apply (legacy_served_at_store JSON_parse env store req Hin Hkey). }
  unfold wire, document_response, metadata_of. rewrite Hroute.
  cbn [status res_headers res_body].
  unfold legacy_document, legacy_fields, opt_field, base_metadata.
  destruct (env !! "USER_POOL_ID"), (env !! "APP_CLIENT_ID"),
    (env !! "WEBSOCKET_ENDPOINT"), (env !! "BOT_ID"); reflexivity.
Qed.

(** The earlier router's version handler on the legacy document. *)
Lemma v1_version_legacy JSON_parse env store req :
  structured_input JSON_parse env "APP_CONFIG" = None →
  config_version (with_store (V1.startup JSON_parse env) store) req
  = Express.json req
      (version_response req
         (JObj (legacy_fields env (env_or env "FOUNDATION_MODEL" "claude-v3.5-sonnet")))).
Proof.
  intros Hin. rewrite (v1_startup_legacy _ _ Hin).
  set (model := env_or env "FOUNDATION_MODEL" "claude-v3.5-sonnet").
  destruct (legacy_written env model [] 3) as [Hw _].
  destruct (legacy_written env model [] 4) as [_ Hp].
  rewrite app_nil_r in Hw, Hp.
  by apply (config_version_written _ req 5%nat
              (Obj false [("aws", VRef 1); ("api", VRef 2); ("bot", VRef 3);
                          ("features", VRef 4);
                          ("version", VStr (env_or env "CONFIG_VERSION" "1.0.0"))])).
Qed.

(** X24.  The client's version request works against the earlier router
    and fails against the current one.  For a request that the client
    makes for [/config/version] with a configured key and that the
    limiter lets through: the earlier router answers with the version
    triple and the client decodes it; the current router answers through
    the environment route with the whole document, which has no
    [timestamp], and the client reports a network error. *)
Theorem version_fetch_regression (JSON_parse : string → option json)
    (env : gmap string string)
    (store1 store2 : gmap string clientData)
    (apiKey : string) (d : Client.device) (req : request) :
  let old := with_store (V1.startup JSON_parse env) store1 in
  let new := with_store (startup JSON_parse env) store2 in
  structured_input JSON_parse env "APP_CONFIG" = None →
  client_request apiKey d ["config"; "version"] req →
  apiKey ≠ "" → Some apiKey ∈ VALID_API_KEYS new →
  (rateLimit req store1).1 = Next → (rateLimit req store2).1 = Next →
  (∃ r, (V1.handle env old req).1 = Sent r
        ∧ Client.fetchConfigurationVersion true (wire r)
          = Client.Ok
              {| Client.cv_version := env_or env "CONFIG_VERSION" "1.0.0";
                 Client.cv_timestamp := iso_time req;
                 Client.cv_checksum :=
                   Platform.substring0 16
                     (Platform.base64
                        (Json.print
                           (JObj (legacy_fields env
                                    (env_or env "FOUNDATION_MODEL" "claude-v3.5-sonnet"))))) |})
  ∧ (∃ r, (handle env new req).1 = Sent r
          ∧ Client.fetchConfigurationVersion true (wire r)
            = Client.Err (Client.networkError
                            (Client.decodingFailure (Client.keyNotFound "timestamp")))).
Proof.
  intros old new Hin Hreq Hne Hkeys Hrl1 Hrl2.
  pose proof (client_request_unconditional _ _ _ _ Hreq) as Hun.
  assert (Hvalid : validateApiKey (VALID_API_KEYS new) req = Next).
  { rewrite (client_request_key _ _ _ _ _ Hreq Hne). by rewrite includes_elem. }
  destruct Hreq as (Hm & Hp & _).
  assert (Hvalid1 : validateApiKey (VALID_API_KEYS old) req = Next).
  { cbn [old with_store VALID_API_KEYS]. by rewrite v1_startup_keys. }
  split.
  - eexists. split.
    + unfold V1.handle.
      rewrite (route_request_routed _ _ _ _ _ _ (v1_route_version req Hm Hp)).
      rewrite (version_chain env old req Hrl1 Hvalid1).
      cbn [old with_store rateLimitStore server_heap].
      etrans; [apply (v1_version_legacy JSON_parse env _ req Hin)|].
      by apply json_unconditional.
    + reflexivity.
  - eexists. split.
    + apply (legacy_served_at_store JSON_parse env store2 req Hin); [|done|done|done].
      by apply (resolved_env_config req "version").
    + unfold wire, document_response. cbn [status res_headers res_body].
      unfold legacy_document, legacy_fields. reflexivity.
Qed.

Lemma iphone_request_client (path : list string) :
  client_request "ios-key-1" iphone path (iphone_request path).
Proof.
  split; [done|]. split; [done|]. split; [|by split].
  intros field Hf. vm_compute in Hf.
  repeat (apply elem_of_cons in Hf as [->|Hf]; [reflexivity|]).
  by apply elem_of_nil in Hf.
Qed.

Lemma client_reads_legacy_document_witness :
  ∃ r c,
    (handle envFull (startup Json.parse envFull) (iphone_request ["config"])).1 = Sent r
    ∧ Client.performConfigurationRequest true (wire r) = Client.Ok c
    ∧ Client.analytics (Client.features c) = true.
Proof.
  destruct (client_reads_legacy_document Json.parse envFull [] "ios-key-1" iphone
              (iphone_request ["config"]))
    as (r & Hr & Hd).
  - reflexivity.
  - constructor.
  - apply iphone_request_client.
  - discriminate.
  - vm_compute. repeat first [by left|right].
  - reflexivity.
  - exists r. eexists. split; [exact Hr|]. split; [exact Hd|reflexivity].
Defined.

Lemma version_fetch_regression_witness :
  ∃ r, (handle envK (with_store (startup Json.parse envK) ∅)
          (iphone_request ["config"; "version"])).1 = Sent r
       ∧ Client.fetchConfigurationVersion true (wire r)
         = Client.Err (Client.networkError
                         (Client.decodingFailure (Client.keyNotFound "timestamp"))).
Proof.
  apply (version_fetch_regression Json.parse envK ∅ ∅ "ios-key-1" iphone
           (iphone_request ["config"; "version"])).
  - reflexivity.
  - apply iphone_request_client.
  - discriminate.
  - vm_compute. repeat first [by left|right].
  - reflexivity.
  - reflexivity.
Defined.

(** ** The features route and the limiter *)

(** X5.  [POST /config/features] is outside the limiter: any number of
    requests to it leaves the limiter's store as it was, and none of them
    is answered 429. *)
Theorem features_route_unlimited (env : gmap string string) (reqs : list request) :
  ∀ st : server,
    Forall (fun r => req_method r = POST ∧ req_path r = ["config"; "features"]) reqs →
    rateLimitStore (run env st reqs).2 = rateLimitStore st
    ∧ Forall (fun o => ∀ r, o = Sent r → status r ≠ 429) (run env st reqs).1.
Proof.
  induction reqs as [|q qs IH]; intros st Hall; [by split|].
  apply Forall_cons in Hall as [[Hm Hp] Hall]. cbn [run].
  assert (Hh : rateLimitStore (handle env st q).2 = rateLimitStore st
               ∧ ∀ r, (handle env st q).1 = Sent r → status r ≠ 429).
  { split.
    - rewrite (handle_routed _ _ _ _ _ (route_features q Hm Hp)). apply run_route_features_store.
    - intros r Hr Hs. rewrite (handle_routed _ _ _ _ _ (route_features q Hm Hp)) in Hr.
      assert (Hc : outcome_status (run_route env st q ConfigFeatures []).1 = Some 429)
        by (by rewrite Hr, <- Hs).
      apply run_route_outcome in Hc.
      destruct Hc as [[_ H]|[H|[_ [H|[(H & _)|[(H & _)|[[H|H] _]]]]]]];
        [done|discriminate H..]. }
  destruct Hh as [Hstore Hstat].
  destruct (handle env st q) as [o st1]. simpl in Hstore, Hstat.
  destruct (IH st1 Hall) as [IH1 IH2].
  destruct (run env st1 qs) as [os st2]. simpl in *.
  split; [by rewrite IH1|]. constructor; [|done].
  intros r ->. by apply Hstat.
Qed.

Lemma features_route_unlimited_witness :
  rateLimitStore
    (run envK (startup Json.parse envK)
       (replicate 150 (post_without_admin_key [("newCheckout", true)]))).2
  = rateLimitStore (startup Json.parse envK).
Proof.
  apply (features_route_unlimited envK
           (replicate 150 (post_without_admin_key [("newCheckout", true)]))
           (startup Json.parse envK)).
  apply Forall_replicate. split; reflexivity.
Defined.
